(** * FEUP-CAL: the graph library of TP7 (Graph.h) and the factorial
    exercise of TP4 (ex1.cpp), embedded in Rocq.

    Pointers are modelled as arena handles: a [Vertex<T>*] is the position
    of the vertex in [Graph::vertexSet] ([None] is [nullptr]); an [Edge<T>*]
    is the pair (position of the owning vertex, position in its [adj]).
    Vertices and edges are never deleted or moved, so handles are stable.

    Edge weights and distances are [double] in the source.  They are
    modelled by exact integers ([Z]): every comparison the algorithms make
    is the integer comparison, sums are exact, and [INF], which the source
    defines as [std::numeric_limits<double>::max()], is the integer
    (2^53 - 1) * 2^971 that this double denotes.  NaN is outside the model. *)

From Stdlib Require Import ZArith List Lia Permutation.
From stdpp Require Import base option numbers relations list sorting.


Set Warnings "-clear-no-such-hyp".
Open Scope nat_scope.

(** ** Outcomes of the fallible operations *)

(** What a call can do besides returning: throw [std::out_of_range] (the
    checked access [vector::at]), run into undefined behaviour (a
    [nullptr] dereference, an array access out of bounds), or exhaust the
    recursion/iteration budget of the model. *)
Inductive outcome (A : Type) : Type :=
| Done (a : A)
| OutOfRange
| Undefined
| Timeout.
Arguments Done {A} a.
Arguments OutOfRange {A}.
Arguments Undefined {A}.
Arguments Timeout {A}.

Global Instance outcome_bind : MBind outcome := λ A B k m,
  match m with
  | Done a => k a
  | OutOfRange => OutOfRange
  | Undefined => Undefined
  | Timeout => Timeout
  end.

(** [#define INF std::numeric_limits<double>::max()] *)
Definition INF : Z := ((2 ^ 53 - 1) * 2 ^ 971)%Z.

(** ** Data model *)

Record Edge : Type := mkEdge {
  orig : nat;                      (* Vertex<T> *orig *)
  dest : nat;                      (* Vertex<T> *dest *)
  weight : Z;                      (* double weight *)
  selected : bool;                 (* bool selected = false *)
  reverse : option (nat * nat)     (* Edge<T> *reverse = nullptr *)
}.

Definition edge_shape (e : Edge) : nat * nat * Z * option (nat * nat) :=
  (orig e, dest e, weight e, reverse e).

Definition set_selected (b : bool) (e : Edge) : Edge :=
  mkEdge (orig e) (dest e) (weight e) b (reverse e).
Definition set_reverse (r : option (nat * nat)) (e : Edge) : Edge :=
  mkEdge (orig e) (dest e) (weight e) (selected e) r.

(** ** Weighted undirected edge sets and spanning trees *)

(** An edge set is a list of triples (endpoint, endpoint, weight), read as
    undirected edges. *)
Definition adjacent (E : list (nat * nat * Z)) : relation nat :=
  λ u v, ∃ w, (u, v, w) ∈ E ∨ (v, u, w) ∈ E.

(** [u] and [v] are joined by a chain of edges of [E]. *)
Definition conn (E : list (nat * nat * Z)) : relation nat := rtc (adjacent E).

Definition total_weight (E : list (nat * nat * Z)) : Z :=
  foldr (λ e s, e.2 + s)%Z 0%Z E.

(** A spanning tree of the graph with vertices [0..n-1] and edge set [E]:
    [n - 1] edges of [E] that join all the vertices. *)
Definition spanning_tree (n : nat) (E T : list (nat * nat * Z)) : Prop :=
  (∀ e, e ∈ T → e ∈ E) ∧
  length T = n - 1 ∧
  ∀ u v, u < n → v < n → conn T u v.

Definition minimum_spanning_tree (n : nat) (E T : list (nat * nat * Z)) : Prop :=
  spanning_tree n E T ∧
  ∀ T', spanning_tree n E T' → (total_weight T ≤ total_weight T')%Z.

(** An edge crosses the cut [S] when exactly one endpoint lies in [S]. *)
Definition crosses (S : nat → bool) (e : nat * nat * Z) : Prop :=
  S e.1.1 ≠ S e.1.2.

(** [F] can be completed into a spanning tree at least as light as any
    given one. *)
Definition safe (n : nat) (E F : list (nat * nat * Z)) : Prop :=
  ∀ T, spanning_tree n E T →
    ∃ R, spanning_tree n E (F ++ R) ∧ (total_weight (F ++ R) ≤ total_weight T)%Z.

(** A chain of successive neighbours starting after [u]. *)
Inductive chain (E : list (nat * nat * Z)) : nat → list nat → Prop :=
| chain_nil u : chain E u []
| chain_cons u v l : adjacent E u v → chain E v l → chain E u (v :: l).

Section Graph.
Context {T : Type} `{EqDecision T}.

Record Vertex : Type := mkVertex {
  info : T;                 (* T info *)
  adj : list Edge;          (* std::vector<Edge<T> *> adj *)
  visited : bool;           (* bool visited *)
  dist : Z;                 (* double dist = 0 *)
  path : option nat;        (* Vertex<T> *path = nullptr *)
  queueIndex : nat;         (* int queueIndex = 0 *)
  id : nat;                 (* int id *)
  rank : nat                (* int rank *)
}.

Definition set_adj (a : list Edge) (v : Vertex) : Vertex :=
  mkVertex (info v) a (visited v) (dist v) (path v) (queueIndex v) (id v) (rank v).
Definition set_visited (b : bool) (v : Vertex) : Vertex :=
  mkVertex (info v) (adj v) b (dist v) (path v) (queueIndex v) (id v) (rank v).
Definition set_dist (d : Z) (v : Vertex) : Vertex :=
  mkVertex (info v) (adj v) (visited v) d (path v) (queueIndex v) (id v) (rank v).
Definition set_path (p : option nat) (v : Vertex) : Vertex :=
  mkVertex (info v) (adj v) (visited v) (dist v) p (queueIndex v) (id v) (rank v).
Definition set_id (i : nat) (v : Vertex) : Vertex :=
  mkVertex (info v) (adj v) (visited v) (dist v) (path v) (queueIndex v) i (rank v).
Definition set_rank (r : nat) (v : Vertex) : Vertex :=
  mkVertex (info v) (adj v) (visited v) (dist v) (path v) (queueIndex v) (id v) r.

(** [Graph<T>] has the single data member [vertexSet]; a graph is modelled
    as that vector. *)
Local Abbreviation Graph := (list Vertex).

(** [Vertex<T>::Vertex(T in) : info(in) {}]; the fields without an
    initialiser ([visited], [id], [rank]) are taken as zero. *)
Definition newVertex (x : T) : Vertex := mkVertex x [] false 0%Z None 0 0 0.

Definition getNumVertex (g : Graph) : nat := length g.
Definition getVertexSet (g : Graph) : list Vertex := g.

(** [findVertex]: the first vertex whose [info] equals [x], or [nullptr]. *)
Definition findVertex (g : Graph) (x : T) : option nat :=
  fst <$> list_find (λ v, info v = x) g.

Definition addVertex (x : T) (g : Graph) : bool * Graph :=
  match findVertex g x with
  | Some _ => (false, g)
  | None => (true, g ++ [newVertex x])
  end.

(** [Vertex<T>::addEdge(d, w)] on the vertex at position [s]:
    pushes [new Edge<T>(this, d, w)] and returns its handle. *)
Definition Vertex_addEdge (s d : nat) (w : Z) (g : Graph) : (nat * nat) * Graph :=
  let k := from_option (λ v, length (adj v)) 0 (g !! s) in
  ((s, k), alter (λ v, set_adj (adj v ++ [mkEdge s d w false None]) v) s g).

Definition addEdge (sourc dst : T) (w : Z) (g : Graph) : bool * Graph :=
  match findVertex g sourc, findVertex g dst with
  | Some v1, Some v2 => (true, snd (Vertex_addEdge v1 v2 w g))
  | _, _ => (false, g)
  end.

(** Reading and updating an edge through its handle. *)
Definition edge_at (g : Graph) (h : nat * nat) : option Edge :=
  v ← g !! h.1; adj v !! h.2.
Definition alter_edge (f : Edge → Edge) (h : nat * nat) (g : Graph) : Graph :=
  alter (λ v, set_adj (alter f h.2 (adj v)) v) h.1 g.

Definition addBidirectionalEdge (sourc dst : T) (w : Z) (g : Graph) : bool * Graph :=
  match findVertex g sourc, findVertex g dst with
  | Some v1, Some v2 =>
      let '(edge1, g1) := Vertex_addEdge v1 v2 w g in
      let '(edge2, g2) := Vertex_addEdge v2 v1 w g1 in
      let g3 := alter_edge (set_reverse (Some edge2)) edge1 g2 in
      let g4 := alter_edge (set_reverse (Some edge1)) edge2 g3 in
      (true, g4)
  | _, _ => (false, g)
  end.

(** Graphs obtained from the empty graph through [addVertex] and
    [addBidirectionalEdge] only (the undirected graphs of the exercise). *)
Inductive Built : Graph → Prop :=
| Built_empty : Built []
| Built_vertex g x : Built g → Built (addVertex x g).2
| Built_edge g a b w : Built g → Built (addBidirectionalEdge a b w g).2.

(** Closed form of a successful [addBidirectionalEdge]. *)
Definition link_pair (v1 v2 : nat) (w : Z) (g : Graph) : Graph :=
  let k1 := from_option (λ v, length (adj v)) 0 (g !! v1) in
  let k2 := from_option (λ v, length (adj v)) 0 (g !! v2) in
  let h2 := (v2, if decide (v1 = v2) then S k1 else k2) in
  alter (λ v, set_adj (adj v ++ [mkEdge v2 v1 w false (Some (v1, k1))]) v) v2
    (alter (λ v, set_adj (adj v ++ [mkEdge v1 v2 w false (Some h2)]) v) v1 g).

(** The concatenation of [h i v] over the vertices [v] at positions [i]. *)
Definition indexed_bind {A} (g : Graph) (h : nat → Vertex → list A) : list A :=
  mjoin ((λ i, from_option (h i) [] (g !! i)) <$> seq 0 (length g)).

(** *** Priority queue *)

(** Modelled from the spec: [MutablePriorityQueue] (MutablePriorityQueue.h
    is not among the sources).  The spec asks for [insert], [extractMin]
    (removes and returns the item with the smallest key, the key being the
    vertex's [dist] through [Vertex::operator<]) and [decreaseKey]
    (reposition an item whose key has decreased).  The queue is the list of
    the handles it holds, in insertion order; keys are read from the
    vertices when the minimum is extracted, so [decreaseKey] has nothing to
    reposition; among equal keys the oldest item is extracted. *)
Definition MutablePriorityQueue : Type := list nat.
Definition pq_insert (x : nat) (q : MutablePriorityQueue) : MutablePriorityQueue :=
  q ++ [x].
Definition pq_decreaseKey (x : nat) (q : MutablePriorityQueue) : MutablePriorityQueue :=
  q.
Fixpoint pq_argmin (key : nat → Z) (best : nat) (q : list nat) : nat :=
  match q with
  | [] => best
  | x :: q' => pq_argmin key (if decide (key x < key best)%Z then x else best) q'
  end.
Fixpoint remove_first (x : nat) (q : list nat) : list nat :=
  match q with
  | [] => []
  | y :: q' => if decide (y = x) then q' else y :: remove_first x q'
  end.
Definition pq_extractMin (key : nat → Z) (q : MutablePriorityQueue)
  : option (nat * MutablePriorityQueue) :=
  match q with
  | [] => None
  | x :: q' => let m := pq_argmin key x q' in Some (m, remove_first m q)
  end.

(** The key of a queued vertex ([Vertex::operator<] compares [dist]). *)
Definition key (g : Graph) (i : nat) : Z := from_option dist 0%Z (g !! i).

(** *** Prim *)

(** The first loop of [calculatePrim]. *)
Definition prim_reset (g : Graph) : Graph :=
  (λ v, set_visited false (set_path None (set_dist INF v))) <$> g.

(** One iteration of [for (auto &e : currV->adj)]. *)
Definition prim_relax (currV : nat) (st : Graph * MutablePriorityQueue) (e : Edge)
  : Graph * MutablePriorityQueue :=
  match st.1 !! dest e with
  | None => st
  | Some destV =>
      if visited destV then st
      else
        let currDist := dist destV in
        if decide (weight e < dist destV)%Z then
          let g' := alter (λ v, set_path (Some currV) (set_dist (weight e) v)) (dest e) st.1 in
          if decide (currDist = INF) then (g', pq_insert (dest e) st.2)
          else (g', pq_decreaseKey (dest e) st.2)
        else st
  end.

(** One iteration of [while (!q.empty())]; [None] when the queue is empty. *)
Definition prim_step (st : Graph * MutablePriorityQueue)
  : option (Graph * MutablePriorityQueue) :=
  match pq_extractMin (key st.1) st.2 with
  | None => None
  | Some (currV, q1) =>
      let g1 := alter (set_visited true) currV st.1 in
      Some (foldl (prim_relax currV) (g1, q1) (from_option adj [] (g1 !! currV)))
  end.

Fixpoint prim_loop (fuel : nat) (st : Graph * MutablePriorityQueue) : outcome Graph :=
  match fuel with
  | 0 => Timeout
  | S fuel' =>
      match prim_step st with
      | None => Done st.1
      | Some st' => prim_loop fuel' st'
      end
  end.

Definition calculatePrim (g : Graph) : outcome Graph :=
  let g0 := prim_reset g in
  match g0 !! 0 with
  | None => OutOfRange                      (* vertexSet.at(0) *)
  | Some _ =>
      let q := pq_insert 0 [] in
      let g1 := alter (set_dist 0) 0 g0 in
      prim_loop (S (length g)) (g1, q)
  end.

(** *** Disjoint sets *)

(** [makeSet(x)], on the vertex record [v] of handle [x]. *)
Definition makeSet (x : nat) (v : Vertex) : Vertex := set_rank 0 (set_path (Some x) v).

(** [findSet(x)]: the recursion depth is bounded by [fuel]. *)
Fixpoint findSet (fuel : nat) (x : nat) (g : Graph) : outcome (nat * Graph) :=
  match fuel with
  | 0 => Timeout
  | S fuel' =>
      match path <$> g !! x with
      | Some (Some p) =>
          if decide (x ≠ p) then
            '(r, g') ← findSet fuel' p g;
            Done (r, alter (set_path (Some r)) x g')
          else Done (p, g)
      | _ => Undefined                      (* x or x->path is not a vertex *)
      end
  end.

Definition linkSets (fuel : nat) (x y : nat) (g : Graph) : outcome Graph :=
  '(i, g1) ← findSet fuel x g;
  '(j, g2) ← findSet fuel y g1;
  match g2 !! i, g2 !! j with
  | Some vi, Some vj =>
      if decide (rank vj < rank vi) then Done (alter (set_path (Some i)) j g2)
      else
        let g3 := alter (set_path (Some j)) i g2 in
        if decide (rank vi = rank vj) then Done (alter (λ v, set_rank (S (rank v)) v) j g3)
        else Done g3
  | _, _ => Undefined
  end.

(** *** Kruskal *)

(** First loop: [makeSet(v); v->id = counter++]. *)
Definition kruskal_init (g : Graph) : Graph :=
  imap (λ i v, set_id i (makeSet i v)) g.

(** Second loop: every edge is deselected, and the handles of the edges
    with [e->orig->id < e->dest->id] are collected in traversal order. *)
Definition kruskal_deselect (g : Graph) : Graph :=
  (λ v, set_adj (set_selected false <$> adj v) v) <$> g.
Definition id_of (g : Graph) (x : nat) : nat := from_option id 0 (g !! x).
Definition handles (g : Graph) : list (nat * nat) :=
  indexed_bind g (λ u v, (λ k, (u, k)) <$> seq 0 (length (adj v))).
Definition canonical (g : Graph) (h : nat * nat) : Prop :=
  match edge_at g h with
  | Some e => id_of g (orig e) < id_of g (dest e)
  | None => False
  end.
Global Instance canonical_dec g h : Decision (canonical g h) :=
  match edge_at g h as o
    return Decision (match o with
                     | Some e => id_of g (orig e) < id_of g (dest e)
                     | None => False
                     end) with
  | Some e => decide (id_of g (orig e) < id_of g (dest e))
  | None => right (λ H : False, H)
  end.
Definition kruskal_edges (g : Graph) : list (nat * nat) :=
  filter (canonical g) (handles g).

(** [std::sort] with the comparator [e1->weight < e2->weight], modelled by
    a merge sort on the weights (the order [std::sort] leaves among edges
    of equal weight is unspecified; here it is the order of collection). *)
Definition weight_at (g : Graph) (h : nat * nat) : Z :=
  from_option weight 0%Z (edge_at g h).
Definition weight_le (g : Graph) (h1 h2 : nat * nat) : Prop :=
  (weight_at g h1 ≤ weight_at g h2)%Z.
Global Instance weight_le_dec g h1 h2 : Decision (weight_le g h1 h2) :=
  decide (weight_at g h1 ≤ weight_at g h2)%Z.
Global Instance weight_le_trans g : Transitive (weight_le g).
Proof. intros ???. unfold weight_le. lia. Qed.
Global Instance weight_le_total g : Total (weight_le g).
Proof. intros ??. unfold weight_le. lia. Qed.
Definition sort_edges (g : Graph) (hs : list (nat * nat)) : list (nat * nat) :=
  merge_sort (weight_le g) hs.

(** Body of [for (auto e : edges)]. *)
Definition kruskal_step (fuel : nat) (g : Graph) (h : nat * nat) : outcome Graph :=
  match edge_at g h with
  | None => Undefined
  | Some e =>
      '(r1, g1) ← findSet fuel (orig e) g;
      '(r2, g2) ← findSet fuel (dest e) g1;
      if decide (r1 ≠ r2) then
        g3 ← linkSets fuel (orig e) (dest e) g2;
        let g4 := alter_edge (set_selected true) h g3 in
        match reverse e with
        | None => Undefined                 (* e->reverse->selected on nullptr *)
        | Some h' => Done (alter_edge (set_selected true) h' g4)
        end
      else Done g2
  end.

Fixpoint kruskal_loop (fuel : nat) (hs : list (nat * nat)) (g : Graph) : outcome Graph :=
  match hs with
  | [] => Done g
  | h :: hs' => g' ← kruskal_step fuel g h; kruskal_loop fuel hs' g'
  end.

(** The state after the union-find phase (the loop over the sorted edges). *)
Definition kruskal_unionfind (g : Graph) : outcome Graph :=
  let g1 := kruskal_deselect (kruskal_init g) in
  kruskal_loop (S (length g)) (sort_edges g1 (kruskal_edges g1)) g1.

(** [dfsKruskalPath(v)]; the recursion depth is bounded by [fuel].
    [dfs_loop] is its [for (auto e : v->adj)] loop, [rec] standing for the
    recursive call. *)
Fixpoint dfs_loop (rec : nat → Graph → outcome Graph) (v : nat)
    (es : list Edge) (g : Graph) : outcome Graph :=
  match es with
  | [] => Done g
  | e :: es' =>
      match g !! dest e with
      | None => Undefined
      | Some d =>
          if negb (visited d) && selected e then
            g' ← rec (dest e) (alter (set_path (Some v)) (dest e) g);
            dfs_loop rec v es' g'
          else dfs_loop rec v es' g
      end
  end.

Fixpoint dfsKruskalPath (fuel : nat) (v : nat) (g : Graph) : outcome Graph :=
  match fuel with
  | 0 => Timeout
  | S fuel' =>
      let g1 := alter (set_visited true) v g in
      dfs_loop (dfsKruskalPath fuel') v (from_option adj [] (g1 !! v)) g1
  end.

(** The tail of [calculateKruskal], from the reset of [visited] on. *)
Definition kruskal_paths (g : Graph) : outcome Graph :=
  let g1 := set_visited false <$> g in
  match g1 !! 0 with
  | None => OutOfRange                      (* vertexSet.at(0) *)
  | Some _ =>
      dfsKruskalPath (S (length g)) 0 (alter (set_path None) 0 g1)
  end.

Definition calculateKruskal (g : Graph) : outcome Graph :=
  g' ← kruskal_unionfind g; kruskal_paths g'.

(** *** Edge sets and trees read off a graph *)

(** All the directed edges, as (owner, destination, weight). *)
Definition edge_list (g : Graph) : list (nat * nat * Z) :=
  indexed_bind g (λ i v, (λ e, (i, dest e, weight e)) <$> adj v).

(** The edges (parent, vertex, dist) given by the [path] pointers. *)
Definition parent_edge (i : nat) (v : Vertex) : list (nat * nat * Z) :=
  match path v with
  | Some p => [(p, i, dist v)]
  | None => []
  end.
Definition tree_edges (g : Graph) : list (nat * nat * Z) :=
  indexed_bind g parent_edge.
Definition visited_tree (g : Graph) : list (nat * nat * Z) :=
  indexed_bind g (λ i v, if visited v then parent_edge i v else []).

(** Sum of [dist] over the vertices other than the root (position 0). *)
Definition dist_sum (g : Graph) : Z := foldr (λ v s, dist v + s)%Z 0%Z (drop 1 g).

(** Number of vertices with a non-null [path]. *)
Definition num_parents (g : Graph) : nat := length (filter (λ v, is_Some (path v)) g).

(** Sum of the weights of the directed edges whose [selected] flag is set. *)
Definition selected_weight (g : Graph) : Z :=
  total_weight (indexed_bind g (λ i v,
    (λ e, (i, dest e, weight e)) <$> filter (λ e, selected e = true) (adj v))).

(** [v] can be reached from [u] along directed edges. *)
Definition reach (g : Graph) : relation nat :=
  rtc (λ a b, ∃ w, (a, b, w) ∈ edge_list g).

(** Every two vertices are joined by a chain of edges. *)
Definition connected (g : Graph) : Prop :=
  ∀ u v, u < length g → v < length g → conn (edge_list g) u v.

(** Every edge weight is below the sentinel [INF]. *)
Definition light (g : Graph) : Prop :=
  ∀ e, e ∈ edge_list g → (e.2 < INF)%Z.

Definition num_unvisited (g : Graph) : nat :=
  length (filter (λ v, visited v = false) g).

(** *** Loop invariants of [calculatePrim] *)

(** Holds of every graph: the loop writes only [visited], [dist] and
    [path]; the queue holds distinct unvisited vertices with a finite
    [dist]; nothing outside the part reachable from the root is touched. *)
Record prim_basic (g0 : Graph) (st : Graph * MutablePriorityQueue) : Prop := {
  pb_frame : prim_reset st.1 = prim_reset g0;
  pb_nodup : NoDup st.2;
  pb_queue : ∀ x, x ∈ st.2 →
    ∃ v, st.1 !! x = Some v ∧ visited v = false ∧ (dist v < INF)%Z ∧ reach g0 0 x;
  pb_visited : ∀ x v, st.1 !! x = Some v → visited v = true → reach g0 0 x;
  pb_far : ∀ x v, st.1 !! x = Some v → ¬ reach g0 0 x →
    dist v = INF ∧ path v = None;
  pb_bound : ∀ x v, st.1 !! x = Some v → (dist v ≤ INF)%Z
}.

(** Holds on the graphs of [Built]: [c] is the vertex being expanded and
    [pending] the edges of [c] still to be relaxed. *)
Record prim_inv (g0 : Graph) (st : Graph * MutablePriorityQueue)
    (c : nat) (pending : list Edge) : Prop := {
  pi_root : ∃ v, st.1 !! 0 = Some v ∧ visited v = true ∧ path v = None;
  pi_pending : ∀ e, e ∈ pending →
    (c, dest e, weight e) ∈ edge_list g0 ∧
    ∃ v, st.1 !! c = Some v ∧ visited v = true;
  pi_queue : ∀ x v, st.1 !! x = Some v → visited v = false → (dist v < INF)%Z →
    x ∈ st.2;
  pi_bound : ∀ x v, st.1 !! x = Some v → visited v = false → (dist v ≤ INF)%Z;
  pi_parent : ∀ x v p, st.1 !! x = Some v → path v = Some p →
    (∃ vp, st.1 !! p = Some vp ∧ visited vp = true) ∧ (p, x, dist v) ∈ edge_list g0;
  pi_orphan : ∀ x v, st.1 !! x = Some v → path v = None →
    x = 0 ∨ (visited v = false ∧ dist v = INF);
  pi_relaxed : ∀ a b w va vb,
    (a, b, w) ∈ edge_list g0 →
    st.1 !! a = Some va → visited va = true →
    st.1 !! b = Some vb → visited vb = false →
    (dist vb ≤ w)%Z ∨ (a = c ∧ ∃ e, e ∈ pending ∧ dest e = b ∧ weight e = w);
  pi_conn : ∀ x v, st.1 !! x = Some v → visited v = true →
    conn (visited_tree st.1) x 0;
  pi_safe : safe (length g0) (edge_list g0) (visited_tree st.1)
}.

(** *** The disjoint-set forest *)

(** [r] is the representative that the [path] pointers lead to from [x]. *)
Inductive rootof (g : Graph) : nat → nat → Prop :=
| rootof_self x v :
    g !! x = Some v → path v = Some x → rootof g x x
| rootof_step x v p r :
    g !! x = Some v → path v = Some p → p ≠ x → rootof g p r → rootof g x r.

(** The representative as [findSet] computes it. *)
Definition find_root (g : Graph) (x : nat) : nat :=
  match findSet (S (length g)) x g with
  | Done (r, _) => r
  | _ => x
  end.

(** The vertices [x] with [findSet(x) = x], and their number. *)
Definition is_rep (g : Graph) (x : nat) : Prop := find_root g x = x.
Global Instance is_rep_dec g x : Decision (is_rep g x) :=
  decide (find_root g x = x).
Definition num_reps (g : Graph) : nat :=
  length (filter (is_rep g) (seq 0 (length g))).

(** The vertices that are their own [path], and their number. *)
Definition is_root (g : Graph) (x : nat) : Prop := path <$> g !! x = Some (Some x).
Global Instance is_root_dec g x : Decision (is_root g x) :=
  decide (path <$> g !! x = Some (Some x)).
Definition num_roots (g : Graph) : nat :=
  length (filter (is_root g) (seq 0 (length g))).

(** The forest invariant: every [path] is a vertex, ranks grow strictly
    towards the representative, and are bounded. *)
Record uf_inv (g : Graph) : Prop := {
  uf_parent : ∀ x v, g !! x = Some v →
    ∃ p vp, path v = Some p ∧ g !! p = Some vp ∧ (p = x ∨ rank v < rank vp);
  uf_rank : ∀ x v, g !! x = Some v → rank v + num_roots g ≤ length g
}.

(** [g'] is [g] after path compressions: a [path] is either unchanged or
    replaced by the representative; nothing else is written. *)
Definition compressed (g g' : Graph) : Prop :=
  length g' = length g ∧
  ∀ y v, g !! y = Some v →
    ∃ p', g' !! y = Some (set_path (Some p') v) ∧ (path v = Some p' ∨ rootof g y p').

(** The effect of [linkSets] on the representatives [a] and [b]: [a] goes
    under [b], whose rank grows by [δ]. *)
Definition link_roots (a b δ : nat) (g : Graph) : Graph :=
  alter (λ v, set_rank (rank v + δ) v) b (alter (set_path (Some b)) a g).

(** The forest right after [makeSet] on every vertex. *)
Definition uf_init (g : Graph) : Graph := imap (λ i v, makeSet i v) g.

(** States reached from [uf_init] by [findSet] calls and by [k] calls of
    [linkSets] on vertices of distinct sets. *)
Inductive uf_trace (g0 : Graph) : nat → Graph → Prop :=
| uf_trace_init : uf_trace g0 0 (uf_init g0)
| uf_trace_find k g x r g' :
    uf_trace g0 k g → findSet (S (length g)) x g = Done (r, g') →
    uf_trace g0 k g'
| uf_trace_link k g x y g' :
    uf_trace g0 k g → x < length g → y < length g →
    find_root g x ≠ find_root g y →
    linkSets (S (length g)) x y g = Done g' →
    uf_trace g0 (S k) g'.

(** What the algorithms never write: the shape of the edges, and (for the
    union-find phase of Kruskal) the identity tags. *)
Definition estruct (g : Graph) : list (list (nat * nat * Z * option (nat * nat))) :=
  (λ v, edge_shape <$> adj v) <$> g.
Definition skeleton (g : Graph) : list (nat * list (nat * nat * Z * option (nat * nat))) :=
  (λ v, (id v, edge_shape <$> adj v)) <$> g.

(** *** Loop invariant of the union-find phase of [calculateKruskal] *)

(** [gi] is the graph when the loop over the sorted edges is entered, [g]
    the current graph, [F] the edges accepted so far and [todo] the
    handles still to be processed. *)
Record kruskal_inv (gi g : Graph) (F : list (nat * nat * Z))
    (todo : list (nat * nat)) : Prop := {
  ki_forest : uf_inv g;
  ki_skeleton : skeleton g = skeleton gi;
  ki_safe : safe (length gi) (edge_list gi) F;
  ki_edges : ∀ f, f ∈ F → f ∈ edge_list gi;
  ki_joined : ∀ a b w, (a, b, w) ∈ F → ∃ r, rootof g a r ∧ rootof g b r;
  ki_conn : ∀ x r, rootof g x r → conn F x r;
  ki_done : ∀ h, h ∈ kruskal_edges gi → h ∉ todo →
    ∃ e r, edge_at gi h = Some e ∧ rootof g (orig e) r ∧ rootof g (dest e) r;
  ki_weight : selected_weight g = (2 * total_weight F)%Z;
  ki_fresh : ∀ h e, h ∈ todo → edge_at g h = Some e →
    selected e = false ∧
    ∃ h' e', reverse e = Some h' ∧ edge_at g h' = Some e' ∧ selected e' = false;
  ki_count : num_roots g + length F = length gi
}.

(** *** Specification of the depth-first traversal *)

(** What a call of [dfsKruskalPath] at [v] on [g] delivers, [g0] being the
    graph whose edges are traversed and [R] a set of vertices closed under
    its edges: it returns, writes no edge, visits at least [v], and leaves
    the vertices outside [R] as they were. *)
Definition dfs_post (g0 : Graph) (R : nat → Prop) (v : nat) (g : Graph)
    (o : outcome Graph) : Prop :=
  ∃ g', o = Done g' ∧ adj <$> g' = adj <$> g0 ∧
    num_unvisited g' ≤ num_unvisited (alter (set_visited true) v g) ∧
    ∀ x, ¬ R x → g' !! x = g !! x.

(** Structural invariant of the graphs of [Built]: every edge is owned by
    its origin, ends at a vertex of the graph, and is paired with a
    distinct reverse edge of the same weight that points back at it. *)
Definition wf_edge (g : Graph) (u k : nat) (e : Edge) : Prop :=
  orig e = u ∧ dest e < length g ∧
  ∃ k' e', reverse e = Some (dest e, k') ∧ edge_at g (dest e, k') = Some e' ∧
    dest e' = u ∧ weight e' = weight e ∧ reverse e' = Some (u, k) ∧
    (dest e, k') ≠ (u, k).

Definition wf (g : Graph) : Prop :=
  ∀ u k e, edge_at g (u, k) = Some e → wf_edge g u k e.

(** [u → v] with weight [w] is an edge of [g]. *)
Definition has_edge (g : Graph) (u v : nat) (w : Z) : Prop :=
  ∃ k e, edge_at g (u, k) = Some e ∧ dest e = v ∧ weight e = w.

(** *** The construction API as a whole *)

(** Graphs obtained from the empty graph through the three construction
    operations. *)
Inductive Constructed : Graph → Prop :=
| Constructed_empty : Constructed []
| Constructed_vertex g x : Constructed g → Constructed (addVertex x g).2
| Constructed_edge g a b w : Constructed g → Constructed (addEdge a b w g).2
| Constructed_pair g a b w :
    Constructed g → Constructed (addBidirectionalEdge a b w g).2.

(** *** [calculatePrim] on arbitrary graphs *)

(** Reachability along directed edges lighter than [INF]. *)
Definition lreach (g : Graph) : relation nat :=
  rtc (λ a b, ∃ w, (a, b, w) ∈ edge_list g ∧ (w < INF)%Z).

(** Invariant of the loop of [calculatePrim] that needs no assumption on
    the graph: [c] is the vertex being expanded and [pending] the edges of
    [c] still to be relaxed. *)
Record prim_gen (g0 : Graph) (st : Graph * MutablePriorityQueue)
    (c : nat) (pending : list Edge) : Prop := {
  pg_root : ∃ v, st.1 !! 0 = Some v ∧ visited v = true ∧ path v = None ∧ dist v = 0%Z;
  pg_pending : ∀ e, e ∈ pending →
    (c, dest e, weight e) ∈ edge_list g0 ∧
    ∃ v, st.1 !! c = Some v ∧ visited v = true;
  pg_queue : ∀ x v, st.1 !! x = Some v → visited v = false → (dist v < INF)%Z →
    x ∈ st.2;
  pg_light : ∀ x v, st.1 !! x = Some v → (dist v < INF)%Z → lreach g0 0 x;
  pg_visited : ∀ x v, st.1 !! x = Some v → visited v = true → (dist v < INF)%Z;
  pg_parent : ∀ x v p, st.1 !! x = Some v → path v = Some p →
    (dist v < INF)%Z ∧ (∃ vp, st.1 !! p = Some vp ∧ visited vp = true) ∧
    (p, x, dist v) ∈ edge_list g0;
  pg_orphan : ∀ x v, st.1 !! x = Some v → path v = None →
    x = 0 ∨ (visited v = false ∧ dist v = INF);
  pg_relaxed : ∀ a b w va vb,
    (a, b, w) ∈ edge_list g0 →
    st.1 !! a = Some va → visited va = true →
    st.1 !! b = Some vb → visited vb = false →
    (dist vb ≤ w)%Z ∨ (a = c ∧ ∃ e, e ∈ pending ∧ dest e = b ∧ weight e = w)
}.

(** *** The edges selected by [calculateKruskal] and the tree of [path]s *)

(** [a → b] is an edge whose [selected] flag is set. *)
Definition sel_edge (g : Graph) (a b : nat) : Prop :=
  ∃ k e, edge_at g (a, k) = Some e ∧ dest e = b ∧ selected e = true.

(** The selected edges are the accepted edges [F], in both directions. *)
Definition sel_inv (g : Graph) (F : list (nat * nat * Z)) : Prop :=
  (∀ h e, edge_at g h = Some e → selected e = true →
     (h.1, dest e, weight e) ∈ F ∨ (dest e, h.1, weight e) ∈ F) ∧
  (∀ a b w, (a, b, w) ∈ F → sel_edge g a b ∧ sel_edge g b a).

(** From the visited vertex [x] the [path] pointers lead to the vertex 0,
    which has none, through visited vertices and against selected
    edges. *)
Inductive anc (g : Graph) : nat → Prop :=
| anc_root v :
    g !! 0 = Some v → visited v = true → path v = None → anc g 0
| anc_step x v p :
    g !! x = Some v → visited v = true → path v = Some p → x ≠ 0 →
    sel_edge g p x → anc g p → anc g x.

(** The vertices visited in [g] are the same records in [g']. *)
Definition frozen (g g' : Graph) : Prop :=
  ∀ x u, g !! x = Some u → visited u = true → g' !! x = Some u.

(** Every selected edge from [x] ends at a visited vertex. *)
Definition sel_closed (g : Graph) (x : nat) : Prop :=
  ∀ y u, sel_edge g x y → g !! y = Some u → visited u = true.

(** [g'] is [g] up to the [visited] and [path] fields. *)
Definition paths_only (g g' : Graph) : Prop :=
  length g' = length g ∧
  ∀ x u, g !! x = Some u →
    ∃ u', g' !! x = Some u' ∧ u' = set_visited (visited u') (set_path (path u') u).

(** What a call of [dfsKruskalPath] at [v] on [g] delivers when, once [v]
    is marked, every visited vertex has its chain of [path]s to the root:
    visited vertices are left as they are, every visited vertex still has
    its chain, and [v] and the vertices visited by the call have all their
    selected neighbours visited. *)
Definition dfs_tree_post (g0 : Graph) (v : nat) (g : Graph)
    (o : outcome Graph) : Prop :=
  let g1 := alter (set_visited true) v g in
  ∃ g', o = Done g' ∧ adj <$> g' = adj <$> g0 ∧ paths_only g g' ∧
    num_unvisited g' ≤ num_unvisited g1 ∧
    frozen g1 g' ∧
    (∀ x u, g' !! x = Some u → visited u = true → anc g' x) ∧
    (∀ x u u', g' !! x = Some u' → visited u' = true →
       g1 !! x = Some u → visited u = false → sel_closed g' x) ∧
    sel_closed g' v.


End Graph.

Arguments Vertex T : clear implicits.
Abbreviation Graph T := (list (Vertex T)).

(** ** Example graphs *)

(** The scenario of the exercise: vertices 1, 2, 3, 4 with the
    bidirectional edges (1,2,1), (2,3,2), (1,3,4), (3,4,3). *)
Definition ex_graph : Graph nat :=
  let g := (addVertex 4 (addVertex 3 (addVertex 2 (addVertex 1 []).2).2).2).2 in
  (addBidirectionalEdge 3 4 3
     (addBidirectionalEdge 1 3 4
        (addBidirectionalEdge 2 3 2 (addBidirectionalEdge 1 2 1 g).2).2).2).2.

(** Two components: the bidirectional edges (1,2,1) and (3,4,3) only. *)
Definition ex_split : Graph nat :=
  let g := (addVertex 4 (addVertex 3 (addVertex 2 (addVertex 1 []).2).2).2).2 in
  (addBidirectionalEdge 3 4 3 (addBidirectionalEdge 1 2 1 g).2).2.

(** Two vertices joined by an edge of weight [INF]. *)
Definition ex_heavy : Graph nat :=
  (addBidirectionalEdge 1 2 INF (addVertex 2 (addVertex 1 []).2).2).2.

(** Three vertices in a row: an edge of weight [INF], then one of weight 1. *)
Definition ex_heavy_path : Graph nat :=
  (addBidirectionalEdge 2 3 1
     (addBidirectionalEdge 1 2 INF
        (addVertex 3 (addVertex 2 (addVertex 1 []).2).2).2).2).2.

(** Two vertices and one directed edge, added with [addEdge]. *)
Definition ex_directed : Graph nat :=
  (addEdge 1 2 5 (addVertex 2 (addVertex 1 []).2).2).2.

(** Three singleton sets, and the forest after [linkSets] on the first two. *)
Definition ex_sets : Graph nat :=
  (addVertex 3 (addVertex 2 (addVertex 1 []).2).2).2.
Definition ex_sets_linked : Graph nat :=
  match linkSets 4 0 1 (uf_init ex_sets) with
  | Done g => g
  | _ => []
  end.

(** ** TP4/ex1.cpp: the factorial *)

(** [unsigned long] arithmetic wraps modulo 2^64 (LP64). *)
Definition ULONG_BITS : Z := 64.
Definition wrap (z : Z) : Z := (z mod 2 ^ ULONG_BITS)%Z.

Fixpoint factorialRecurs (n : nat) : Z :=
  match n with
  | 0 => 1
  | S m => if decide (n = 1) then 1 else wrap (Z.of_nat n * factorialRecurs m)
  end.

(** [unsigned long dp[100000]], set to zero on every call. *)
Definition DP_SIZE : nat := Z.to_nat 100000.

Fixpoint factorialDP (n : nat) : outcome Z :=
  let dp := replicate DP_SIZE 0%Z in
  match n with
  | 0 => Done 1%Z
  | S m =>
      if decide (n = 1) then Done 1%Z
      else
        match dp !! n with
        | None => Undefined                 (* dp[n] out of bounds *)
        | Some x =>
            if decide (x ≠ 0%Z) then Done x
            else r ← factorialDP m; Done (wrap (Z.of_nat n * r))
        end
  end.

(** The factorial computed in [Z], for the bounds. *)
Fixpoint zfact (n : nat) : Z :=
  match n with
  | 0 => 1
  | S m => Z.of_nat n * zfact m
  end.

(** ** The three-summand exercise (src/unnamed/part_000): [sum3] *)

(** [unsigned int] is taken as 32 bits wide and [int] as ranging over
    [-2^31 .. 2^31 - 1]. *)
Definition UINT_BITS : Z := 32.
Definition INT_MIN : Z := - 2 ^ 31.
Definition INT_MAX : Z := 2 ^ 31 - 1.

(** Conversion to [unsigned int], and the wrap-around of its arithmetic. *)
Definition uwrap (z : Z) : Z := (z mod 2 ^ UINT_BITS)%Z.

(** Addition on [int]: overflow is undefined behaviour. *)
Definition int_add (a b : Z) : outcome Z :=
  if decide (INT_MIN ≤ a + b ∧ a + b ≤ INT_MAX)%Z then Done (a + b)%Z else Undefined.

(** [nums[k] = x] on the caller's array. *)
Definition store (k : nat) (x : Z) (nums : list Z) : outcome (list Z) :=
  if decide (k < length nums) then Done (<[k := x]> nums) else Undefined.

(** The loop [for (int j = ...; j < T; ++j)] within the iteration [i], from
    [j] on: [Some nums'] when the body returns [true] having written
    [nums'], [None] when the loop runs out.  At most [fuel] iterations. *)
Fixpoint sum3_inner (fuel : nat) (T i j : Z) (nums : list Z)
  : outcome (option (list Z)) :=
  match fuel with
  | 0 => Timeout
  | S fuel' =>
      if decide (uwrap j < T)%Z then
        let k := uwrap (uwrap (T - uwrap i) - uwrap j) in
        hit ← (if decide (k ≠ 0%Z) then
                 s ← int_add i j; Done (bool_decide (uwrap (uwrap s + k) = T))
               else Done false);
        if hit : bool then
          n0 ← store 0 (uwrap i) nums;
          n1 ← store 1 (uwrap j) n0;
          n2 ← store 2 k n1;
          Done (Some n2)
        else
          j' ← int_add j 1; sum3_inner fuel' T i j' nums
      else Done None
  end.

(** The loop [for (int i = ...; i < T; ++i)] from [i] on, at most [fuel]
    iterations, each inner loop running at most [inner] iterations. *)
Fixpoint sum3_outer (inner fuel : nat) (T i : Z) (nums : list Z)
  : outcome (bool * list Z) :=
  match fuel with
  | 0 => Timeout
  | S fuel' =>
      if decide (uwrap i < T)%Z then
        r ← sum3_inner inner T i 1 nums;
        match r with
        | Some nums' => Done (true, nums')
        | None => i' ← int_add i 1; sum3_outer inner fuel' T i' nums
        end
      else Done (false, nums)
  end.

(** [sum3(T, nums)]: the result and the contents of [nums] afterwards. *)
Definition sum3 (fuel : nat) (T : Z) (nums : list Z) : outcome (bool * list Z) :=
  sum3_outer fuel fuel T 1 nums.

(** ** Proof automation for the example graphs *)

Ltac solve_mem := apply list_elem_of_In; vm_compute; tauto.

Ltac solve_built :=
  cbv delta [ex_graph ex_split ex_heavy ex_heavy_path ex_sets]; cbv zeta;
  repeat first [apply Built_edge | apply Built_vertex]; apply Built_empty.

Ltac solve_constructed :=
  cbv delta [ex_graph ex_split ex_heavy ex_heavy_path ex_sets ex_directed]; cbv zeta;
  repeat first [apply Constructed_pair | apply Constructed_edge | apply Constructed_vertex];
  apply Constructed_empty.

Ltac solve_light :=
  let e := fresh "e" in let He := fresh "He" in
  intros e He; apply list_elem_of_In in He; vm_compute in He;
  repeat (destruct He as [<-|He]; [by vm_compute|]); destruct He.
(** ** Construction API: basic facts *)

Section Construction.
Context {T : Type} `{EqDecision T}.
Implicit Types (g : Graph T).

Lemma findVertex_Some g x i :
  findVertex g x = Some i ↔
  ∃ v, g !! i = Some v ∧ info v = x ∧ ∀ j u, g !! j = Some u → j < i → info u ≠ x.
Proof.
  unfold findVertex. split.
  - intros Hf. destruct (list_find _ g) as [[j v]|] eqn:E; simplify_eq/=.
    apply list_find_Some in E. naive_solver.
  - intros (v & Hv & Hx & Hmin).
    assert (list_find (λ v, info v = x) g = Some (i, v)) as ->; [|done].
    apply list_find_Some. naive_solver.
Qed.

Lemma findVertex_None g x :
  findVertex g x = None ↔ ∀ v, v ∈ g → info v ≠ x.
Proof.
  unfold findVertex. destruct (list_find _ g) as [[j v]|] eqn:E; simpl.
  - apply list_find_Some in E as (Hj & Hx & _). split; [done|].
    intros Hall. exfalso. eapply Hall; [|exact Hx]. eapply list_elem_of_lookup_2, Hj.
  - split; [|done]. intros _. apply list_find_None in E.
    intros v Hv. by eapply Forall_forall in E.
Qed.

Lemma findVertex_lt g x i : findVertex g x = Some i → i < length g.
Proof. intros (v & Hv & _)%findVertex_Some. by eapply lookup_lt_Some. Qed.

Lemma addBidirectionalEdge_eq g a b w v1 v2 :
  findVertex g a = Some v1 → findVertex g b = Some v2 →
  addBidirectionalEdge a b w g = (true, link_pair v1 v2 w g).
Proof.
  intros H1 H2. unfold addBidirectionalEdge. rewrite H1, H2.
  apply findVertex_lt in H1, H2.
  destruct (lookup_lt_is_Some_2 g v1 H1) as [x1 Hx1].
  destruct (lookup_lt_is_Some_2 g v2 H2) as [x2 Hx2].
  unfold Vertex_addEdge, link_pair, alter_edge. cbn [fst snd]. f_equal.
  apply list_eq; intros i.
  repeat (rewrite ?list_lookup_alter, ?Hx1, ?Hx2; repeat case_decide; simplify_eq/=);
    try done; f_equal; unfold set_adj; simpl; f_equal.
  all: repeat (rewrite ?alter_app_r_alt, ?length_app, ?Nat.sub_diag, ?Nat.add_sub' by (simpl; lia); simpl).
  all: rewrite <- ?(assoc_L (++)); simpl.
  all: try done.
  rewrite (alter_app_r_alt _ (adj x1)) by lia.
  rewrite (alter_app_r_alt _ (adj x1)) by lia.
  rewrite Nat.sub_diag.
  replace (length (adj x1) + 1 - length (adj x1)) with 1 by lia.
  simpl. by rewrite Nat.add_1_r.
Qed.

Lemma link_pair_lookup g v1 v2 w u x1 x2 :
  g !! v1 = Some x1 → g !! v2 = Some x2 →
  let k1 := length (adj x1) in
  let k2 := length (adj x2) + (if decide (v1 = v2) then 1 else 0) in
  link_pair v1 v2 w g !! u =
    (λ v, set_adj (adj v
                   ++ (if decide (u = v1) then [mkEdge v1 v2 w false (Some (v2, k2))] else [])
                   ++ (if decide (u = v2) then [mkEdge v2 v1 w false (Some (v1, k1))] else [])) v)
    <$> g !! u.
Proof.
  intros Hx1 Hx2. unfold link_pair. rewrite Hx1, Hx2. simpl.
  rewrite !list_lookup_alter. destruct (g !! u) as [x|] eqn:Hu; simpl.
  - repeat case_decide; simplify_eq/=; rewrite ?Hu, ?Hx1, ?Hx2; simpl;
      unfold set_adj; simpl; rewrite <- ?(assoc_L (++)), ?app_nil_r, ?Nat.add_1_r, ?Nat.add_0_r;
      try done.
    by destruct x.
  - repeat case_decide; simplify_eq/=; by rewrite ?Hu.
Qed.

Lemma edge_at_app g g' h e : edge_at g h = Some e → edge_at (g ++ g') h = Some e.
Proof.
  unfold edge_at. destruct (g !! h.1) as [v|] eqn:Hv; [|done]. simpl.
  by rewrite (lookup_app_l_Some _ _ _ _ Hv).
Qed.

Lemma edge_at_lt g u k e : edge_at g (u, k) = Some e → u < length g.
Proof.
  unfold edge_at; simpl. destruct (g !! u) eqn:Hu; [|done].
  intros _. by eapply lookup_lt_Some.
Qed.

Lemma wf_addVertex g x : wf g → wf (addVertex x g).2.
Proof.
  intros Hwf. unfold addVertex. destruct (findVertex g x); [done|]. simpl.
  intros u k e He.
  assert (edge_at g (u, k) = Some e) as He'.
  { unfold edge_at in *; simpl in *.
    destruct (decide (u < length g)) as [Hlt|Hge].
    - by rewrite lookup_app_l in He.
    - rewrite lookup_app_r in He by lia.
      destruct (u - length g) as [|[|n]]; simpl in He; try done; by destruct k. }
  destruct (Hwf u k e He') as (Ho & Hd & k' & e' & Hr & He2 & ?).
  split; [done|]. split; [rewrite length_app; lia|].
  exists k', e'. split; [done|]. split; [by apply edge_at_app|done].
Qed.

Lemma edge_at_link_pair g v1 v2 w :
  v1 < length g → v2 < length g →
  ∃ k1 k2, (v1, k1) ≠ (v2, k2) ∧
    edge_at g (v1, k1) = None ∧ edge_at g (v2, k2) = None ∧
    ∀ h e, edge_at (link_pair v1 v2 w g) h = Some e ↔
      edge_at g h = Some e ∨
      (h = (v1, k1) ∧ e = mkEdge v1 v2 w false (Some (v2, k2))) ∨
      (h = (v2, k2) ∧ e = mkEdge v2 v1 w false (Some (v1, k1))).
Proof.
  intros H1 H2.
  destruct (lookup_lt_is_Some_2 g v1 H1) as [x1 Hx1].
  destruct (lookup_lt_is_Some_2 g v2 H2) as [x2 Hx2].
  exists (length (adj x1)), (length (adj x2) + (if decide (v1 = v2) then 1 else 0)).
  split; [|split; [|split]].
  - case_decide; simplify_eq; [intros [=]; lia|congruence].
  - unfold edge_at; simpl. rewrite Hx1; simpl. by apply lookup_ge_None_2.
  - unfold edge_at; simpl. rewrite Hx2; simpl. apply lookup_ge_None_2. lia.
  - intros [u k] e. unfold edge_at. simpl.
    rewrite (link_pair_lookup g v1 v2 w u x1 x2 Hx1 Hx2).
    destruct (g !! u) as [x|] eqn:Hu; simpl.
    2:{ split; [done|]. intros [?|[[? _]|[? _]]]; simplify_eq. }
    assert (∀ (l L : list Edge), (l ++ L) !! k = Some e ↔
              l !! k = Some e ∨ (length l ≤ k ∧ L !! (k - length l) = Some e)) as Happ.
    { intros. apply lookup_app_Some. }
    rewrite Happ. clear Happ.
    split.
    + intros [?|[Hle HL]]; [by left|]. right.
      repeat case_decide; simplify_eq/=;
        destruct (k - _) as [|[|?]] eqn:Hk; simplify_eq/=;
        first [ left; split; [f_equal; lia|done] | right; split; [f_equal; lia|done] ].
    + intros [?|[[? ?]|[? ?]]]; simplify_eq/=; [by left|..]; right;
        (split; [repeat case_decide; lia|]);
        repeat case_decide; simplify_eq/=;
        rewrite ?Nat.sub_diag, ?Nat.add_sub', ?Nat.add_0_r, ?Nat.sub_diag; done.
Qed.

Lemma length_link_pair g v1 v2 w : length (link_pair v1 v2 w g) = length g.
Proof. unfold link_pair. by rewrite !length_alter. Qed.

Lemma wf_link_pair g v1 v2 w :
  v1 < length g → v2 < length g → wf g → wf (link_pair v1 v2 w g).
Proof.
  intros H1 H2 Hwf.
  destruct (edge_at_link_pair g v1 v2 w H1 H2) as (k1 & k2 & Hne & Hn1 & Hn2 & Hiff).
  intros u k e He. apply Hiff in He.
  unfold wf_edge. rewrite length_link_pair.
  destruct He as [He|[[? ?]|[? ?]]]; simplify_eq/=.
  - destruct (Hwf u k e He) as (Ho & Hd & k' & e' & Hr & He2 & ?).
    split; [done|]. split; [done|]. exists k', e'. split; [done|].
    split; [|done]. apply Hiff. by left.
  - split; [done|]. split; [done|]. eexists k2, _. split; [done|].
    split; [apply Hiff; right; right; done|]. simpl. done.
  - split; [done|]. split; [done|]. eexists k1, _. split; [done|].
    split; [apply Hiff; right; left; done|]. simpl. done.
Qed.

Lemma Built_wf g : Built g → wf g.
Proof.
  induction 1 as [|g x _ IH|g a b w _ IH].
  - intros u k e He. unfold edge_at in He. by rewrite lookup_nil in He.
  - by apply wf_addVertex.
  - destruct (findVertex g a) as [v1|] eqn:E1; [destruct (findVertex g b) as [v2|] eqn:E2|].
    + rewrite (addBidirectionalEdge_eq g a b w v1 v2 E1 E2). simpl.
      apply wf_link_pair; eauto using findVertex_lt.
    + unfold addBidirectionalEdge. by rewrite E1, E2.
    + unfold addBidirectionalEdge. by rewrite E1.
Qed.

(** C7. [addVertex c] returns [false] exactly when a vertex with content
    [c] is already present (the graph is then unchanged); otherwise it
    appends a fresh vertex with empty adjacency at the end of the vertex
    collection and returns [true]; [getNumVertex] grows by one exactly on
    the calls that return [true]. *)
Theorem addVertex_spec g c :
  ((addVertex c g).1 = false ↔ ∃ v, v ∈ g ∧ info v = c) ∧
  ((addVertex c g).1 = false → (addVertex c g).2 = g) ∧
  ((addVertex c g).1 = true →
     (addVertex c g).2 = g ++ [newVertex c] ∧
     info (newVertex c) = c ∧ adj (newVertex c) = []) ∧
  getNumVertex (addVertex c g).2 =
    getNumVertex g + (if (addVertex c g).1 then 1 else 0).
Proof.
  unfold addVertex, getNumVertex.
  destruct (findVertex g c) as [i|] eqn:E; simpl.
  - apply findVertex_Some in E as (v & Hv & Hc & _).
    split; [|split; [done|split; [done|lia]]].
    split; [|done]. intros _. exists v. split; [|done].
    by eapply list_elem_of_lookup_2.
  - split; [|split; [done|split; [done|]]].
    + split; [done|]. intros (v & Hv & Hc). exfalso.
      by eapply (proj1 (findVertex_None g c) E v).
    + rewrite length_app. simpl. lia.
Qed.

(** C6. [addBidirectionalEdge a b w] returns [false] exactly when no vertex
    has content [a] or no vertex has content [b] (the graph is then
    unchanged); after a successful call the graph holds a directed edge
    from the vertex of [a] to the vertex of [b] and one back, both of
    weight [w], each with the other as its [reverse]. *)
Theorem addBidirectionalEdge_spec g a b w :
  ((addBidirectionalEdge a b w g).1 = false ↔
     (∀ v, v ∈ g → info v ≠ a) ∨ (∀ v, v ∈ g → info v ≠ b)) ∧
  ((addBidirectionalEdge a b w g).1 = false → (addBidirectionalEdge a b w g).2 = g) ∧
  ((addBidirectionalEdge a b w g).1 = true →
     ∃ i j k1 k2 e1 e2,
       let g' := (addBidirectionalEdge a b w g).2 in
       findVertex g' a = Some i ∧ findVertex g' b = Some j ∧
       edge_at g' (i, k1) = Some e1 ∧ edge_at g' (j, k2) = Some e2 ∧
       (i, k1) ≠ (j, k2) ∧
       orig e1 = i ∧ dest e1 = j ∧ weight e1 = w ∧ reverse e1 = Some (j, k2) ∧
       orig e2 = j ∧ dest e2 = i ∧ weight e2 = w ∧ reverse e2 = Some (i, k1)).
Proof.
  destruct (findVertex g a) as [v1|] eqn:E1; [destruct (findVertex g b) as [v2|] eqn:E2|].
  - rewrite (addBidirectionalEdge_eq g a b w v1 v2 E1 E2). simpl.
    split; [|split; [done|]].
    { split; [done|]. intros [Hn|Hn]; apply findVertex_None in Hn; congruence. }
    intros _.
    pose proof (findVertex_lt _ _ _ E1) as H1. pose proof (findVertex_lt _ _ _ E2) as H2.
    destruct (edge_at_link_pair g v1 v2 w H1 H2) as (k1 & k2 & Hne & _ & _ & Hiff).
    destruct (lookup_lt_is_Some_2 g v1 H1) as [x1 Hx1].
    destruct (lookup_lt_is_Some_2 g v2 H2) as [x2 Hx2].
    assert (∀ c i, findVertex g c = Some i → findVertex (link_pair v1 v2 w g) c = Some i) as Hfind.
    { intros c i (v & Hv & Hc & Hmin)%findVertex_Some. apply findVertex_Some.
      setoid_rewrite (link_pair_lookup g v1 v2 w _ x1 x2 Hx1 Hx2).
      rewrite Hv. simpl. eexists. split; [done|]. split; [done|].
      intros j u Hj Hlt. destruct (g !! j) as [y|] eqn:Hy; simplify_eq/=.
      by eapply Hmin. }
    exists v1, v2, k1, k2. eexists _, _. cbv zeta.
    split; [by apply Hfind|]. split; [by apply Hfind|].
    split; [apply Hiff; right; left; done|].
    split; [apply Hiff; right; right; done|]. done.
  - unfold addBidirectionalEdge. rewrite E1, E2. simpl.
    split; [|done]. split; [|done]. intros _. right. by apply findVertex_None.
  - unfold addBidirectionalEdge. rewrite E1. simpl.
    split; [|done]. split; [|done]. intros _. left. by apply findVertex_None.
Qed.

End Construction.



(** ** Spanning trees: the exchange argument *)

Section Spanning.
Implicit Types (E F R T : list (nat * nat * Z)) (S : nat → bool).

Lemma adjacent_sym E u v : adjacent E u v → adjacent E v u.
Proof. intros [w [?|?]]; exists w; auto. Qed.

Lemma adjacent_mono E E' u v :
  (∀ e, e ∈ E → e ∈ E') → adjacent E u v → adjacent E' u v.
Proof. intros Hsub [w [?|?]]; exists w; auto. Qed.

Lemma conn_sym E u v : conn E u v → conn E v u.
Proof.
  induction 1 as [|x y z Hxy _ IH]; [apply rtc_refl|].
  eapply rtc_r; [exact IH|]. by apply adjacent_sym.
Qed.

Lemma conn_trans E u v x : conn E u v → conn E v x → conn E u x.
Proof. intros. by etrans. Qed.

Lemma conn_mono E E' u v : (∀ e, e ∈ E → e ∈ E') → conn E u v → conn E' u v.
Proof.
  intros Hsub. induction 1 as [|x y z Hxy _ IH]; [apply rtc_refl|].
  eapply rtc_l; [|exact IH]. by eapply adjacent_mono.
Qed.

Lemma conn_edge E u v w : (u, v, w) ∈ E → conn E u v.
Proof. intros. apply rtc_once. exists w. by left. Qed.

Lemma total_weight_app E1 E2 :
  total_weight (E1 ++ E2) = (total_weight E1 + total_weight E2)%Z.
Proof. induction E1 as [|e E1 IH]; simpl; [done|]. rewrite IH. lia. Qed.

Lemma total_weight_perm E1 E2 : E1 ≡ₚ E2 → total_weight E1 = total_weight E2.
Proof. induction 1; simpl; lia. Qed.

Lemma chain_conn E u l : chain E u l → ∀ v, last (u :: l) = Some v → conn E u v.
Proof.
  induction 1 as [u|u x l Hux _ IH]; intros v Hv.
  - simpl in Hv. simplify_eq. apply rtc_refl.
  - rewrite last_cons_cons in Hv. eapply rtc_l; [exact Hux|]. by apply IH.
Qed.

Lemma chain_suffix E u l1 x l2 : chain E u (l1 ++ x :: l2) → chain E x l2.
Proof.
  revert u. induction l1 as [|y l1 IH]; intros u Hc; inversion Hc; simplify_eq; eauto.
Qed.

(** Two joined vertices are joined by a chain without repeated vertices. *)
Lemma conn_simple_chain E u v :
  conn E u v → ∃ l, chain E u l ∧ last (u :: l) = Some v ∧ NoDup (u :: l).
Proof.
  induction 1 as [u|u x v Hux _ (l & Hc & Hl & Hnd)].
  - exists []. split; [constructor|]. split; [done|]. apply NoDup_singleton.
  - destruct (decide (u ∈ x :: l)) as [Hin|Hnin].
    + apply list_elem_of_split in Hin as (l1 & l2 & Heq).
      exists l2. rewrite Heq, last_app_cons in Hl. split; [|split; [done|]].
      * destruct l1 as [|y l1]; simplify_eq/=; [done|]. by eapply chain_suffix.
      * rewrite Heq in Hnd. by apply NoDup_app in Hnd as (_ & _ & ?).
    + exists (x :: l). split; [by constructor|]. split; [by rewrite last_cons_cons|].
      by apply NoDup_cons.
Qed.

Lemma chain_avoid T T' e' a l u :
  chain T a l → u ∉ a :: l → T ≡ₚ e' :: T' → e'.1.1 = u ∨ e'.1.2 = u → chain T' a l.
Proof.
  intros Hc Hu HT He'. induction Hc as [a|a p l Hap _ IH]; [constructor|].
  apply not_elem_of_cons in Hu as [Hua Hu].
  constructor; [|by apply IH].
  pose proof Hu as Hu'. apply not_elem_of_cons in Hu' as [Hup _].
  destruct Hap as [w Hw]. exists w.
  rewrite !HT, !elem_of_cons in Hw. destruct e' as [[x y] w'].
  simpl in He'. destruct Hw as [[?|?]|[?|?]]; simplify_eq; auto; by destruct He'.
Qed.

(** A simple chain that leaves the cut [S] uses an edge across the cut
    whose removal keeps both of its sides joined to the ends of the chain. *)
Lemma cross_split T S a l b :
  chain T a l → NoDup (a :: l) → last (a :: l) = Some b →
  S a = true → S b = false →
  ∃ e' T' x y, T ≡ₚ e' :: T' ∧ (e'.1 = (x, y) ∨ e'.1 = (y, x)) ∧
    S x = true ∧ S y = false ∧ conn T' a x ∧ conn T' y b.
Proof.
  intros Hc. revert b. induction Hc as [a|a p l Hap Hc IH]; intros b Hnd Hl Ha Hb.
  { simpl in Hl. congruence. }
  rewrite last_cons_cons in Hl. apply NoDup_cons in Hnd as [Hnin Hnd].
  destruct (decide (S p = true)) as [Hp|Hp%not_true_is_false].
  - destruct (IH b Hnd Hl Hp Hb) as (e' & T' & x & y & HT & He' & Hx & Hy & Hpx & Hyb).
    exists e', T', x, y. do 4 (split; [done|]). split; [|done].
    eapply rtc_l; [|exact Hpx].
    destruct Hap as [w Hw]. exists w.
    rewrite !HT, !elem_of_cons in Hw. destruct e' as [[x' y'] w'].
    simpl in He'. destruct Hw as [[?|?]|[?|?]]; simplify_eq; auto;
      destruct He'; simplify_eq; congruence.
  - destruct Hap as [w Hw].
    assert (∃ e', e' ∈ T ∧ (e'.1 = (a, p) ∨ e'.1 = (p, a))) as (e' & Hin & He').
    { destruct Hw; eexists; split; eauto. }
    apply elem_of_Permutation in Hin as [T' HT].
    exists e', T', a, p. do 4 (split; [done|]). split; [apply rtc_refl|].
    eapply chain_conn; [|exact Hl].
    eapply chain_avoid; [exact Hc|exact Hnin|exact HT|].
    destruct He' as [-> | ->]; auto.
Qed.

Lemma spanning_tree_perm n E T T' :
  T ≡ₚ T' → spanning_tree n E T → spanning_tree n E T'.
Proof.
  intros HP (Hsub & Hlen & Hconn). split; [|split].
  - intros e. rewrite <- HP. apply Hsub.
  - by rewrite <- HP.
  - intros u v Hu Hv. eapply conn_mono; [|by apply Hconn].
    intros e. by rewrite HP.
Qed.

Lemma safe_nil n E : safe n E [].
Proof. intros T HT. exists T. split; [done|]. simpl. lia. Qed.

(** The safe-edge step: a lightest edge across a cut that no edge of [F]
    crosses can be added to [F]. *)
Lemma safe_step n E F S e :
  safe n E F →
  (∀ f, f ∈ F → ¬ crosses S f) →
  e ∈ E → e.1.1 < n → e.1.2 < n → crosses S e →
  (∀ t, t ∈ E → crosses S t → (e.2 ≤ t.2)%Z) →
  safe n E (F ++ [e]).
Proof.
  intros Hsafe HF HeE H1 H2 Hcr Hmin T HT.
  destruct (Hsafe T HT) as (R & (Hsub & Hlen & Hconn) & Hw).
  destruct e as [[a0 b0] w]. unfold crosses in Hcr. simpl in *.
  assert (∃ a b, ((a, b) = (a0, b0) ∨ (a, b) = (b0, a0)) ∧ a < n ∧ b < n ∧
                 S a = true ∧ S b = false) as (a & b & Hab & Ha & Hb & HSa & HSb).
  { destruct (S a0) eqn:?, (S b0) eqn:?; try done.
    - exists a0, b0. auto.
    - exists b0, a0. auto. }
  destruct (conn_simple_chain _ _ _ (Hconn a b Ha Hb)) as (l & Hc & Hl & Hnd).
  destruct (cross_split _ S _ _ _ Hc Hnd Hl HSa HSb)
    as (e' & T' & x & y & HT' & He' & Hx & Hy & Hax & Hyb).
  assert (e' ∈ F ++ R) as Hin by (rewrite HT'; left).
  assert (crosses S e') as Hcr'.
  { unfold crosses. destruct He' as [-> | ->]; simpl; congruence. }
  apply elem_of_app in Hin as [Hin|Hin]; [by destruct (HF e' Hin)|].
  apply elem_of_Permutation in Hin as [R' HR].
  assert (T' ≡ₚ F ++ R') as HT''.
  { apply (Permutation_cons_inv (a:=e')). rewrite <- HT', HR.
    by rewrite Permutation_middle. }
  exists R'. split; [split; [|split]|].
  - intros t. rewrite <- (assoc_L (++)), !elem_of_app, list_elem_of_singleton.
    intros [?|[->|?]]; [apply Hsub; set_solver|done|apply Hsub; rewrite HR; set_solver].
  - rewrite <- Hlen, HR. rewrite !length_app. simpl. lia.
  - assert (∀ u v, conn T' u v → conn ((F ++ [(a0, b0, w)]) ++ R') u v) as Hup.
    { intros u v. apply conn_mono. intros t. rewrite HT''. set_solver. }
    assert (conn ((F ++ [(a0, b0, w)]) ++ R') a b) as Hnew.
    { apply rtc_once. exists w. destruct Hab; simplify_eq; set_solver. }
    assert (conn ((F ++ [(a0, b0, w)]) ++ R') x y) as Hxy.
    { eapply conn_trans; [apply conn_sym, Hup, Hax|].
      eapply conn_trans; [exact Hnew|]. apply conn_sym, Hup, Hyb. }
    intros u v Hu Hv. specialize (Hconn u v Hu Hv). clear Hu Hv Hc.
    induction Hconn as [|u1 u2 u3 Hadj _ IH]; [apply rtc_refl|].
    eapply conn_trans; [|exact IH].
    destruct Hadj as [w' Hw'].
    rewrite !HT', !elem_of_cons in Hw'. destruct e' as [[x' y'] w''].
    simpl in He'.
    destruct Hw' as [[?|?]|[?|?]]; simplify_eq.
    + destruct He'; simplify_eq; [done|by apply conn_sym].
    + apply Hup. by eapply conn_edge.
    + destruct He'; simplify_eq; [by apply conn_sym|done].
    + apply Hup, conn_sym. by eapply conn_edge.
  - assert (w ≤ e'.2)%Z as Hle.
    { apply (Hmin e'); [apply Hsub; rewrite HR; set_solver|done]. }
    rewrite (total_weight_perm _ _ HT') in Hw. simpl in Hw.
    rewrite (total_weight_perm _ _ HT'') in Hw.
    rewrite !total_weight_app in *. simpl. lia.
Qed.

(** A safe set that is itself a spanning tree is a minimum spanning tree. *)
Lemma safe_spanning_minimum n E F :
  safe n E F → spanning_tree n E F → minimum_spanning_tree n E F.
Proof.
  intros Hsafe HF. split; [done|]. intros T HT.
  destruct (Hsafe T HT) as (R & (_ & Hlen & _) & Hw).
  destruct HF as (_ & HlenF & _).
  rewrite length_app in Hlen. destruct R; [|simpl in Hlen; lia].
  by rewrite app_nil_r in Hw.
Qed.

Lemma safe_perm n E F F' : F ≡ₚ F' → safe n E F → safe n E F'.
Proof.
  intros HP Hsafe T HT. destruct (Hsafe T HT) as (R & Hsp & Hw).
  exists R. split.
  - eapply spanning_tree_perm; [|exact Hsp]. by rewrite HP.
  - by rewrite <- (total_weight_perm (F ++ R) (F' ++ R)) by (by rewrite HP).
Qed.

End Spanning.

(** ** Reading edge sets off a graph *)

Section Indexed.
Context {T : Type} `{EqDecision T}.
Implicit Types (g : Graph T).

Lemma elem_of_indexed_bind {A} g (h : nat → Vertex T → list A) x :
  x ∈ indexed_bind g h ↔ ∃ i v, g !! i = Some v ∧ x ∈ h i v.
Proof.
  unfold indexed_bind. rewrite list_elem_of_join. split.
  - intros (l & Hx & Hl). apply list_elem_of_fmap in Hl as (i & -> & Hi).
    destruct (g !! i) as [v|] eqn:Hv; simpl in Hx; [eauto|]. by apply elem_of_nil in Hx.
  - intros (i & v & Hv & Hx). exists (h i v). split; [done|].
    apply list_elem_of_fmap. exists i. rewrite Hv. split; [done|].
    apply elem_of_seq. apply lookup_lt_Some in Hv. lia.
Qed.

Lemma indexed_bind_ext {A} g g' (h h' : nat → Vertex T → list A) :
  length g = length g' →
  (∀ i v, g !! i = Some v → ∃ v', g' !! i = Some v' ∧ h i v = h' i v') →
  indexed_bind g h = indexed_bind g' h'.
Proof.
  intros Hlen Hext. unfold indexed_bind. rewrite <- Hlen. f_equal.
  apply list_fmap_ext. intros k i Hi.
  apply lookup_seq in Hi as [-> Hk]. simpl.
  destruct (lookup_lt_is_Some_2 g k Hk) as [v Hv]. rewrite Hv.
  destruct (Hext k v Hv) as (v' & -> & Heq). done.
Qed.

(** Concatenations over a duplicate-free index list that differ at one index. *)
Lemma join_update {A} (l : list nat) (f f' : nat → list A) c e :
  NoDup l → c ∈ l → (∀ i, i ≠ c → f' i = f i) → f' c ≡ₚ f c ++ [e] →
  mjoin (f' <$> l) ≡ₚ mjoin (f <$> l) ++ [e].
Proof.
  intros Hnd Hc Hne Heq. induction l as [|i l IH]; [by apply elem_of_nil in Hc|].
  apply NoDup_cons in Hnd as [Hi Hnd]. rewrite !fmap_cons.
  change (mjoin (f' i :: (f' <$> l)) ≡ₚ mjoin (f i :: (f <$> l)) ++ [e])
    with (f' i ++ mjoin (f' <$> l) ≡ₚ (f i ++ mjoin (f <$> l)) ++ [e]).
  destruct (decide (i = c)) as [->|Hic].
  - rewrite Heq.
    assert (f' <$> l = f <$> l) as ->.
    { apply list_fmap_ext. intros k j Hj. apply Hne. intros ->.
      apply Hi. by eapply list_elem_of_lookup_2. }
    rewrite <- !(assoc_L (++)). f_equiv. apply Permutation_app_comm.
  - rewrite (Hne i Hic). apply elem_of_cons in Hc as [?|Hc]; [done|].
    rewrite (IH Hnd Hc). by rewrite (assoc_L (++)).
Qed.

Lemma indexed_bind_grow {A} g g' (h : nat → Vertex T → list A) c e :
  length g = length g' →
  (∀ i v, i ≠ c → g !! i = Some v → ∃ v', g' !! i = Some v' ∧ h i v' = h i v) →
  (∃ v v', g !! c = Some v ∧ g' !! c = Some v' ∧ h c v' ≡ₚ h c v ++ [e]) →
  indexed_bind g' h ≡ₚ indexed_bind g h ++ [e].
Proof.
  intros Hlen Hne (v & v' & Hv & Hv' & Heq). unfold indexed_bind. rewrite <- Hlen.
  apply join_update with (c := c).
  - apply NoDup_seq.
  - apply elem_of_seq. apply lookup_lt_Some in Hv. lia.
  - intros i Hi. destruct (g !! i) as [x|] eqn:Hx.
    + destruct (Hne i x Hi Hx) as (x' & -> & ?). done.
    + apply lookup_ge_None in Hx. rewrite Hlen in Hx.
      apply lookup_ge_None in Hx. by rewrite Hx.
  - by rewrite Hv, Hv'.
Qed.

Lemma elem_of_edge_list g a b w :
  (a, b, w) ∈ edge_list g ↔
  ∃ v e, g !! a = Some v ∧ e ∈ adj v ∧ dest e = b ∧ weight e = w.
Proof.
  unfold edge_list. rewrite elem_of_indexed_bind. split.
  - intros (i & v & Hv & Hin). apply list_elem_of_fmap in Hin as (e & ? & He).
    simplify_eq. exists v, e. eauto.
  - intros (v & e & Hv & He & <- & <-). exists a, v. split; [done|].
    apply list_elem_of_fmap. eauto.
Qed.

Lemma edge_list_adj g g' : adj <$> g = adj <$> g' → edge_list g = edge_list g'.
Proof.
  intros Heq. unfold edge_list. apply indexed_bind_ext.
  - by rewrite <- (length_fmap adj g), Heq, length_fmap.
  - intros i v Hv.
    assert ((adj <$> g') !! i = Some (adj v)) as Hi.
    { by rewrite <- Heq, list_lookup_fmap, Hv. }
    rewrite list_lookup_fmap in Hi. destruct (g' !! i) as [v'|]; [|done].
    injection Hi as Hi. exists v'. split; [done|]. by rewrite Hi.
Qed.

End Indexed.

(** ** The priority queue *)

Lemma pq_argmin_spec key best q :
  pq_argmin key best q ∈ best :: q ∧
  ∀ y, y ∈ best :: q → (key (pq_argmin key best q) ≤ key y)%Z.
Proof.
  revert best. induction q as [|x q IH]; intros best; simpl.
  - split; [set_solver|]. intros y ->%list_elem_of_singleton. lia.
  - destruct (IH (if decide (key x < key best)%Z then x else best)) as [Hin Hmin].
    split.
    + case_decide; set_solver.
    + intros y Hy. 
      assert (key (pq_argmin key (if decide (key x < key best)%Z then x else best) q)
              ≤ key (if decide (key x < key best)%Z then x else best))%Z as Hb.
      { apply Hmin. set_solver. }
      apply elem_of_cons in Hy as [->|[->|Hy]%elem_of_cons].
      * case_decide; lia.
      * case_decide; lia.
      * apply Hmin. set_solver.
Qed.

Lemma remove_first_perm x q : x ∈ q → q ≡ₚ x :: remove_first x q.
Proof.
  induction q as [|y q IH]; [by intros ?%elem_of_nil|]. simpl.
  case_decide as Hyx; [by subst|].
  intros [?|Hin]%elem_of_cons; [congruence|].
  rewrite (IH Hin) at 1. apply Permutation_swap.
Qed.

Lemma pq_extractMin_None key q : pq_extractMin key q = None ↔ q = [].
Proof. by destruct q. Qed.

Lemma pq_extractMin_Some key q x q' :
  pq_extractMin key q = Some (x, q') →
  x ∈ q ∧ q ≡ₚ x :: q' ∧ ∀ y, y ∈ q → (key x ≤ key y)%Z.
Proof.
  destruct q as [|b q]; [done|]. unfold pq_extractMin. intros [= <- <-].
  destruct (pq_argmin_spec key b q) as [Hin Hmin].
  split; [done|]. split; [by apply remove_first_perm|done].
Qed.

(** ** Prim: what holds on every graph *)

Section PrimBasic.
Context {T : Type} `{EqDecision T}.
Implicit Types (g : Graph T) (q : MutablePriorityQueue).

Lemma prim_reset_alter g (f : Vertex T → Vertex T) i :
  (∀ v, set_visited false (set_path None (set_dist INF (f v))) =
        set_visited false (set_path None (set_dist INF v))) →
  prim_reset (alter f i g) = prim_reset g.
Proof.
  intros Hf. unfold prim_reset.
  rewrite (list_fmap_alter _ f (λ x, x)) by (apply Forall_forall; intros; apply Hf). by apply list_alter_id.
Qed.

Lemma prim_reset_adj g g' : prim_reset g = prim_reset g' → adj <$> g = adj <$> g'.
Proof.
  intros Heq. apply (f_equal (fmap adj)) in Heq. unfold prim_reset in Heq.
  by rewrite <- !list_fmap_compose in Heq.
Qed.

Lemma prim_reset_length g g' : prim_reset g = prim_reset g' → length g = length g'.
Proof.
  intros Heq. apply (f_equal length) in Heq. unfold prim_reset in Heq.
  by rewrite !length_fmap in Heq.
Qed.

Lemma adj_lookup g g' i v :
  adj <$> g = adj <$> g' → g !! i = Some v → ∃ v', g' !! i = Some v' ∧ adj v' = adj v.
Proof.
  intros Heq Hv.
  assert ((adj <$> g') !! i = Some (adj v)) as Hi.
  { by rewrite <- Heq, list_lookup_fmap, Hv. }
  rewrite list_lookup_fmap in Hi. destruct (g' !! i) as [v'|]; [|done].
  injection Hi as Hi. eauto.
Qed.

Lemma prim_relax_visited c (st : Graph T * MutablePriorityQueue) e :
  visited <$> (prim_relax c st e).1 = visited <$> st.1.
Proof.
  unfold prim_relax. destruct (st.1 !! dest e) as [d|] eqn:Hd; [|done].
  destruct (visited d); [done|]. repeat case_decide; try done; simpl.
  all: rewrite (list_fmap_alter _ _ (λ x, x)) by (by apply Forall_forall); by apply list_alter_id.
Qed.

Lemma foldl_prim_relax_visited c es (st : Graph T * MutablePriorityQueue) :
  visited <$> (foldl (prim_relax c) st es).1 = visited <$> st.1.
Proof.
  revert st. induction es as [|e es IH]; intros st; [done|]. simpl.
  by rewrite IH, prim_relax_visited.
Qed.

Lemma prim_relax_basic g0 c (st : Graph T * MutablePriorityQueue) e :
  prim_basic g0 st → reach g0 0 c → (c, dest e, weight e) ∈ edge_list g0 →
  prim_basic g0 (prim_relax c st e).
Proof.
  intros [Hfr Hnd Hq Hvis Hfar Hbd] Hc He. destruct st as [g q]. simpl in *.
  unfold prim_relax. simpl.
  destruct (g !! dest e) as [d|] eqn:Hd; [|by split].
  destruct (visited d) eqn:Hvd; [by split|].
  destruct (decide (weight e < dist d)%Z) as [Hlt|]; [|by split].
  assert (reach g0 0 (dest e)) as Hreach.
  { eapply rtc_r; [exact Hc|]. by exists (weight e). }
  pose proof (Hbd _ _ Hd) as Hdd.
  assert (∀ q', NoDup q' →
            (∀ x, x ∈ q' → x = dest e ∨ x ∈ q) →
            prim_basic g0
              (alter (λ v, set_path (Some c) (set_dist (weight e) v)) (dest e) g, q')) as Hgen.
  { intros q' Hnd' Hq'. split; simpl.
    - by rewrite prim_reset_alter.
    - done.
    - intros x Hx. destruct (decide (x = dest e)) as [->|Hne].
      + rewrite list_lookup_alter_eq, Hd. simpl. eexists. split; [done|]. simpl.
        split; [done|]. split; [lia|done].
      + rewrite list_lookup_alter_ne by done. apply Hq.
        destruct (Hq' x Hx); [done|done].
    - intros x v. destruct (decide (x = dest e)) as [->|Hne].
      + rewrite list_lookup_alter_eq, Hd. simpl. intros [= <-]. simpl. congruence.
      + rewrite list_lookup_alter_ne by done. apply Hvis.
    - intros x v. destruct (decide (x = dest e)) as [->|Hne].
      + done.
      + rewrite list_lookup_alter_ne by done. apply Hfar.
    - intros x v. destruct (decide (x = dest e)) as [->|Hne].
      + rewrite list_lookup_alter_eq, Hd. simpl. intros [= <-]. simpl. lia.
      + rewrite list_lookup_alter_ne by done. apply Hbd. }
  case_decide as Hinf.
  - apply Hgen; [|set_solver].
    apply NoDup_app. split; [done|]. split; [|apply NoDup_singleton].
    intros x Hx ->%list_elem_of_singleton.
    destruct (Hq _ Hx) as (v & Hv & _ & Hdv & _). simplify_eq. lia.
  - apply Hgen; [done|by right].
Qed.

Lemma foldl_prim_relax_basic g0 c es (st : Graph T * MutablePriorityQueue) :
  prim_basic g0 st → reach g0 0 c →
  (∀ e, e ∈ es → (c, dest e, weight e) ∈ edge_list g0) →
  prim_basic g0 (foldl (prim_relax c) st es).
Proof.
  revert st. induction es as [|e es IH]; intros st Hb Hc Hes; [done|]. simpl.
  apply IH; [|done|set_solver]. apply prim_relax_basic; [done..|]. set_solver.
Qed.

Lemma num_unvisited_visit g x v :
  g !! x = Some v → visited v = false →
  num_unvisited (alter (set_visited true) x g) < num_unvisited g.
Proof.
  unfold num_unvisited. revert x. induction g as [|u g IH]; intros x Hx Hv; [done|].
  destruct x as [|x]; simpl in *.
  - simplify_eq. rewrite filter_cons_False by (simpl; congruence).
    rewrite filter_cons_True by done. simpl. lia.
  - specialize (IH x Hx Hv). fold (alter (set_visited true) x g).
    rewrite !filter_cons. case_decide; simpl; lia.
Qed.

Lemma num_unvisited_eq g g' :
  visited <$> g = visited <$> g' → num_unvisited g = num_unvisited g'.
Proof.
  unfold num_unvisited. revert g'. induction g as [|u g IH]; intros [|u' g'] Heq;
    try done.
  rewrite !fmap_cons in Heq. injection Heq as Hu Hg.
  rewrite !filter_cons. specialize (IH g' Hg).
  repeat case_decide; try congruence; rewrite ?length_cons; by rewrite IH.
Qed.

(** One iteration of the [while] loop keeps the invariant and visits a
    new vertex. *)
Lemma prim_step_basic g0 (st st' : Graph T * MutablePriorityQueue) :
  prim_basic g0 st → prim_step st = Some st' →
  prim_basic g0 st' ∧ num_unvisited st'.1 < num_unvisited st.1.
Proof.
  intros Hb Hstep. pose proof Hb as [Hfr Hnd Hq Hvis Hfar Hbd].
  destruct st as [g q]. unfold prim_step in Hstep. simpl in *.
  destruct (pq_extractMin (key g) q) as [[x q1]|] eqn:Hex; [|done].
  injection Hstep as <-.
  apply pq_extractMin_Some in Hex as (Hin & Hperm & _).
  destruct (Hq x Hin) as (v & Hv & Hvv & Hdv & Hrx).
  rewrite list_lookup_alter_eq, Hv. simpl.
  split.
  - apply foldl_prim_relax_basic; [|done|].
    + rewrite Hperm in Hnd. apply NoDup_cons in Hnd as [Hxq1 Hnd1]. split; simpl.
      * by rewrite prim_reset_alter.
      * done.
      * intros y Hy. assert (y ≠ x) by (by intros ->).
        rewrite list_lookup_alter_ne by done. apply Hq. rewrite Hperm. by right.
      * intros y u. destruct (decide (y = x)) as [->|Hne]; [done|].
        rewrite list_lookup_alter_ne by done. apply Hvis.
      * intros y u. destruct (decide (y = x)) as [->|Hne]; [done|].
        rewrite list_lookup_alter_ne by done. apply Hfar.
      * intros y u. destruct (decide (y = x)) as [->|Hne].
        -- rewrite list_lookup_alter_eq, Hv. intros [= <-]. simpl. lia.
        -- rewrite list_lookup_alter_ne by done. apply Hbd.
    + intros e He. apply elem_of_edge_list.
      destruct (adj_lookup g g0 x v (prim_reset_adj _ _ Hfr) Hv) as (v0 & Hv0 & Hadj).
      exists v0, e. rewrite Hadj. done.
  - rewrite (num_unvisited_eq _ _ (foldl_prim_relax_visited _ _ _)). simpl.
    by eapply num_unvisited_visit.
Qed.

(** The loop terminates within as many iterations as there are unvisited
    vertices, for any invariant of its iterations. *)
Lemma prim_loop_inv (I : Graph T * MutablePriorityQueue → Prop) :
  (∀ st st', I st → prim_step st = Some st' →
     I st' ∧ num_unvisited st'.1 < num_unvisited st.1) →
  ∀ fuel st, I st → num_unvisited st.1 < fuel →
    ∃ g', prim_loop fuel st = Done g' ∧ I (g', []).
Proof.
  intros Hstep. induction fuel as [|fuel IH]; intros st HI Hlt; [lia|]. simpl.
  destruct (prim_step st) as [st'|] eqn:Hst.
  - destruct (Hstep st st' HI Hst) as [HI' Hdec]. apply IH; [done|lia].
  - exists st.1. split; [done|]. unfold prim_step in Hst.
    destruct st as [g q]. simpl in *.
    destruct (pq_extractMin (key g) q) as [[x q1]|] eqn:Hex; [done|].
    apply pq_extractMin_None in Hex. by subst.
Qed.

Lemma INF_pos : (0 < INF)%Z.
Proof. by vm_compute. Qed.

Lemma prim_reset_idemp g : prim_reset (prim_reset g) = prim_reset g.
Proof. unfold prim_reset. rewrite <- list_fmap_compose. by apply list_fmap_ext. Qed.

Lemma prim_reset_lookup g i :
  prim_reset g !! i = (λ v, set_visited false (set_path None (set_dist INF v))) <$> g !! i.
Proof. unfold prim_reset. by rewrite list_lookup_fmap. Qed.

Lemma num_unvisited_le g : num_unvisited g ≤ length g.
Proof. apply length_filter. Qed.

(** The state in which the loop is entered. *)
Lemma prim_basic_init g :
  g ≠ [] → prim_basic g (alter (set_dist 0) 0 (prim_reset g), pq_insert 0 []).
Proof.
  intros Hne.
  assert (∃ v0, g !! 0 = Some v0) as [v0 Hv0] by (destruct g; [done|eauto]).
  assert (∀ x v, alter (set_dist 0) 0 (prim_reset g) !! x = Some v →
            visited v = false ∧ path v = None ∧
            ((x = 0 ∧ dist v = 0%Z) ∨ (x ≠ 0 ∧ dist v = INF))) as Hlk.
  { intros x v. rewrite list_lookup_alter, !prim_reset_lookup.
    case_decide as Hx; [subst x; rewrite Hv0|]; simpl.
    - intros [= <-]. simpl. auto.
    - destruct (g !! x); simpl; [|done]. intros [= <-]. simpl. auto. }
  split; cbn [fst snd].
  - rewrite (prim_reset_alter _ (set_dist 0) 0) by (intros; reflexivity). apply prim_reset_idemp.
  - apply NoDup_singleton.
  - intros x ->%list_elem_of_singleton.
    rewrite list_lookup_alter_eq, prim_reset_lookup, Hv0. simpl.
    eexists. split; [done|]. simpl.
    split; [done|]. split; [apply INF_pos|apply rtc_refl].
  - intros x v Hv Hvis. destruct (Hlk x v Hv) as [? _]. congruence.
  - intros x v Hv Hx. destruct (Hlk x v Hv) as (_ & ? & [[-> _]|[_ ?]]); [|done].
    destruct Hx. apply rtc_refl.
  - intros x v Hv. pose proof INF_pos. destruct (Hlk x v Hv) as (_ & _ & [[_ ?]|[_ ?]]); lia.
Qed.

Lemma calculatePrim_unfold g :
  g ≠ [] →
  calculatePrim g =
    prim_loop (S (length g)) (alter (set_dist 0) 0 (prim_reset g), pq_insert 0 []).
Proof. intros Hne. unfold calculatePrim. by destruct g. Qed.

Lemma calculatePrim_basic g :
  g ≠ [] → ∃ g', calculatePrim g = Done g' ∧ prim_basic g (g', []).
Proof.
  intros Hne. rewrite calculatePrim_unfold by done.
  apply (prim_loop_inv (prim_basic g)).
  - apply prim_step_basic.
  - by apply prim_basic_init.
  - simpl. eapply Nat.le_lt_trans; [apply num_unvisited_le|].
    rewrite length_alter. unfold prim_reset. rewrite length_fmap. lia.
Qed.

Lemma reach_conn g u v : reach g u v → conn (edge_list g) u v.
Proof.
  induction 1 as [|x y z [w Hw] _ IH]; [apply rtc_refl|].
  eapply rtc_l; [|exact IH]. exists w. by left.
Qed.

(** C4. On a non-empty graph [calculatePrim] returns, and every vertex that
    the root (position 0) does not reach keeps [dist = INF] and a null
    [path]; in particular every vertex outside the root's connected
    component does. *)
Theorem calculatePrim_unreachable g :
  g ≠ [] →
  ∃ g', calculatePrim g = Done g' ∧ length g' = length g ∧
    (∀ x v, g' !! x = Some v → ¬ reach g 0 x → dist v = INF ∧ path v = None) ∧
    (∀ x v, g' !! x = Some v → ¬ conn (edge_list g) 0 x → dist v = INF ∧ path v = None).
Proof.
  intros Hne. destruct (calculatePrim_basic g Hne) as (g' & Hrun & Hb).
  exists g'. split; [done|]. split; [apply (prim_reset_length _ _ (pb_frame _ _ Hb))|].
  split.
  - intros x v Hv Hx. by apply (pb_far _ _ Hb x v).
  - intros x v Hv Hx. apply (pb_far _ _ Hb x v Hv). intros Hr. by apply Hx, reach_conn.
Qed.

(** C5. Running [calculatePrim] again on the graph it returned gives that
    same graph: all the [dist] and [path] assignments are identical. *)
Theorem calculatePrim_idempotent g :
  g ≠ [] →
  ∃ g1, calculatePrim g = Done g1 ∧ calculatePrim g1 = Done g1.
Proof.
  intros Hne. destruct (calculatePrim_basic g Hne) as (g1 & Hrun & Hb).
  exists g1. split; [done|].
  pose proof (pb_frame _ _ Hb) as Hfr. simpl in Hfr.
  assert (g1 ≠ []) as Hne1.
  { apply prim_reset_length in Hfr. destruct g1; [|done]. by destruct g. }
  rewrite calculatePrim_unfold by done. rewrite Hfr, (prim_reset_length _ _ Hfr).
  by rewrite <- calculatePrim_unfold.
Qed.

End PrimBasic.

(** ** Prim: the tree grown by the loop is safe *)

Section PrimTree.
Context {T : Type} `{EqDecision T}.
Implicit Types (g : Graph T) (q : MutablePriorityQueue).

Lemma visited_tree_alter_unvisited g (f : Vertex T → Vertex T) d v :
  g !! d = Some v → visited v = false → visited (f v) = false →
  visited_tree (alter f d g) = visited_tree g.
Proof.
  intros Hd Hv Hfv. unfold visited_tree. apply indexed_bind_ext.
  - apply length_alter.
  - intros i u. rewrite list_lookup_alter. case_decide as Hi.
    + subst i. rewrite Hd. simpl. intros [= <-]. exists v. by rewrite Hfv, Hv.
    + intros ->. eauto.
Qed.

Lemma visited_tree_visit g x v :
  g !! x = Some v → visited v = false →
  visited_tree (alter (set_visited true) x g) ≡ₚ visited_tree g ++ parent_edge x v.
Proof.
  intros Hx Hv. unfold visited_tree.
  destruct (path v) as [p|] eqn:Hp.
  - unfold parent_edge at 3. rewrite Hp.
    apply indexed_bind_grow with (c := x).
    + by rewrite length_alter.
    + intros i u Hi Hu. exists u. by rewrite list_lookup_alter_ne.
    + exists v, (set_visited true v). rewrite list_lookup_alter_eq, Hx. simpl.
      split; [done|]. split; [done|]. rewrite Hv. unfold parent_edge. simpl. by rewrite Hp.
  - unfold parent_edge at 3. rewrite Hp, app_nil_r.
    assert (∀ A (l l' : list A), l = l' → l ≡ₚ l') as Heq by (by intros ??? ->).
    apply Heq. symmetry. apply indexed_bind_ext.
    + by rewrite length_alter.
    + intros i u Hu. rewrite list_lookup_alter. case_decide as Hi.
      * subst i. rewrite Hx. simpl. eexists. split; [done|]. simplify_eq. simpl.
        rewrite Hv. unfold parent_edge. simpl. by rewrite Hp.
      * eauto.
Qed.

Lemma elem_of_visited_tree g p i w :
  (p, i, w) ∈ visited_tree g ↔
  ∃ v, g !! i = Some v ∧ visited v = true ∧ path v = Some p ∧ dist v = w.
Proof.
  unfold visited_tree. rewrite elem_of_indexed_bind. unfold parent_edge. split.
  - intros (j & v & Hv & Hin). destruct (visited v) eqn:?; [|by apply elem_of_nil in Hin].
    destruct (path v) eqn:?; [|by apply elem_of_nil in Hin].
    apply list_elem_of_singleton in Hin. simplify_eq. eauto.
  - intros (v & Hv & Hvis & Hp & Hw). exists i, v. split; [done|].
    rewrite Hvis, Hp, Hw. by apply list_elem_of_singleton.
Qed.

(** Dropping a pending edge that has nothing left to improve. *)
Lemma prim_inv_weaken g0 (st : Graph T * MutablePriorityQueue) c e es :
  prim_inv g0 st c (e :: es) →
  (∀ vb, st.1 !! dest e = Some vb → visited vb = false → (dist vb ≤ weight e)%Z) →
  prim_inv g0 st c es.
Proof.
  intros [Hroot Hpend Hq Hbd Hpar Horph Hrel Hconn Hsafe] Hdone. split; try done.
  - intros e' He'. apply Hpend. by right.
  - intros a b w va vb Hab Ha Hva Hb Hvb.
    destruct (Hrel a b w va vb Hab Ha Hva Hb Hvb) as [?|(-> & e' & He' & <- & <-)]; [by left|].
    apply elem_of_cons in He' as [->|He'].
    + left. by apply Hdone.
    + right. eauto.
Qed.

Lemma prim_relax_inv g0 c (st : Graph T * MutablePriorityQueue) e es :
  prim_basic g0 st → prim_inv g0 st c (e :: es) →
  prim_inv g0 (prim_relax c st e) c es.
Proof.
  intros Hb Hinv. unfold prim_relax.
  destruct (st.1 !! dest e) as [d|] eqn:Hd.
  2:{ apply (prim_inv_weaken _ _ _ e); [done|]. intros vb. rewrite Hd. by intros [=]. }
  destruct (visited d) eqn:Hvd.
  { apply (prim_inv_weaken _ _ _ e); [done|]. intros vb. rewrite Hd. congruence. }
  destruct (decide (weight e < dist d)%Z) as [Hlt|Hge].
  2:{ apply (prim_inv_weaken _ _ _ e); [done|]. intros vb. rewrite Hd. intros [= <-]. lia. }
  destruct Hinv as [Hroot Hpend Hq Hbd Hpar Horph Hrel Hconn Hsafe].
  destruct Hb as [Hfr Hnd Hbq Hvis Hfar Hbb].
  destruct st as [g q]. simpl in *.
  destruct (Hpend e) as (HeE & vc & Hvc & Hvcv); [by left|].
  assert (dest e ≠ c) as Hdc by (intros Heq; rewrite Heq in Hd; simplify_eq; congruence).
  assert (dest e ≠ 0) as Hd0.
  { intros Heq. destruct Hroot as (v0 & Hv0 & ? & _). rewrite Heq in Hd. simplify_eq. congruence. }
  set (g' := alter (λ v, set_path (Some c) (set_dist (weight e) v)) (dest e) g).
  assert (visited_tree g' = visited_tree g) as Htree.
  { by apply (visited_tree_alter_unvisited g _ (dest e) d). }
  assert (∀ q', (dist d = INF → dest e ∈ q') → (∀ x, x ∈ q → x ∈ q') →
            prim_inv g0 (g', q') c es) as Hgen.
  { intros q' Hq1 Hq2. split; simpl; unfold g'.
    - destruct Hroot as (v0 & Hv0 & ? & ?). exists v0.
      by rewrite list_lookup_alter_ne.
    - intros e' He'. split; [apply Hpend; by right|].
      exists vc. by rewrite list_lookup_alter_ne.
    - intros x v. rewrite list_lookup_alter. case_decide as Hx.
      + subst x. rewrite Hd. simpl. intros [= <-] _ _.
        destruct (decide (dist d = INF)) as [?|Hne]; [by apply Hq1|].
        apply Hq2, (Hq _ d); [done..|]. specialize (Hbd _ _ Hd Hvd). lia.
      + intros Hv ??. apply Hq2. by eapply Hq.
    - intros x v. rewrite list_lookup_alter. case_decide as Hx.
      + subst x. rewrite Hd. simpl. intros [= <-] _. simpl.
        specialize (Hbd _ _ Hd Hvd). lia.
      + apply Hbd.
    - intros x v p. rewrite list_lookup_alter. case_decide as Hx.
      + subst x. rewrite Hd. simpl. intros [= <-]. simpl. intros [= <-].
        split; [|done]. exists vc. by rewrite list_lookup_alter_ne.
      + intros Hv Hp. destruct (Hpar x v p Hv Hp) as [(vp & Hvp & ?) ?]. split; [|done].
        rewrite list_lookup_alter. case_decide; [|eauto].
        subst p. rewrite Hd in Hvp. simplify_eq. congruence.
    - intros x v. rewrite list_lookup_alter. case_decide as Hx.
      + subst x. rewrite Hd. simpl. by intros [= <-].
      + apply Horph.
    - intros a b w va vb Hab. rewrite !list_lookup_alter.
      destruct (decide (dest e = a)) as [<-|Ha].
      { rewrite Hd. simpl. intros [= <-]. simpl. congruence. }
      intros Hva Hvva. case_decide as Hbe.
      + subst b. rewrite Hd. simpl. intros [= <-] _. simpl.
        destruct (Hrel a (dest e) w va d Hab Hva Hvva Hd Hvd)
          as [?|(-> & e' & He' & Hde' & <-)]; [left; lia|].
        apply elem_of_cons in He' as [->|He']; [left; lia|].
        right. eauto.
      + intros Hvb Hvvb.
        destruct (Hrel a b w va vb Hab Hva Hvva Hvb Hvvb)
          as [?|(-> & e' & He' & <- & <-)]; [by left|].
        apply elem_of_cons in He' as [->|He']; [done|].
        right. eauto.
    - fold g'. rewrite Htree. unfold g'. intros x v. rewrite list_lookup_alter. case_decide as Hx.
      + subst x. rewrite Hd. simpl. intros [= <-]. simpl. congruence.
      + apply Hconn.
    - fold g'. by rewrite Htree. }
  case_decide.
  - apply Hgen; unfold pq_insert; set_solver.
  - apply Hgen; [done|]. unfold pq_decreaseKey. done.
Qed.

Lemma foldl_prim_relax_inv g0 c es (st : Graph T * MutablePriorityQueue) :
  prim_basic g0 st → prim_inv g0 st c es → reach g0 0 c →
  prim_inv g0 (foldl (prim_relax c) st es) c [].
Proof.
  revert st. induction es as [|e es IH]; intros st Hb Hinv Hc; [done|]. simpl.
  apply IH; [|by apply prim_relax_inv|done].
  apply prim_relax_basic; [done..|]. apply Hinv. by left.
Qed.

Section Undirected.
Variable g0 : Graph T.
Hypothesis Hsym : ∀ a b w, (a, b, w) ∈ edge_list g0 → (b, a, w) ∈ edge_list g0.
Hypothesis Hlight : light g0.

Lemma edge_list_lt a b w : (a, b, w) ∈ edge_list g0 → a < length g0 ∧ b < length g0.
Proof.
  intros Hab. pose proof (Hsym _ _ _ Hab) as Hba.
  apply elem_of_edge_list in Hab as (va & _ & Ha & _).
  apply elem_of_edge_list in Hba as (vb & _ & Hb & _).
  split; by eapply lookup_lt_Some.
Qed.

(** Extracting the minimum [x] and marking it visited: the edge from its
    parent is a lightest edge leaving the visited part. *)
Lemma prim_visit_inv g q c x q1 :
  prim_basic g0 (g, q) → prim_inv g0 (g, q) c [] →
  pq_extractMin (key g) q = Some (x, q1) →
  ∃ vx, g !! x = Some vx ∧ visited vx = false ∧
    prim_inv g0 (alter (set_visited true) x g, q1) x (adj vx).
Proof.
  intros [Hfr Hnd Hbq Hvis Hfar Hbb] [Hroot Hpend Hq Hbd Hpar Horph Hrel Hconn Hsafe] Hex.
  simpl in *.
  apply pq_extractMin_Some in Hex as (Hin & Hperm & Hmin).
  destruct (Hbq x Hin) as (vx & Hvx & Hvxv & Hdx & Hrx).
  exists vx. split; [done|]. split; [done|].
  pose proof (prim_reset_adj _ _ Hfr) as Hadj.
  pose proof (prim_reset_length _ _ Hfr) as Hlen.
  destruct Hroot as (v0 & Hv0 & Hv0v & Hv0p).
  assert (x ≠ 0) as Hx0 by (intros ->; simplify_eq; congruence).
  destruct (path vx) as [p|] eqn:Hp.
  2:{ destruct (Horph x vx Hvx Hp) as [?|[_ ?]]; [done|lia]. }
  destruct (Hpar x vx p Hvx Hp) as [(vp & Hvp & Hvpv) HpE].
  assert (visited_tree (alter (set_visited true) x g)
          ≡ₚ visited_tree g ++ [(p, x, dist vx)]) as Htree.
  { rewrite (visited_tree_visit g x vx) by done. unfold parent_edge. by rewrite Hp. }
  assert (∀ y v, alter (set_visited true) x g !! y = Some v →
            ∃ u, g !! y = Some u ∧ dist v = dist u ∧ path v = path u ∧
                 ((y = x ∧ visited v = true) ∨ (y ≠ x ∧ v = u))) as Hlk.
  { intros y v. rewrite list_lookup_alter. case_decide as Hy.
    - subst y. rewrite Hvx. simpl. intros [= <-]. exists vx. simpl.
      split; [done|]. split; [done|]. split; [done|]. by left.
    - intros Hv. exists v. split; [done|]. split; [done|]. split; [done|]. right.
      split; [congruence|done]. }
  assert (∀ y u, g !! y = Some u → visited u = true →
            ∃ v, alter (set_visited true) x g !! y = Some v ∧ visited v = true) as Hkeep.
  { intros y u Hu Huv. rewrite list_lookup_alter. case_decide as Hy.
    - subst y. rewrite Hvx. simpl. eauto.
    - eauto. }
  split; simpl.
  - exists v0. by rewrite list_lookup_alter_ne.
  - intros e He. split.
    + apply elem_of_edge_list.
      destruct (adj_lookup g g0 x vx Hadj Hvx) as (vx0 & Hvx0 & Hadjx).
      exists vx0, e. by rewrite Hadjx.
    + rewrite list_lookup_alter_eq, Hvx. simpl. eauto.
  - intros y v Hv Hvv Hdv. destruct (Hlk y v Hv) as (u & Hu & Hd & _ & [[_ ?]|[Hne ->]]);
      [congruence|].
    assert (y ∈ q) as Hyq by (by eapply Hq).
    rewrite Hperm in Hyq. by apply elem_of_cons in Hyq as [?|?].
  - intros y v Hv Hvv. destruct (Hlk y v Hv) as (u & Hu & Hd & _ & [[_ ?]|[Hne ->]]);
      [congruence|]. by eapply Hbd.
  - intros y v p' Hv Hp'. destruct (Hlk y v Hv) as (u & Hu & Hd & Hpu & _).
    rewrite Hpu in Hp'. destruct (Hpar y u p' Hu Hp') as [(vp' & Hvp' & ?) ?].
    rewrite Hd. split; [|done]. by eapply Hkeep.
  - intros y v Hv Hpv. destruct (Hlk y v Hv) as (u & Hu & Hd & Hpu & [[-> _]|[Hne ->]]).
    + simplify_eq. congruence.
    + by apply Horph.
  - intros a b w va vb Hab Hva Hvav Hvb Hvbv.
    destruct (Hlk b vb Hvb) as (ub & Hub & Hdb & _ & [[_ ?]|[Hbx ->]]); [congruence|].
    destruct (Hlk a va Hva) as (ua & Hua & _ & _ & [[-> _]|[Hax ->]]).
    + right. split; [done|].
      apply elem_of_edge_list in Hab as (vx0 & e & Hvx0 & He & ? & ?).
      destruct (adj_lookup g g0 x vx Hadj Hvx) as (vx0' & Hvx0' & Hadjx).
      simplify_eq. exists e. by rewrite <- Hadjx.
    + destruct (Hrel a b w ua ub Hab Hua Hvav Hub Hvbv) as [?|(_ & e & He & _)]; [by left|].
      by apply elem_of_nil in He.
  - intros y v Hv Hvv. destruct (Hlk y v Hv) as (u & Hu & _ & _ & [[-> _]|[Hne ->]]).
    + eapply rtc_l.
      * exists (dist vx). right. rewrite Htree. apply elem_of_app. right.
        by apply list_elem_of_singleton.
      * eapply conn_mono; [|by eapply (Hconn p vp)].
        intros t ?. rewrite Htree. apply elem_of_app. by left.
    + eapply conn_mono; [|by eapply (Hconn y u)].
      intros t ?. rewrite Htree. apply elem_of_app. by left.
  - eapply safe_perm; [symmetry; exact Htree|].
    apply (safe_step _ _ _ (λ i, from_option visited false (g !! i))); simpl; try done.
    + intros [[p' i] w] (v & Hv & Hvv & Hpv & _)%elem_of_visited_tree.
      destruct (Hpar i v p' Hv Hpv) as [(vp' & Hvp' & Hvp'v) _].
      unfold crosses. simpl. rewrite Hv, Hvp'. simpl. congruence.
    + rewrite <- Hlen. by eapply lookup_lt_Some.
    + rewrite <- Hlen. by eapply lookup_lt_Some.
    + unfold crosses. simpl. rewrite Hvp, Hvx. simpl. congruence.
    + assert (∀ a b w, (a, b, w) ∈ edge_list g0 →
                from_option visited false (g !! a) = true →
                from_option visited false (g !! b) = false → (dist vx ≤ w)%Z) as Hone.
      { intros a b w Hab Ha Hb.
        destruct (g !! a) as [va|] eqn:Hva; simpl in Ha; [|done].
        destruct (edge_list_lt _ _ _ Hab) as [_ Hblt]. rewrite <- Hlen in Hblt.
        destruct (lookup_lt_is_Some_2 g b Hblt) as [vb Hvb].
        rewrite Hvb in Hb. simpl in Hb.
        destruct (Hrel a b w va vb Hab Hva Ha Hvb Hb) as [Hle|(_ & e & He & _)];
          [|by apply elem_of_nil in He].
        pose proof (Hlight _ Hab) as Hw. simpl in Hw.
        assert (b ∈ q) as Hbq' by (eapply Hq; [done..|lia]).
        specialize (Hmin b Hbq'). unfold key in Hmin. rewrite Hvx, Hvb in Hmin.
        simpl in Hmin. lia. }
      intros [[a b] w] Hab Hcr. unfold crosses in Hcr. simpl in *.
      destruct (from_option visited false (g !! a)) eqn:Ha,
               (from_option visited false (g !! b)) eqn:Hb; try done.
      * by eapply Hone.
      * eapply (Hone b a); [by apply Hsym|done..].
Qed.

(** One iteration of the loop, for both invariants together. *)
Lemma prim_step_inv (st st' : Graph T * MutablePriorityQueue) :
  prim_basic g0 st ∧ (∃ c, prim_inv g0 st c []) →
  prim_step st = Some st' →
  (prim_basic g0 st' ∧ ∃ c, prim_inv g0 st' c []) ∧
  num_unvisited st'.1 < num_unvisited st.1.
Proof.
  intros [Hb [c Hinv]] Hstep.
  destruct (prim_step_basic g0 st st' Hb Hstep) as [Hb' Hlt].
  split; [split; [done|]|done].
  destruct st as [g q]. unfold prim_step in Hstep. simpl in *.
  destruct (pq_extractMin (key g) q) as [[x q1]|] eqn:Hex; [|done].
  injection Hstep as <-.
  destruct (prim_visit_inv g q c x q1 Hb Hinv Hex) as (vx & Hvx & Hvxv & Hinv').
  exists x. rewrite list_lookup_alter_eq, Hvx. simpl.
  pose proof Hb as [Hfr Hnd Hbq Hvis Hfar Hbb]. simpl in *.
  apply pq_extractMin_Some in Hex as (Hin & Hperm & _).
  destruct (Hbq x Hin) as (vx' & Hvx' & _ & _ & Hrx).
  apply foldl_prim_relax_inv; [|done|done].
  (* the state between the extraction and the relaxations *)
  rewrite Hperm in Hnd. apply NoDup_cons in Hnd as [Hxq1 Hnd1]. split; simpl.
  - by rewrite prim_reset_alter.
  - done.
  - intros y Hy. assert (y ≠ x) by (by intros ->).
    rewrite list_lookup_alter_ne by done. apply Hbq. rewrite Hperm. by right.
  - intros y u. destruct (decide (y = x)) as [->|Hne]; [done|].
    rewrite list_lookup_alter_ne by done. apply Hvis.
  - intros y u. destruct (decide (y = x)) as [->|Hne]; [done|].
    rewrite list_lookup_alter_ne by done. apply Hfar.
  - intros y u. destruct (decide (y = x)) as [->|Hne].
    + rewrite list_lookup_alter_eq, Hvx. intros [= <-]. simpl. by eapply Hbb.
    + rewrite list_lookup_alter_ne by done. apply Hbb.
Qed.

End Undirected.

End PrimTree.

(** ** Prim: the result is a minimum spanning tree *)

Section PrimResult.
Context {T : Type} `{EqDecision T}.
Implicit Types (g : Graph T) (q : MutablePriorityQueue).

Lemma indexed_bind_snoc {A} g v (h : nat → Vertex T → list A) :
  indexed_bind (g ++ [v]) h = indexed_bind g h ++ h (length g) v.
Proof.
  unfold indexed_bind. rewrite length_app. simpl. rewrite Nat.add_1_r, seq_S.
  rewrite fmap_app, join_app. simpl. rewrite app_nil_r.
  rewrite lookup_app_r, Nat.sub_diag by lia. simpl. f_equal. f_equal.
  apply list_fmap_ext. intros k i Hi. apply lookup_seq in Hi as [-> Hk]. simpl.
  by rewrite lookup_app_l.
Qed.

Lemma indexed_bind_nil {A} g (h : nat → Vertex T → list A) :
  (∀ i v, g !! i = Some v → h i v = []) → indexed_bind g h = [].
Proof.
  intros Hnil. destruct (indexed_bind g h) as [|x l] eqn:Heq; [done|].
  assert (x ∈ indexed_bind g h) as Hx by (rewrite Heq; left).
  apply elem_of_indexed_bind in Hx as (i & v & Hv & Hx).
  rewrite (Hnil i v Hv) in Hx. by apply elem_of_nil in Hx.
Qed.

(** When the root alone has a null [path], the parent pointers give
    [length g - 1] edges whose weights add up to [dist_sum]. *)
Lemma tree_measures g :
  g ≠ [] →
  (∀ i v, g !! i = Some v → (i = 0 ∧ path v = None) ∨ (i ≠ 0 ∧ is_Some (path v))) →
  length (tree_edges g) = length g - 1 ∧
  total_weight (tree_edges g) = dist_sum g ∧
  num_parents g = length g - 1.
Proof.
  induction g as [|v g IH] using rev_ind; [done|]. intros _ Hall.
  unfold tree_edges, dist_sum, num_parents in *.
  rewrite indexed_bind_snoc, length_app, total_weight_app, filter_app, !length_app.
  destruct (Hall (length g) v) as [[Hz Hp]|[Hnz [p Hp]]].
  { by rewrite lookup_app_r, Nat.sub_diag by lia. }
  - apply length_zero_iff_nil in Hz. subst g. simpl. unfold parent_edge. rewrite Hp.
    rewrite filter_cons_False by (rewrite Hp; by intros [??]). done.
  - assert (g ≠ []) as Hne by (by intros ->).
    destruct IH as (IH1 & IH2 & IH3); [done| |].
    { intros i u Hu. apply Hall. by apply lookup_app_l_Some. }
    rewrite IH1, IH2, IH3. unfold parent_edge. rewrite Hp. simpl.
    rewrite filter_cons_True by (rewrite Hp; eauto). simpl.
    destruct g as [|u g]; [done|]. simpl. rewrite !drop_0.
    split; [lia|]. split; [|lia].
    clear. induction g as [|x g IH]; simpl; lia.
Qed.

Lemma edge_list_has_edge g a b w : (a, b, w) ∈ edge_list g ↔ has_edge g a b w.
Proof.
  rewrite elem_of_edge_list. unfold has_edge, edge_at. simpl. split.
  - intros (v & e & Hv & He & ? & ?). apply list_elem_of_lookup in He as [k Hk].
    exists k, e. rewrite Hv. simpl. done.
  - intros (k & e & He & ? & ?). destruct (g !! a) as [v|]; simpl in He; [|done].
    exists v, e. split; [done|]. split; [|done]. apply list_elem_of_lookup. eauto.
Qed.

(** On the graphs of [Built] every edge has its mirror image. *)
Lemma wf_edge_list_sym g a b w :
  wf g → (a, b, w) ∈ edge_list g → (b, a, w) ∈ edge_list g.
Proof.
  intros Hwf (k & e & He & <- & <-)%edge_list_has_edge.
  destruct (Hwf a k e He) as (_ & _ & k' & e' & _ & He' & ? & ? & _).
  apply edge_list_has_edge. exists k', e'. done.
Qed.

Lemma prim_inv_first g :
  g ≠ [] →
  ∃ st1, prim_step (alter (set_dist 0) 0 (prim_reset g), pq_insert 0 []) = Some st1 ∧
    ∃ c, prim_inv g st1 c [].
Proof.
  intros Hne. pose proof (prim_basic_init g Hne) as Hb.
  assert (∃ v0, g !! 0 = Some v0) as [v0 Hv0] by (destruct g; [done|eauto]).
  set (g1 := alter (set_dist 0) 0 (prim_reset g)) in *.
  assert (∀ x v, alter (set_visited true) 0 g1 !! x = Some v →
            path v = None ∧ (dist v ≤ INF)%Z ∧
            ((x = 0 ∧ visited v = true) ∨ (x ≠ 0 ∧ dist v = INF ∧ visited v = false)))
    as Hlk.
  { intros x v. unfold g1. rewrite !list_lookup_alter, !prim_reset_lookup.
    pose proof INF_pos.
    case_decide as Hx; [subst x; rewrite Hv0|]; simpl.
    - intros [= <-]. simpl. split; [done|]. split; [lia|]. by left.
    - destruct (g !! x); simpl; [|done]. intros [= <-]. simpl.
      split; [done|]. split; [lia|]. right. split; [congruence|done]. }
  assert (∃ v0', alter (set_visited true) 0 g1 !! 0 = Some v0' ∧
                 visited v0' = true ∧ adj v0' = adj v0) as (v0' & Hv0' & Hv0'v & Hadj).
  { unfold g1. rewrite !list_lookup_alter_eq, prim_reset_lookup, Hv0. simpl. eauto. }
  exists (foldl (prim_relax 0) (alter (set_visited true) 0 g1, []) (adj v0')). split.
  { unfold prim_step. cbn [fst snd].
    change (pq_extractMin (key g1) (pq_insert 0 [])) with (Some (0, @nil nat)).
    cbv beta iota. by rewrite Hv0'. }
  exists 0.
  apply foldl_prim_relax_inv; [| |apply rtc_refl].
  - (* the state between the first extraction and its relaxations *)
    destruct Hb as [Hfr Hnd Hbq Hvis Hfar Hbb]. simpl in *. split; simpl.
    + by rewrite prim_reset_alter.
    + apply NoDup_nil_2.
    + by intros y ?%elem_of_nil.
    + intros y u Hu Huv. destruct (Hlk y u Hu) as (_ & _ & [[-> _]|(_ & _ & ?)]);
        [apply rtc_refl|congruence].
    + intros y u Hu Hy. destruct (Hlk y u Hu) as (? & _ & [[-> _]|(_ & ? & _)]); [|done].
      destruct Hy. apply rtc_refl.
    + intros y u Hu. by destruct (Hlk y u Hu) as (_ & ? & _).
  - split; simpl.
    + exists v0'. split; [done|]. split; [done|]. by destruct (Hlk 0 v0' Hv0').
    + intros e He. split; [|eauto]. apply elem_of_edge_list. exists v0, e.
      by rewrite <- Hadj.
    + intros y u Hu Huv Hud.
      destruct (Hlk y u Hu) as (_ & _ & [[_ ?]|(_ & ? & _)]); [congruence|lia].
    + intros y u Hu _. by destruct (Hlk y u Hu) as (_ & ? & _).
    + intros y u p Hu Hp. destruct (Hlk y u Hu) as (? & _). congruence.
    + intros y u Hu _. destruct (Hlk y u Hu) as (_ & _ & [[? _]|(_ & ? & ?)]); auto.
    + intros a b w va vb Hab Hva Hvav Hvb Hvbv. right.
      destruct (Hlk a va Hva) as (_ & _ & [[-> _]|(_ & _ & ?)]); [|congruence].
      split; [done|]. apply elem_of_edge_list in Hab as (v0'' & e & ? & He & ? & ?).
      simplify_eq. exists e. by rewrite Hadj.
    + intros y u Hu Huv. destruct (Hlk y u Hu) as (_ & _ & [[-> _]|(_ & _ & ?)]);
        [apply rtc_refl|congruence].
    + unfold visited_tree. rewrite indexed_bind_nil; [apply safe_nil|].
      intros i v Hv. destruct (visited v); [|done].
      unfold parent_edge. by destruct (Hlk i v Hv) as (-> & _).
Qed.

Lemma calculatePrim_inv g :
  g ≠ [] →
  (∀ a b w, (a, b, w) ∈ edge_list g → (b, a, w) ∈ edge_list g) →
  light g →
  ∃ g', calculatePrim g = Done g' ∧ prim_basic g (g', []) ∧ ∃ c, prim_inv g (g', []) c [].
Proof.
  intros Hne Hsym Hlight. rewrite calculatePrim_unfold by done.
  destruct (prim_inv_first g Hne) as (st1 & Hstep & Hinv1).
  pose proof (prim_basic_init g Hne) as Hb0.
  destruct (prim_step_basic g _ _ Hb0 Hstep) as [Hb1 Hlt].
  cbn [prim_loop]. rewrite Hstep.
  apply (prim_loop_inv (λ st, prim_basic g st ∧ ∃ c, prim_inv g st c [])).
  - intros st st'. by apply prim_step_inv.
  - done.
  - eapply Nat.lt_le_trans; [exact Hlt|]. 
    etrans; [apply num_unvisited_le|]. cbn [fst].
    rewrite length_alter. unfold prim_reset. by rewrite length_fmap.
Qed.

(** The outcome of [calculatePrim] on a non-empty connected graph whose
    edges come in mirrored pairs and weigh less than [INF]. *)
Lemma calculatePrim_tree g :
  g ≠ [] →
  (∀ a b w, (a, b, w) ∈ edge_list g → (b, a, w) ∈ edge_list g) →
  light g → connected g →
  ∃ g', calculatePrim g = Done g' ∧ length g' = length g ∧
    num_parents g' = length g - 1 ∧
    path <$> g' !! 0 = Some None ∧
    dist_sum g' = total_weight (tree_edges g') ∧
    minimum_spanning_tree (length g) (edge_list g) (tree_edges g').
Proof.
  intros Hne Hsym Hlight Hconn.
  destruct (calculatePrim_inv g Hne Hsym Hlight) as (g' & Hrun & Hb & c & Hinv).
  destruct Hb as [Hfr _ _ _ _ _].
  destruct Hinv as [Hroot _ Hq Hbd Hpar Horph Hrel Hct Hsafe]. simpl in *.
  pose proof (prim_reset_length _ _ Hfr) as Hlen.
  destruct Hroot as (v0 & Hv0 & Hv0v & Hv0p).
  exists g'. split; [done|]. split; [done|].
  (* every vertex has been visited *)
  assert (∀ x v, g' !! x = Some v → visited v = true) as Hall.
  { assert (∀ a b, conn (edge_list g) a b → a < length g →
              (∀ va, g' !! a = Some va → visited va = true) →
              ∀ vb, g' !! b = Some vb → visited vb = true) as Hwalk.
    { induction 1 as [a|a y b Hay _ IH]; intros Ha Hva vb Hvb; [by apply Hva|].
      assert (∃ w, (a, y, w) ∈ edge_list g) as [w Hw].
      { destruct Hay as [w [?|?]]; exists w; [done|by apply Hsym]. }
      destruct (edge_list_lt g Hsym _ _ _ Hw) as [_ Hy].
      apply IH; [done| |done].
      intros vy Hvy. destruct (visited vy) eqn:Hvyv; [done|]. exfalso.
      rewrite <- Hlen in Ha. destruct (lookup_lt_is_Some_2 g' a Ha) as [va Hva'].
      destruct (Hrel a y w va vy Hw Hva' (Hva _ Hva') Hvy Hvyv) as [Hle|(_ & e & He & _)];
        [|by apply elem_of_nil in He].
      pose proof (Hlight _ Hw) as Hwl. simpl in Hwl.
      assert (y ∈ @nil nat) as Hin by (eapply Hq; [done..|lia]).
      by apply elem_of_nil in Hin. }
    intros x v Hv. apply (Hwalk 0 x); [|destruct g; simpl; [done|lia]| |done].
    - apply Hconn; [destruct g; simpl; [done|lia]|].
      rewrite <- Hlen. by eapply lookup_lt_Some.
    - intros va ?. by simplify_eq. }
  assert (tree_edges g' = visited_tree g') as Htree.
  { unfold tree_edges, visited_tree. apply indexed_bind_ext; [done|].
    intros i v Hv. exists v. by rewrite (Hall i v Hv). }
  destruct (tree_measures g') as (Hm1 & Hm2 & Hm3).
  { intros ->. by destruct g. }
  { intros i v Hv. destruct (decide (i = 0)) as [->|Hi].
    - left. by simplify_eq.
    - right. split; [done|]. destruct (path v) eqn:Hp; [eauto|].
      destruct (Horph i v Hv Hp) as [?|[? _]]; [done|].
      rewrite (Hall i v Hv) in *. done. }
  split; [by rewrite Hm3, Hlen|]. split; [by rewrite Hv0; simpl; rewrite Hv0p|].
  split; [done|].
  apply safe_spanning_minimum; [by rewrite Htree|].
  split; [|split].
  - intros [[p i] w]. rewrite Htree. intros (v & Hv & _ & Hp & <-)%elem_of_visited_tree.
    by apply (Hpar i v p).
  - by rewrite Hm1, Hlen.
  - intros u v Hu Hv. rewrite <- Hlen in Hu, Hv.
    destruct (lookup_lt_is_Some_2 g' u Hu) as [vu Hvu].
    destruct (lookup_lt_is_Some_2 g' v Hv) as [vv Hvv].
    rewrite Htree. eapply conn_trans; [by eapply (Hct u vu), Hall|].
    apply conn_sym. by eapply (Hct v vv), Hall.
Qed.

(** C1 (as amended). On a non-empty connected graph built with
    [addBidirectionalEdge] whose edge weights are all below [INF],
    [calculatePrim] returns the vertex set in which the root has a null
    [path], exactly [V - 1] vertices have a non-null [path], and the sum
    of [dist] over the non-root vertices is the total weight of the tree
    given by the [path] pointers, which is a minimum spanning tree. *)
Theorem calculatePrim_mst g :
  Built g → g ≠ [] → connected g → light g →
  ∃ g', calculatePrim g = Done g' ∧ length g' = length g ∧
    num_parents g' = length g - 1 ∧
    path <$> g' !! 0 = Some None ∧
    dist_sum g' = total_weight (tree_edges g') ∧
    minimum_spanning_tree (length g) (edge_list g) (tree_edges g').
Proof.
  intros HB Hne Hconn Hlight. apply calculatePrim_tree; try done.
  intros a b w. apply wf_edge_list_sym. by apply Built_wf.
Qed.

End PrimResult.

(** ** The disjoint-set forest *)

Lemma bind_Done {A B} (a : A) (k : A → outcome B) : (Done a ≫= k) = k a.
Proof. done. Qed.

Section UnionFind.
Context {T : Type} `{EqDecision T}.
Implicit Types (g : Graph T).

Lemma set_path_path (v : Vertex T) p : path v = Some p → set_path (Some p) v = v.
Proof. destruct v; simpl. by intros ->. Qed.

Lemma rootof_det g x r r' : rootof g x r → rootof g x r' → r = r'.
Proof.
  induction 1 as [x v Hv Hp|x v p r Hv Hp Hne _ IH]; inversion 1; simplify_eq; auto.
Qed.

Lemma rootof_is_root g x r : rootof g x r → is_root g r.
Proof.
  induction 1 as [x v Hv Hp|]; [|done]. unfold is_root. by rewrite Hv; simpl; rewrite Hp.
Qed.

Lemma is_root_rootof g x : is_root g x → rootof g x x.
Proof.
  unfold is_root. destruct (g !! x) as [v|] eqn:Hv; [|done]. simpl.
  intros [= Hp]. by eapply rootof_self.
Qed.

Lemma rootof_root g x r : rootof g x r → rootof g r r.
Proof. intros. by eapply is_root_rootof, rootof_is_root. Qed.

Lemma rootof_lt g x r : rootof g x r → x < length g ∧ r < length g.
Proof.
  induction 1 as [x v Hv Hp|x v p r Hv Hp Hne _ [_ IH]].
  - split; by eapply lookup_lt_Some.
  - split; [by eapply lookup_lt_Some|done].
Qed.

(** Ranks grow towards the representative. *)
Lemma rootof_rank g x r v vr :
  uf_inv g → rootof g x r → g !! x = Some v → g !! r = Some vr →
  r = x ∨ rank v < rank vr.
Proof.
  intros [Hpar _] Hr. revert v. induction Hr as [x u Hu Hp|x u p r Hu Hp Hne Hr IH];
    intros v Hv Hvr; [by left|]. right.
  assert (v = u) as -> by congruence.
  destruct (Hpar x u Hu) as (p' & vp & Hp' & Hvp & [->|Hlt]); [congruence|].
  assert (p' = p) as -> by congruence.
  destruct (IH vp Hvp Hvr) as [->|?]; [|lia].
  assert (vr = vp) as -> by congruence. done.
Qed.

Lemma uf_rank_le g x v : uf_inv g → g !! x = Some v → rank v ≤ length g.
Proof. intros [_ Hrk] Hv. specialize (Hrk x v Hv). lia. Qed.

Lemma compressed_refl g : uf_inv g → compressed g g.
Proof.
  intros [Hpar _]. split; [done|]. intros y v Hv.
  destruct (Hpar y v Hv) as (p & _ & Hp & _). exists p.
  rewrite (set_path_path v p Hp). auto.
Qed.

(** [findSet] returns the representative and only compresses paths. *)
Lemma findSet_spec g fuel x v :
  uf_inv g → g !! x = Some v → length g - rank v < fuel →
  ∃ r g', findSet fuel x g = Done (r, g') ∧ rootof g x r ∧ compressed g g'.
Proof.
  intros Hinv. revert x v. induction fuel as [|fuel IH]; intros x v Hv Hfuel; [lia|].
  destruct (uf_parent g Hinv x v Hv) as (p & vp & Hp & Hvp & Hrk).
  simpl. rewrite Hv. simpl. rewrite Hp.
  destruct (decide (x ≠ p)) as [Hne|Heq%dec_stable].
  - destruct Hrk as [->|Hlt]; [done|].
    pose proof (uf_rank_le g p vp Hinv Hvp) as Hle.
    destruct (IH p vp Hvp) as (r & g1 & -> & Hr & Hlen & Hc); [lia|].
    simpl. exists r, (alter (set_path (Some r)) x g1).
    assert (rootof g x r) as Hxr by (apply (rootof_step g x v p r Hv Hp); [congruence|done]).
    split; [done|]. split; [done|].
    split; [by rewrite length_alter|].
    intros y u Hu. destruct (Hc y u Hu) as (p' & Hy & Hp').
    destruct (decide (y = x)) as [->|Hyx].
    + exists r. rewrite list_lookup_alter_eq, Hy. simpl. split; [done|].
      right. by simplify_eq.
    + exists p'. by rewrite list_lookup_alter_ne.
  - subst p. exists x, g. split; [done|]. split; [exact (rootof_self g x v Hv Hp)|].
    by apply compressed_refl.
Qed.

Lemma is_root_compressed g g' y :
  uf_inv g → compressed g g' → is_root g' y ↔ is_root g y.
Proof.
  intros Hinv [Hlen Hc]. unfold is_root.
  destruct (g !! y) as [v|] eqn:Hv.
  - destruct (Hc y v Hv) as (p' & -> & Hp'). simpl.
    destruct (uf_parent g Hinv y v Hv) as (p & _ & Hp & _). rewrite Hp.
    split; intros [= ->].
    + destruct Hp' as [?|Hr]; [congruence|].
      apply rootof_is_root in Hr. unfold is_root in Hr. rewrite Hv in Hr. simpl in Hr.
      congruence.
    + destruct Hp' as [?|Hr]; [congruence|].
      assert (rootof g y y) as Hy by (by eapply rootof_self).
      by rewrite (rootof_det _ _ _ _ Hr Hy).
  - apply lookup_ge_None in Hv. rewrite <- Hlen in Hv. apply lookup_ge_None in Hv.
    by rewrite Hv.
Qed.

Lemma num_roots_compressed g g' :
  uf_inv g → compressed g g' → num_roots g' = num_roots g.
Proof.
  intros Hinv Hc. unfold num_roots. rewrite (proj1 Hc). f_equal.
  apply list_filter_iff. intros y. by apply is_root_compressed.
Qed.

Lemma rootof_compressed g g' y r :
  uf_inv g → compressed g g' → rootof g y r → rootof g' y r.
Proof.
  intros Hinv Hc Hr.
  assert (∀ z, is_root g z → rootof g' z z) as Hroot.
  { intros z Hz. by apply is_root_rootof, (is_root_compressed g g'). }
  induction Hr as [x v Hv Hp|x v p r Hv Hp Hne Hr IH].
  - apply Hroot. unfold is_root. by rewrite Hv; simpl; rewrite Hp.
  - destruct (proj2 Hc x v Hv) as (p' & Hx' & [Hp'|Hp']).
    + simplify_eq. by eapply rootof_step.
    + assert (rootof g x r) as Hxr by (by eapply rootof_step).
      rewrite (rootof_det _ _ _ _ Hp' Hxr) in *.
      destruct (decide (r = x)) as [->|Hrx].
      * apply rootof_is_root in Hr. unfold is_root in Hr. rewrite Hv in Hr.
        simpl in Hr. congruence.
      * eapply rootof_step; [done..|]. apply Hroot. by eapply rootof_is_root.
Qed.

Lemma uf_inv_compressed g g' : uf_inv g → compressed g g' → uf_inv g'.
Proof.
  intros Hinv Hc. pose proof Hc as [Hlen Hcc]. split.
  - intros y v' Hv'.
    assert (y < length g) as Hy by (rewrite <- Hlen; by eapply lookup_lt_Some).
    destruct (lookup_lt_is_Some_2 g y Hy) as [v Hv].
    destruct (Hcc y v Hv) as (p' & Hy' & Hp'). simplify_eq.
    assert (∃ vp, g !! p' = Some vp ∧ (p' = y ∨ rank v < rank vp)) as (vp & Hvp & Hrk).
    { destruct Hp' as [Hp'|Hp'].
      - destruct (uf_parent g Hinv y v Hv) as (p & vp & Hp & Hvp & Hrk). simplify_eq. eauto.
      - destruct (rootof_lt _ _ _ Hp') as [_ Hlt].
        destruct (lookup_lt_is_Some_2 g p' Hlt) as [vr Hvr]. exists vr. split; [done|].
        by eapply rootof_rank. }
    destruct (Hcc p' vp Hvp) as (p'' & Hp'' & _).
    exists p', (set_path (Some p'') vp). simpl. done.
  - intros y v' Hv'.
    assert (y < length g) as Hy by (rewrite <- Hlen; by eapply lookup_lt_Some).
    destruct (lookup_lt_is_Some_2 g y Hy) as [v Hv].
    destruct (Hcc y v Hv) as (p' & Hy' & Hp'). simplify_eq. simpl.
    rewrite (num_roots_compressed g g') by done. rewrite Hlen.
    by apply (uf_rank g Hinv y).
Qed.

Lemma compressed_trans g g1 g2 :
  uf_inv g → compressed g g1 → compressed g1 g2 → compressed g g2.
Proof.
  intros Hinv H1 H2. pose proof (uf_inv_compressed _ _ Hinv H1) as Hinv1.
  destruct H1 as [Hl1 Hc1], H2 as [Hl2 Hc2]. split; [congruence|].
  intros y v Hv. destruct (Hc1 y v Hv) as (p1 & Hy1 & Hp1).
  destruct (Hc2 y _ Hy1) as (p2 & Hy2 & Hp2). exists p2. split; [done|].
  simpl in Hp2. destruct Hp2 as [[= <-]|Hr]; [done|]. right.
  assert (∃ r, rootof g y r) as [r Hr0].
  { destruct (findSet_spec g (S (length g)) y v Hinv Hv) as (r & _ & _ & ? & _); [lia|eauto]. }
  pose proof (rootof_compressed g g1 y r Hinv (conj Hl1 Hc1) Hr0) as Hr1.
  by rewrite (rootof_det _ _ _ _ Hr Hr1).
Qed.

Lemma compressed_frame {A} (f : Vertex T → A) g g' :
  (∀ p v, f (set_path p v) = f v) → compressed g g' → f <$> g' = f <$> g.
Proof.
  intros Hf [Hlen Hc]. apply list_eq. intros i. rewrite !list_lookup_fmap.
  destruct (g !! i) as [v|] eqn:Hv.
  - destruct (Hc i v Hv) as (p' & -> & _). simpl. by rewrite Hf.
  - apply lookup_ge_None in Hv. rewrite <- Hlen in Hv. apply lookup_ge_None in Hv.
    by rewrite Hv.
Qed.

Lemma find_root_rootof g x :
  uf_inv g → x < length g → rootof g x (find_root g x).
Proof.
  intros Hinv Hx. destruct (lookup_lt_is_Some_2 g x Hx) as [v Hv].
  destruct (findSet_spec g (S (length g)) x v Hinv Hv) as (r & g' & Hf & Hr & _); [lia|].
  unfold find_root. by rewrite Hf.
Qed.

Lemma filter_agree (P P' : nat → Prop) `{∀ x, Decision (P x)} `{∀ x, Decision (P' x)}
    (l : list nat) :
  (∀ z, z ∈ l → P' z ↔ P z) → filter P' l = filter P l.
Proof.
  intros Hiff. induction l as [|z l IH]; [done|]. rewrite !filter_cons.
  rewrite IH by (intros; apply Hiff; by right).
  destruct (decide (P z)) as [HPz|HPz].
  - by rewrite decide_True by (apply Hiff; [left|done]).
  - by rewrite decide_False by (rewrite Hiff; [done|left]).
Qed.

Lemma filter_drop_one (P P' : nat → Prop) `{∀ x, Decision (P x)} `{∀ x, Decision (P' x)}
    (l : list nat) a :
  NoDup l → a ∈ l → P a → ¬ P' a → (∀ z, z ≠ a → P' z ↔ P z) →
  length (filter P' l) + 1 = length (filter P l).
Proof.
  intros Hnd Ha HPa HP'a Hiff. induction l as [|z l IH]; [by apply elem_of_nil in Ha|].
  apply NoDup_cons in Hnd as [Hz Hnd]. rewrite !filter_cons.
  destruct (decide (z = a)) as [->|Hza].
  - rewrite (decide_True (P:=P a)), (decide_False (P:=P' a)) by done.
    rewrite length_cons.
    rewrite (filter_agree P P' l); [lia|].
    intros y Hy. apply Hiff. by intros ->.
  - apply elem_of_cons in Ha as [?|Ha]; [done|]. specialize (IH Hnd Ha).
    destruct (decide (P z)) as [HPz|HPz].
    + rewrite decide_True by (by apply Hiff). rewrite !length_cons. lia.
    + rewrite decide_False by (by rewrite Hiff). lia.
Qed.

Lemma link_roots_lookup a b δ g z :
  a ≠ b →
  link_roots a b δ g !! z =
    (λ v, if decide (z = b) then set_rank (rank v + δ) v
          else if decide (z = a) then set_path (Some b) v else v) <$> g !! z.
Proof.
  intros Hab. unfold link_roots. rewrite !list_lookup_alter.
  repeat case_decide; simplify_eq; try done; by destruct (g !! z).
Qed.

(** Attaching the representative [a] under the representative [b]. *)
Lemma link_roots_spec g a b δ va vb :
  uf_inv g → is_root g a → is_root g b → a ≠ b →
  g !! a = Some va → g !! b = Some vb →
  rank va < rank vb + δ → δ ≤ 1 →
  uf_inv (link_roots a b δ g) ∧
  num_roots (link_roots a b δ g) + 1 = num_roots g ∧
  (∀ z r, rootof g z r → rootof (link_roots a b δ g) z (if decide (r = a) then b else r)).
Proof.
  intros Hinv Ha Hb Hab Hva Hvb Hrk Hδ.
  assert (length (link_roots a b δ g) = length g) as Hlen.
  { unfold link_roots. by rewrite !length_alter. }
  assert (path va = Some a ∧ path vb = Some b) as [Hpa Hpb].
  { unfold is_root in Ha, Hb. rewrite Hva in Ha. rewrite Hvb in Hb. simpl in *.
    split; congruence. }
  assert (∀ z, is_root (link_roots a b δ g) z ↔ is_root g z ∧ z ≠ a) as Hroots.
  { intros z. unfold is_root. rewrite link_roots_lookup by done.
    destruct (g !! z) as [v|] eqn:Hv; simpl; [|by split; [|intros [? _]]].
    destruct (decide (z = b)) as [->|Hzb]; [|destruct (decide (z = a)) as [->|Hza]].
    - simpl. split; [|by intros [? _]]. intros ?. split; [done|congruence].
    - simpl. split; [congruence|]. by intros [_ ?].
    - split; [done|]. by intros [? _]. }
  assert (num_roots (link_roots a b δ g) + 1 = num_roots g) as Hnum.
  { unfold num_roots. rewrite Hlen.
    apply (filter_drop_one _ _ _ a); [apply NoDup_seq| |done|..].
    - apply elem_of_seq. apply lookup_lt_Some in Hva. lia.
    - rewrite Hroots. naive_solver.
    - intros z Hz. rewrite Hroots. naive_solver. }
  split; [split|split; [done|]].
  - intros z v'. rewrite link_roots_lookup by done.
    destruct (g !! z) as [v|] eqn:Hv; simpl; [|done]. intros [= <-].
    destruct (uf_parent g Hinv z v Hv) as (p & vp & Hp & Hvp & Hpr).
    destruct (decide (z = b)) as [->|Hzb]; [|destruct (decide (z = a)) as [->|Hza]].
    + assert (v = vb) as -> by congruence.
      exists b, (set_rank (rank vb + δ) vb). simpl. split; [done|].
      rewrite link_roots_lookup, Hvb by done. simpl. rewrite decide_True by done.
      split; [done|]. by left.
    + assert (v = va) as -> by congruence.
      exists b, (set_rank (rank vb + δ) vb). simpl. split; [done|].
      rewrite link_roots_lookup, Hvb by done. simpl. rewrite decide_True by done.
      split; [done|]. right. simpl. lia.
    + exists p. eexists. split; [done|]. rewrite link_roots_lookup, Hvp by done. simpl.
      split; [done|]. destruct Hpr as [->|Hlt]; [by left|]. right.
      repeat case_decide; simpl; lia.
  - intros z v'. rewrite link_roots_lookup by done.
    destruct (g !! z) as [v|] eqn:Hv; simpl; [|done]. intros [= <-].
    pose proof (uf_rank g Hinv z v Hv). rewrite Hlen.
    repeat case_decide; simpl; lia.
  - assert (rootof (link_roots a b δ g) b b) as Hbb.
    { apply is_root_rootof, Hroots. split; [done|congruence]. }
    induction 1 as [z v Hv Hp|z v p r Hv Hp Hne Hr IH].
    + case_decide as Hz.
      * subst z. apply (rootof_step _ a (set_path (Some b) v) b b); [|done|congruence|done].
        rewrite link_roots_lookup, Hv by done. simpl.
        rewrite decide_False, decide_True by done. done.
      * apply is_root_rootof, Hroots. split; [|done].
        unfold is_root. by rewrite Hv; simpl; rewrite Hp.
    + assert (z ≠ a) as Hza by (intros ->; simplify_eq).
      assert (z ≠ b) as Hzb by (intros ->; simplify_eq).
      eapply rootof_step; [|exact Hp|done|exact IH].
      rewrite link_roots_lookup, Hv by done. simpl. by rewrite !decide_False.
Qed.

Lemma link_roots_frame {A} (f : Vertex T → A) a b δ g :
  (∀ p v, f (set_path p v) = f v) → (∀ r v, f (set_rank r v) = f v) →
  f <$> link_roots a b δ g = f <$> g.
Proof.
  intros Hp Hr. unfold link_roots.
  rewrite (list_fmap_alter _ _ (λ x, x)) by (apply Forall_forall; intros; apply Hr).
  rewrite list_alter_id by done.
  rewrite (list_fmap_alter _ _ (λ x, x)) by (apply Forall_forall; intros; apply Hp).
  by rewrite list_alter_id.
Qed.

(** [linkSets(x, y)] on vertices of distinct sets with representatives
    [i] and [j]: the one of smaller rank goes under the other; on equal
    ranks [i] goes under [j], whose rank grows by one. *)
Lemma linkSets_spec g fuel x y i j :
  uf_inv g → length g < fuel → rootof g x i → rootof g y j → i ≠ j →
  ∃ g2 vi vj a b δ,
    compressed g g2 ∧ g2 !! i = Some vi ∧ g2 !! j = Some vj ∧
    (a, b, δ) = (if decide (rank vj < rank vi) then (j, i, 0)
                 else (i, j, if decide (rank vi = rank vj) then 1 else 0)) ∧
    linkSets fuel x y g = Done (link_roots a b δ g2).
Proof.
  intros Hinv Hfuel Hxi Hyj Hij.
  destruct (rootof_lt _ _ _ Hxi) as [Hx Hi]. destruct (rootof_lt _ _ _ Hyj) as [Hy Hj].
  destruct (lookup_lt_is_Some_2 g x Hx) as [vx Hvx].
  destruct (findSet_spec g fuel x vx Hinv Hvx) as (i' & g1 & Hf1 & Hxi' & Hc1); [lia|].
  rewrite (rootof_det _ _ _ _ Hxi' Hxi) in *. clear Hxi'.
  pose proof (uf_inv_compressed _ _ Hinv Hc1) as Hinv1.
  assert (y < length g1) as Hy1 by (by rewrite (proj1 Hc1)).
  destruct (lookup_lt_is_Some_2 g1 y Hy1) as [vy Hvy].
  destruct (findSet_spec g1 fuel y vy Hinv1 Hvy) as (j' & g2 & Hf2 & Hyj' & Hc2).
  { rewrite (proj1 Hc1). lia. }
  rewrite (rootof_det _ _ _ _ Hyj' (rootof_compressed _ _ _ _ Hinv Hc1 Hyj)) in *.
  clear Hyj'.
  pose proof (compressed_trans _ _ _ Hinv Hc1 Hc2) as Hc.
  assert (i < length g2) as Hi2 by (by rewrite (proj1 Hc)).
  assert (j < length g2) as Hj2 by (by rewrite (proj1 Hc)).
  destruct (lookup_lt_is_Some_2 g2 i Hi2) as [vi Hvi].
  destruct (lookup_lt_is_Some_2 g2 j Hj2) as [vj Hvj].
  unfold linkSets. rewrite Hf1. simpl. rewrite Hf2. simpl. rewrite Hvi, Hvj.
  exists g2, vi, vj.
  destruct (decide (rank vj < rank vi)) as [Hlt|Hge].
  - exists j, i, 0. split; [done|]. split; [done|]. split; [done|]. split; [done|].
    f_equal. unfold link_roots. symmetry. apply list_alter_id.
    intros v. destruct v; simpl. by rewrite Nat.add_0_r.
  - destruct (decide (rank vi = rank vj)) as [Heq|Hne].
    + exists i, j, 1. split; [done|]. split; [done|]. split; [done|]. split; [done|].
      f_equal. unfold link_roots. apply list_alter_ext; [|done].
      intros v _. by rewrite Nat.add_1_r.
    + exists i, j, 0. split; [done|]. split; [done|]. split; [done|]. split; [done|].
      f_equal. unfold link_roots. symmetry. apply list_alter_id.
      intros v. destruct v; simpl. by rewrite Nat.add_0_r.
Qed.

(** What [linkSets] does to the forest as a whole. *)
Lemma linkSets_inv g fuel x y i j :
  uf_inv g → length g < fuel → rootof g x i → rootof g y j → i ≠ j →
  ∃ g', linkSets fuel x y g = Done g' ∧ uf_inv g' ∧ length g' = length g ∧
    num_roots g' + 1 = num_roots g ∧
    (∃ a b, ((a = i ∧ b = j) ∨ (a = j ∧ b = i)) ∧
       ∀ z r, rootof g z r → rootof g' z (if decide (r = a) then b else r)) ∧
    (∀ A (f : Vertex T → A),
       (∀ p v, f (set_path p v) = f v) → (∀ r v, f (set_rank r v) = f v) →
       f <$> g' = f <$> g).
Proof.
  intros Hinv Hfuel Hxi Hyj Hij.
  destruct (linkSets_spec g fuel x y i j Hinv Hfuel Hxi Hyj Hij)
    as (g2 & vi & vj & a & b & δ & Hc & Hvi & Hvj & Habδ & Hrun).
  pose proof (uf_inv_compressed _ _ Hinv Hc) as Hinv2.
  assert (is_root g2 i) as Hri.
  { apply (is_root_compressed g g2); [done..|]. by eapply rootof_is_root. }
  assert (is_root g2 j) as Hrj.
  { apply (is_root_compressed g g2); [done..|]. by eapply rootof_is_root. }
  assert (∃ va vb, g2 !! a = Some va ∧ g2 !! b = Some vb ∧ is_root g2 a ∧ is_root g2 b ∧
            a ≠ b ∧ rank va < rank vb + δ ∧ δ ≤ 1 ∧
            ((a = i ∧ b = j) ∨ (a = j ∧ b = i))) as
    (va & vb & Hva & Hvb & Hra & Hrb & Hab & Hrk & Hδ & Hcases).
  { repeat case_decide; simplify_eq.
    - exists vj, vi. repeat split; auto; lia.
    - exists vi, vj. repeat split; auto; lia.
    - exists vi, vj. repeat split; auto; lia. }
  destruct (link_roots_spec g2 a b δ va vb Hinv2 Hra Hrb Hab Hva Hvb Hrk Hδ)
    as (Hinv' & Hnum & Hroots).
  exists (link_roots a b δ g2). split; [done|]. split; [done|].
  split; [unfold link_roots; rewrite !length_alter; apply Hc|].
  split; [by rewrite <- (num_roots_compressed g g2)|]. split.
  - exists a, b. split; [done|]. intros z r Hr. apply Hroots.
    by apply (rootof_compressed g g2).
  - intros A f Hp Hr. rewrite link_roots_frame by done. by apply compressed_frame.
Qed.

Lemma findSet_Done g fuel x r g' :
  uf_inv g → length g < fuel → findSet fuel x g = Done (r, g') →
  rootof g x r ∧ compressed g g'.
Proof.
  intros Hinv Hfuel Hrun. destruct (g !! x) as [v|] eqn:Hv.
  - destruct (findSet_spec g fuel x v Hinv Hv) as (r' & g'' & Hrun' & ? & ?); [lia|].
    rewrite Hrun in Hrun'. by simplify_eq.
  - destruct fuel; simpl in Hrun; [done|]. by rewrite Hv in Hrun.
Qed.

Lemma is_rep_is_root g x : uf_inv g → x < length g → is_rep g x ↔ is_root g x.
Proof.
  intros Hinv Hx. pose proof (find_root_rootof g x Hinv Hx) as Hr. unfold is_rep. split.
  - intros Heq. rewrite Heq in Hr. by eapply rootof_is_root.
  - intros Hroot%is_root_rootof. by eapply rootof_det.
Qed.

Lemma num_reps_roots g : uf_inv g → num_reps g = num_roots g.
Proof.
  intros Hinv. unfold num_reps, num_roots. f_equal. apply filter_agree.
  intros z Hz%elem_of_seq. apply is_rep_is_root; [done|lia].
Qed.

Lemma uf_init_lookup g x : uf_init g !! x = makeSet x <$> g !! x.
Proof. unfold uf_init. by rewrite list_lookup_imap. Qed.

Lemma filter_all (P : nat → Prop) `{∀ x, Decision (P x)} (l : list nat) :
  (∀ z, z ∈ l → P z) → filter P l = l.
Proof.
  intros HP. induction l as [|z l IH]; [done|].
  rewrite filter_cons_True by (apply HP; left). f_equal. apply IH. intros; apply HP; by right.
Qed.

Lemma uf_init_inv g : uf_inv (uf_init g) ∧ num_roots (uf_init g) = length g.
Proof.
  assert (length (uf_init g) = length g) as Hlen by apply length_imap.
  assert (num_roots (uf_init g) = length g) as Hnum.
  { unfold num_roots. rewrite Hlen. rewrite <- (length_seq (length g) 0) at 2. f_equal.
    apply filter_all. intros z Hz%elem_of_seq. unfold is_root. rewrite uf_init_lookup.
    destruct (lookup_lt_is_Some_2 g z) as [v ->]; [lia|]. done. }
  split; [|done]. split.
  - intros x v'. rewrite uf_init_lookup. destruct (g !! x) as [v|] eqn:Hv; [|done].
    simpl. intros [= <-]. exists x, (makeSet x v). simpl. split; [done|].
    rewrite uf_init_lookup, Hv. split; [done|]. by left.
  - intros x v'. rewrite uf_init_lookup. destruct (g !! x) as [v|] eqn:Hv; [|done].
    simpl. intros [= <-]. simpl. rewrite Hnum, Hlen. lia.
Qed.

(** C8. Starting from [V] singleton sets, after [k] calls of [linkSets]
    that each join two distinct sets (and any number of [findSet] calls)
    exactly [V - k] vertices [x] have [findSet(x) = x]; in every such
    state [findSet] returns, and [linkSets] on two distinct sets puts
    the representative of smaller rank under the other one (on equal
    ranks the first under the second) and increments the surviving
    representative's rank exactly when the ranks were equal. *)
Theorem disjoint_sets_count g0 k g :
  uf_trace g0 k g →
  length g = length g0 ∧
  num_reps g + k = length g0 ∧
  (∀ x, x < length g → ∃ r g', findSet (S (length g)) x g = Done (r, g')) ∧
  (∀ x y, x < length g → y < length g → find_root g x ≠ find_root g y →
     ∃ g2 vi vj,
       compressed g g2 ∧
       g2 !! find_root g x = Some vi ∧ g2 !! find_root g y = Some vj ∧
       linkSets (S (length g)) x y g =
         Done (if decide (rank vj < rank vi)
               then link_roots (find_root g y) (find_root g x) 0 g2
               else link_roots (find_root g x) (find_root g y)
                      (if decide (rank vi = rank vj) then 1 else 0) g2)).
Proof.
  intros Htr.
  assert (length g = length g0 ∧ uf_inv g ∧ num_roots g + k = length g0) as (Hlen & Hinv & Hnum).
  { induction Htr as [|k g x r g' _ (Hlen & Hinv & Hnum) Hrun
                      |k g x y g' _ (Hlen & Hinv & Hnum) Hx Hy Hne Hrun].
    - destruct (uf_init_inv g0) as [? ?]. split; [apply length_imap|]. split; [done|lia].
    - apply findSet_Done in Hrun as [_ Hc]; [|done|lia].
      split; [by rewrite (proj1 Hc)|]. split; [by eapply uf_inv_compressed|].
      by rewrite (num_roots_compressed g g').
    - destruct (linkSets_inv g (S (length g)) x y (find_root g x) (find_root g y) Hinv) as
        (g'' & Hrun' & Hinv' & Hlen' & Hnum' & _); [lia|by apply find_root_rootof..|done|].
      rewrite Hrun in Hrun'. simplify_eq. split; [congruence|]. split; [done|lia]. }
  split; [done|]. split; [by rewrite num_reps_roots|]. split.
  - intros x Hx. destruct (lookup_lt_is_Some_2 g x Hx) as [v Hv].
    destruct (findSet_spec g (S (length g)) x v Hinv Hv) as (r & g' & ? & _); [lia|eauto].
  - intros x y Hx Hy Hne.
    destruct (linkSets_spec g (S (length g)) x y (find_root g x) (find_root g y) Hinv) as
      (g2 & vi & vj & a & b & δ & Hc & Hvi & Hvj & Habδ & Hrun);
      [lia|by apply find_root_rootof..|done|].
    exists g2, vi, vj. do 3 (split; [done|]). rewrite Hrun.
    by repeat case_decide; simplify_eq.
Qed.

End UnionFind.

(** ** Kruskal: what the union-find phase leaves untouched *)

Section KruskalFrame.
Context {T : Type} `{EqDecision T}.
Implicit Types (g : Graph T).

Lemma fmap_eq_lookup {A} (f : Vertex T → A) g g' i v :
  f <$> g = f <$> g' → g !! i = Some v → ∃ v', g' !! i = Some v' ∧ f v' = f v.
Proof.
  intros Heq Hv.
  assert ((f <$> g') !! i = Some (f v)) as Hi.
  { by rewrite <- Heq, list_lookup_fmap, Hv. }
  rewrite list_lookup_fmap in Hi. destruct (g' !! i) as [v'|]; [|done].
  injection Hi as Hi. eauto.
Qed.

Lemma fmap_eq_length {A} (f : Vertex T → A) g g' : f <$> g = f <$> g' → length g = length g'.
Proof. intros Heq. by rewrite <- (length_fmap f g), Heq, length_fmap. Qed.

Lemma skeleton_estruct g g' : skeleton g = skeleton g' → estruct g = estruct g'.
Proof.
  intros Hsk. apply (f_equal (fmap snd)) in Hsk. unfold skeleton in Hsk.
  by rewrite <- !list_fmap_compose in Hsk.
Qed.

Lemma estruct_edge_at g g' h e :
  estruct g = estruct g' → edge_at g h = Some e →
  ∃ e', edge_at g' h = Some e' ∧ orig e' = orig e ∧ dest e' = dest e ∧
        weight e' = weight e ∧ reverse e' = reverse e.
Proof.
  intros Hsk He. unfold edge_at in *.
  destruct (g !! h.1) as [v|] eqn:Hv; [|done]. simpl in He.
  destruct (fmap_eq_lookup _ g g' _ v Hsk Hv) as (v' & -> & Hadj). simpl.
  assert ((edge_shape <$> adj v') !! h.2 = Some (edge_shape e)) as Hi.
  { by rewrite Hadj, list_lookup_fmap, He. }
  rewrite list_lookup_fmap in Hi. destruct (adj v' !! h.2) as [e'|]; [|done].
  injection Hi as ????. eauto 10.
Qed.

Lemma skeleton_id g g' x : skeleton g = skeleton g' → id_of g x = id_of g' x.
Proof.
  intros Hsk. unfold id_of. destruct (g !! x) as [v|] eqn:Hv.
  - destruct (fmap_eq_lookup _ g g' _ v Hsk Hv) as (v' & -> & Hvv'). simpl. congruence.
  - apply lookup_ge_None in Hv. rewrite (fmap_eq_length _ _ _ Hsk) in Hv.
    apply lookup_ge_None in Hv. by rewrite Hv.
Qed.

Lemma wf_estruct g g' : estruct g = estruct g' → wf g → wf g'.
Proof.
  intros Hsk Hwf u k e' He'.
  destruct (estruct_edge_at g' g _ _ (eq_sym Hsk) He') as (e & He & Ho & Hd & Hw & Hr).
  destruct (Hwf u k e He) as (Ho' & Hd' & k' & e2 & Hr' & He2 & Hd2 & Hw2 & Hr2 & Hne).
  destruct (estruct_edge_at g g' _ _ Hsk He2) as (e2' & He2' & ? & ? & ? & ?).
  split; [congruence|]. split; [rewrite <- (fmap_eq_length _ _ _ Hsk); congruence|].
  exists k', e2'. rewrite <- Hd. repeat split; congruence.
Qed.

Lemma edge_list_estruct g g' : estruct g = estruct g' → edge_list g = edge_list g'.
Proof.
  intros Hsk. unfold edge_list. apply indexed_bind_ext; [by eapply fmap_eq_length|].
  intros i v Hv. destruct (fmap_eq_lookup _ g g' _ v Hsk Hv) as (v' & Hv' & Hadj).
  exists v'. split; [done|].
  apply (f_equal (fmap (λ t : nat * nat * Z * option (nat * nat), (i, t.1.1.2, t.1.2)))) in Hadj.
  rewrite <- !list_fmap_compose in Hadj. symmetry. exact Hadj.
Qed.

Lemma skeleton_adj g g' : adj <$> g = adj <$> g' → id <$> g = id <$> g' →
  skeleton g = skeleton g'.
Proof.
  intros Hadj Hid. unfold skeleton. apply list_eq. intros i. rewrite !list_lookup_fmap.
  destruct (g !! i) as [v|] eqn:Hv.
  - destruct (fmap_eq_lookup _ g g' _ v Hadj Hv) as (v' & Hv' & Ha).
    destruct (fmap_eq_lookup _ g g' _ v Hid Hv) as (v'' & Hv'' & Hi).
    rewrite Hv'. simpl. simplify_eq. by rewrite Ha, Hi.
  - apply lookup_ge_None in Hv. rewrite (fmap_eq_length _ _ _ Hadj) in Hv.
    apply lookup_ge_None in Hv. by rewrite Hv.
Qed.

Lemma edge_at_adj g g' h : adj <$> g = adj <$> g' → edge_at g h = edge_at g' h.
Proof.
  intros Hadj. unfold edge_at. destruct (g !! h.1) as [v|] eqn:Hv.
  - destruct (fmap_eq_lookup _ g g' _ v Hadj Hv) as (v' & -> & Ha). simpl. by rewrite Ha.
  - apply lookup_ge_None in Hv. rewrite (fmap_eq_length _ _ _ Hadj) in Hv.
    apply lookup_ge_None in Hv. by rewrite Hv.
Qed.

Lemma selected_weight_adj g g' : adj <$> g = adj <$> g' → selected_weight g = selected_weight g'.
Proof.
  intros Hadj. unfold selected_weight. f_equal. apply indexed_bind_ext.
  - by eapply fmap_eq_length.
  - intros i v Hv. destruct (fmap_eq_lookup _ g g' _ v Hadj Hv) as (v' & Hv' & Ha).
    exists v'. by rewrite Ha.
Qed.

(** The forest is read off [path] and [rank] alone. *)
Lemma rootof_frame g g' x r :
  path <$> g = path <$> g' → rootof g x r → rootof g' x r.
Proof.
  intros Hp. induction 1 as [x v Hv Hpv|x v p r Hv Hpv Hne _ IH].
  - destruct (fmap_eq_lookup _ g g' _ v Hp Hv) as (v' & Hv' & Hpp).
    eapply rootof_self; [done|congruence].
  - destruct (fmap_eq_lookup _ g g' _ v Hp Hv) as (v' & Hv' & Hpp).
    eapply rootof_step; [done| |done..]. congruence.
Qed.

Lemma is_root_frame g g' x : path <$> g = path <$> g' → is_root g x ↔ is_root g' x.
Proof.
  intros Hp. unfold is_root.
  assert (path <$> g !! x = path <$> g' !! x) as ->; [|done].
  by rewrite <- !list_lookup_fmap, Hp.
Qed.

Lemma num_roots_frame g g' : path <$> g = path <$> g' → num_roots g = num_roots g'.
Proof.
  intros Hp. unfold num_roots. rewrite (fmap_eq_length _ _ _ Hp). f_equal.
  apply list_filter_iff. intros x. by apply is_root_frame.
Qed.

Lemma uf_inv_frame g g' :
  path <$> g = path <$> g' → rank <$> g = rank <$> g' → uf_inv g → uf_inv g'.
Proof.
  intros Hp Hr [Hpar Hrk]. split.
  - intros x v' Hv'.
    destruct (fmap_eq_lookup _ g' g _ v' (eq_sym Hp) Hv') as (v & Hv & Hpv).
    destruct (fmap_eq_lookup _ g' g _ v' (eq_sym Hr) Hv') as (v2 & Hv2 & Hrv).
    simplify_eq.
    destruct (Hpar x v Hv) as (p & vp & Hpp & Hvp & Hlt).
    destruct (fmap_eq_lookup _ g g' _ vp Hr Hvp) as (vp' & Hvp' & Hrvp).
    exists p, vp'. split; [congruence|]. split; [done|]. destruct Hlt; [by left|right; lia].
  - intros x v' Hv'.
    destruct (fmap_eq_lookup _ g' g _ v' (eq_sym Hr) Hv') as (v & Hv & Hrv).
    rewrite <- (num_roots_frame g g' Hp), <- (fmap_eq_length _ _ _ Hp), <- Hrv.
    by eapply Hrk.
Qed.

Lemma alter_edge_frame {A} (f' : Vertex T → A) f h g :
  (∀ a v, f' (set_adj a v) = f' v) → f' <$> alter_edge f h g = f' <$> g.
Proof.
  intros Hf. unfold alter_edge.
  rewrite (list_fmap_alter _ _ (λ x, x)) by (apply Forall_forall; intros; apply Hf).
  by rewrite list_alter_id.
Qed.

Lemma edge_at_alter_edge f h g h2 :
  edge_at (alter_edge f h g) h2 =
    if decide (h2 = h) then f <$> edge_at g h else edge_at g h2.
Proof.
  unfold edge_at, alter_edge. destruct h as [u k], h2 as [u2 k2]. simpl.
  rewrite list_lookup_alter. destruct (decide (u = u2)) as [->|Hu].
  - destruct (g !! u2) as [v|]; simpl.
    + rewrite list_lookup_alter. repeat case_decide; simplify_eq; done.
    + by case_decide.
  - rewrite decide_False by congruence. done.
Qed.

Lemma skeleton_select b h g : skeleton (alter_edge (set_selected b) h g) = skeleton g.
Proof.
  unfold skeleton, alter_edge.
  rewrite (list_fmap_alter _ _ (λ x, x)); [by rewrite list_alter_id|].
  apply Forall_forall. intros v _. simpl. f_equal.
  rewrite (list_fmap_alter _ _ (λ x, x)); [by rewrite list_alter_id|].
  by apply Forall_forall.
Qed.

Lemma filter_select (l : list Edge) k e :
  l !! k = Some e → selected e = false →
  filter (λ e, selected e = true) (alter (set_selected true) k l)
  ≡ₚ filter (λ e, selected e = true) l ++ [set_selected true e].
Proof.
  revert k. induction l as [|x l IH]; intros k Hk He; [done|].
  destruct k as [|k].
  - injection Hk as ->. change (alter (set_selected true) 0 (e :: l))
      with (set_selected true e :: l).
    rewrite filter_cons_True by done. rewrite (filter_cons_False _ e) by congruence.
    apply Permutation_cons_append.
  - change (alter (set_selected true) (S k) (x :: l))
      with (x :: alter (set_selected true) k l).
    rewrite !filter_cons. case_decide; [|by apply IH].
    rewrite (IH k) by done. done.
Qed.

(** Selecting an edge that was not selected adds its weight. *)
Lemma selected_weight_select g h e :
  edge_at g h = Some e → selected e = false →
  selected_weight (alter_edge (set_selected true) h g) = (selected_weight g + weight e)%Z.
Proof.
  intros He Hsel. unfold selected_weight. destruct h as [u k].
  unfold edge_at in He. simpl in He. destruct (g !! u) as [v|] eqn:Hv; [|done].
  simpl in He.
  rewrite (total_weight_perm _ (indexed_bind g (λ i v,
      (λ e, (i, dest e, weight e)) <$> filter (λ e, selected e = true) (adj v))
      ++ [(u, dest e, weight e)])).
  { rewrite total_weight_app. simpl. lia. }
  apply indexed_bind_grow with (c := u).
  - unfold alter_edge. by rewrite length_alter.
  - intros i x Hi Hx. exists x. unfold alter_edge. simpl.
    by rewrite list_lookup_alter_ne.
  - exists v. eexists. split; [done|]. unfold alter_edge. simpl.
    rewrite list_lookup_alter_eq, Hv. simpl. split; [done|]. simpl.
    rewrite (filter_select _ k e) by done. by rewrite fmap_app.
Qed.

Lemma elem_of_handles g h : h ∈ handles g ↔ is_Some (edge_at g h).
Proof.
  unfold handles. rewrite elem_of_indexed_bind. destruct h as [u k].
  unfold edge_at. simpl. split.
  - intros (i & v & Hv & Hin). apply list_elem_of_fmap in Hin as (k' & [= -> ->] & Hk).
    rewrite Hv. simpl. apply lookup_lt_is_Some. apply elem_of_seq in Hk. lia.
  - intros [e He]. destruct (g !! u) as [v|] eqn:Hv; [|done]. simpl in He.
    exists u, v. split; [done|]. apply list_elem_of_fmap. exists k. split; [done|].
    apply elem_of_seq. apply lookup_lt_Some in He. lia.
Qed.

Lemma NoDup_join_indexed (F : nat → list (nat * nat)) (l : list nat) :
  NoDup l → (∀ i, NoDup (F i)) → (∀ i x, x ∈ F i → x.1 = i) →
  NoDup (mjoin (F <$> l)).
Proof.
  intros Hnd HF Hfst. induction l as [|i l IH]; [apply NoDup_nil_2|].
  apply NoDup_cons in Hnd as [Hi Hnd]. rewrite fmap_cons.
  change (NoDup (F i ++ mjoin (F <$> l))). apply NoDup_app.
  split; [done|]. split; [|by apply IH].
  intros x Hx (ll & Hxl & Hll)%list_elem_of_join.
  apply list_elem_of_fmap in Hll as (j & -> & Hj).
  apply Hfst in Hx, Hxl. congruence.
Qed.

Lemma NoDup_handles g : NoDup (handles g).
Proof.
  unfold handles, indexed_bind. apply NoDup_join_indexed.
  - apply NoDup_seq.
  - intros i. destruct (g !! i); simpl; [|apply NoDup_nil_2].
    apply NoDup_fmap_2; [|apply NoDup_seq]. by intros ?? [=].
  - intros i x. destruct (g !! i); simpl; [|by intros ?%elem_of_nil].
    by intros (k & -> & _)%list_elem_of_fmap.
Qed.

(** The order in which the edges are processed. *)
Lemma sort_edges_spec g hs :
  sort_edges g hs ≡ₚ hs ∧ StronglySorted (weight_le g) (sort_edges g hs).
Proof.
  unfold sort_edges. split; [apply merge_sort_Permutation|].
  apply StronglySorted_merge_sort; apply _.
Qed.

(** The graph in which the loop over the sorted edges starts. *)
Lemma kruskal_start_lookup g i :
  kruskal_deselect (kruskal_init g) !! i =
    (λ v, set_adj (set_selected false <$> adj v) (set_id i (makeSet i v))) <$> g !! i.
Proof.
  unfold kruskal_deselect, kruskal_init.
  rewrite list_lookup_fmap, list_lookup_imap. by destruct (g !! i).
Qed.

Lemma kruskal_start_length g : length (kruskal_deselect (kruskal_init g)) = length g.
Proof. unfold kruskal_deselect, kruskal_init. by rewrite length_fmap, length_imap. Qed.

Lemma kruskal_start_estruct g : estruct (kruskal_deselect (kruskal_init g)) = estruct g.
Proof.
  apply list_eq. intros i. unfold estruct.
  rewrite !list_lookup_fmap, kruskal_start_lookup.
  destruct (g !! i) as [v|]; [|done]. simpl. f_equal.
  rewrite <- list_fmap_compose. by apply list_fmap_ext.
Qed.

Lemma kruskal_start_id g x :
  x < length g → id_of (kruskal_deselect (kruskal_init g)) x = x.
Proof.
  intros Hx. unfold id_of. rewrite kruskal_start_lookup.
  by destruct (lookup_lt_is_Some_2 g x Hx) as [v ->].
Qed.

Lemma kruskal_start_forest g :
  uf_inv (kruskal_deselect (kruskal_init g)) ∧
  num_roots (kruskal_deselect (kruskal_init g)) = length g.
Proof.
  destruct (uf_init_inv g) as [Hinv Hnum].
  assert (∀ A (f : Vertex T → A),
            (∀ a v, f (set_adj a v) = f v) → (∀ i v, f (set_id i v) = f v) →
            f <$> uf_init g = f <$> kruskal_deselect (kruskal_init g)) as Hfr.
  { intros A f Ha Hi. apply list_eq. intros i.
    rewrite !list_lookup_fmap, kruskal_start_lookup, uf_init_lookup.
    destruct (g !! i) as [v|]; [|done]. simpl. by rewrite Ha, Hi. }
  split.
  - eapply uf_inv_frame; [| |exact Hinv]; by apply Hfr.
  - rewrite <- Hnum. symmetry. apply num_roots_frame. by apply Hfr.
Qed.

Lemma kruskal_start_selected g h e :
  edge_at (kruskal_deselect (kruskal_init g)) h = Some e → selected e = false.
Proof.
  unfold edge_at. rewrite kruskal_start_lookup.
  destruct (g !! h.1) as [v|]; [|done]. simpl. rewrite list_lookup_fmap.
  destruct (adj v !! h.2); [|done]. simpl. by intros [= <-].
Qed.

Lemma kruskal_start_weight g : selected_weight (kruskal_deselect (kruskal_init g)) = 0%Z.
Proof.
  unfold selected_weight. rewrite indexed_bind_nil; [done|].
  intros i v Hv.
  assert (filter (λ e, selected e = true) (adj v) = []) as ->; [|done].
  destruct (filter _ (adj v)) as [|e l] eqn:Hf; [done|].
  assert (e ∈ filter (λ e, selected e = true) (adj v)) as He by (rewrite Hf; left).
  apply list_elem_of_filter in He as [Hsel [k Hk]%list_elem_of_lookup].
  assert (edge_at (kruskal_deselect (kruskal_init g)) (i, k) = Some e) as Hat.
  { unfold edge_at. simpl. by rewrite Hv. }
  apply kruskal_start_selected in Hat. congruence.
Qed.

End KruskalFrame.

(** ** Kruskal: the union-find phase grows a safe forest *)

Section KruskalLoop.
Context {T : Type} `{EqDecision T}.
Implicit Types (g : Graph T).

Variable gi : Graph T.
Hypothesis Hwf : wf gi.
Hypothesis Hid : ∀ x, x < length gi → id_of gi x = x.

Lemma canonical_spec h :
  canonical gi h ↔ ∃ e, edge_at gi h = Some e ∧ h.1 = orig e ∧ orig e < dest e.
Proof.
  unfold canonical. destruct h as [u k]. destruct (edge_at gi (u, k)) as [e|] eqn:He.
  - destruct (Hwf u k e He) as (Ho & Hd & _).
    pose proof (edge_at_lt _ _ _ _ He) as Hu.
    rewrite !Hid by (by rewrite ?Ho). split.
    + intros Hlt. exists e. done.
    + by intros (e' & [= <-] & _ & ?).
  - split; [done|]. by intros (e' & ? & _).
Qed.

Lemma canonical_reverse h e h' :
  canonical gi h → edge_at gi h = Some e → reverse e = Some h' → ¬ canonical gi h'.
Proof.
  intros Hc He Hr Hc'.
  apply canonical_spec in Hc as (e0 & He0 & Hh & Hlt).
  apply canonical_spec in Hc' as (e' & He' & Hh' & Hlt').
  assert (e0 = e) as -> by congruence. destruct h as [u k].
  destruct (Hwf u k e He) as (Ho & Hd & k' & e2 & Hr' & He2 & Hd2 & _).
  assert (h' = (dest e, k')) as -> by congruence.
  assert (e2 = e') as -> by congruence.
  destruct (Hwf _ _ _ He') as (Ho' & _). simpl in *. lia.
Qed.

(** Every edge between two different vertices has a canonical handle. *)
Lemma canonical_handle a b w :
  (a, b, w) ∈ edge_list gi → a ≠ b →
  ∃ h e, h ∈ kruskal_edges gi ∧ edge_at gi h = Some e ∧ weight e = w ∧
    ((orig e = a ∧ dest e = b) ∨ (orig e = b ∧ dest e = a)).
Proof.
  intros (k & e & He & Hd & Hw)%edge_list_has_edge Hab.
  destruct (Hwf a k e He) as (Ho & Hdl & k' & e' & Hr & He' & Hd' & Hw' & _).
  destruct (Hwf _ _ _ He') as (Ho' & _).
  destruct (decide (a < b)) as [Hlt|Hge].
  - exists (a, k), e. split; [|split; [done|split; [done|left; done]]].
    unfold kruskal_edges. apply list_elem_of_filter. split.
    + apply canonical_spec. exists e. simpl. split; [done|]. split; [done|]. lia.
    + apply elem_of_handles. eauto.
  - exists (dest e, k'), e'. split; [|split; [done|split; [congruence|right]]].
    + unfold kruskal_edges. apply list_elem_of_filter. split.
      * apply canonical_spec. exists e'. simpl. split; [done|]. split; [done|]. lia.
      * apply elem_of_handles. eauto.
    + split; congruence.
Qed.

Lemma kruskal_inv_length g F todo : kruskal_inv gi g F todo → length g = length gi.
Proof. intros Hinv. apply (fmap_eq_length _ _ _ (ki_skeleton _ _ _ _ Hinv)). Qed.

Lemma rootof_exists g x : uf_inv g → x < length g → ∃ r, rootof g x r.
Proof. intros. exists (find_root g x). by apply find_root_rootof. Qed.

(** Path compression does not disturb the invariant. *)
Lemma kruskal_inv_compressed g g' F todo :
  kruskal_inv gi g F todo → compressed g g' → kruskal_inv gi g' F todo.
Proof.
  intros [Hf Hsk Hsafe Hed Hj Hc Hd Hw Hfr Hn] Hcomp.
  pose proof (compressed_frame adj g g' (λ _ _, eq_refl) Hcomp) as Hadj.
  pose proof (compressed_frame id g g' (λ _ _, eq_refl) Hcomp) as Hids.
  split; try done.
  - by eapply uf_inv_compressed.
  - rewrite <- Hsk. by apply skeleton_adj.
  - intros a b w Hab. destruct (Hj a b w Hab) as (r & ? & ?).
    exists r. split; by eapply rootof_compressed.
  - intros x r Hr. apply Hc.
    destruct (rootof_lt _ _ _ Hr) as [Hx _]. rewrite (proj1 Hcomp) in Hx.
    destruct (rootof_exists g x Hf Hx) as [r0 Hr0].
    pose proof (rootof_compressed _ _ _ _ Hf Hcomp Hr0) as Hr0'.
    by rewrite (rootof_det _ _ _ _ Hr Hr0').
  - intros h Hh Hnt. destruct (Hd h Hh Hnt) as (e & r & ? & ? & ?).
    exists e, r. split; [done|]. split; by eapply rootof_compressed.
  - by rewrite (selected_weight_adj g' g).
  - intros h e Hh. rewrite (edge_at_adj g' g) by done. intros He.
    destruct (Hfr h e Hh He) as (? & h' & e' & ? & ? & ?). split; [done|].
    exists h', e'. by rewrite (edge_at_adj g' g).
  - by rewrite (num_roots_compressed g g').
Qed.

(** An edge whose endpoints are already joined is skipped. *)
Lemma kruskal_inv_skip g F h rest e r :
  kruskal_inv gi g F (h :: rest) →
  edge_at gi h = Some e → rootof g (orig e) r → rootof g (dest e) r →
  kruskal_inv gi g F rest.
Proof.
  intros [Hf Hsk Hsafe Hed Hj Hc Hd Hw Hfr Hn] He Hr1 Hr2. split; try done.
  - intros h0 Hh0 Hnt. destruct (decide (h0 = h)) as [->|Hne]; [eauto|].
    apply Hd; [done|]. by intros [?|?]%elem_of_cons.
  - intros h0 e0 Hh0. apply Hfr. by right.
Qed.

Lemma find_root_eq g x r : uf_inv g → rootof g x r → find_root g x = r.
Proof.
  intros Hinv Hr. destruct (rootof_lt _ _ _ Hr) as [Hx _].
  by eapply rootof_det; [apply find_root_rootof|].
Qed.

(** The edge at the head of the sorted list is a lightest edge between two
    different sets. *)
Lemma kruskal_lightest g F h rest e a b w :
  kruskal_inv gi g F (h :: rest) →
  Forall (weight_le gi h) rest → edge_at gi h = Some e →
  (a, b, w) ∈ edge_list gi → find_root g a ≠ find_root g b →
  (weight e ≤ w)%Z.
Proof.
  intros Hinv Hsorted He Hab Hne.
  assert (a ≠ b) as Hab' by (by intros ->).
  destruct (canonical_handle a b w Hab Hab') as (h0 & e0 & Hh0 & He0 & Hw0 & Hends).
  destruct (decide (h0 ∈ h :: rest)) as [Hin|Hnin].
  - apply elem_of_cons in Hin as [->|Hin]; [simplify_eq; lia|].
    rewrite Forall_forall in Hsorted. specialize (Hsorted h0 Hin).
    unfold weight_le, weight_at in Hsorted. rewrite He, He0 in Hsorted. simpl in Hsorted.
    lia.
  - destruct (ki_done _ _ _ _ Hinv h0 Hh0 Hnin) as (e1 & r & He1 & Hr1 & Hr2).
    simplify_eq. pose proof (ki_forest _ _ _ _ Hinv) as Hf.
    apply (find_root_eq _ _ _ Hf) in Hr1, Hr2.
    destruct Hends as [[<- <-]|[<- <-]]; congruence.
Qed.

(** An edge between two different sets is accepted: the sets are linked
    and the edge and its reverse are selected. *)
Lemma kruskal_inv_union g2 g3 F h rest e r1 r2 h' :
  kruskal_inv gi g2 F (h :: rest) →
  NoDup (h :: rest) → (∀ h0, h0 ∈ h :: rest → h0 ∈ kruskal_edges gi) →
  Forall (weight_le gi h) rest →
  edge_at gi h = Some e → reverse e = Some h' →
  rootof g2 (orig e) r1 → rootof g2 (dest e) r2 → r1 ≠ r2 →
  uf_inv g3 → length g3 = length g2 → num_roots g3 + 1 = num_roots g2 →
  (∃ a b, ((a = r1 ∧ b = r2) ∨ (a = r2 ∧ b = r1)) ∧
     ∀ z r, rootof g2 z r → rootof g3 z (if decide (r = a) then b else r)) →
  (∀ A (f : Vertex T → A),
     (∀ p v, f (set_path p v) = f v) → (∀ r v, f (set_rank r v) = f v) →
     f <$> g3 = f <$> g2) →
  kruskal_inv gi
    (alter_edge (set_selected true) h' (alter_edge (set_selected true) h g3))
    (F ++ [(orig e, dest e, weight e)]) rest.
Proof.
  intros Hinv Hnd Hall Hsorted He Hrev Hr1 Hr2 Hne Hf3 Hlen3 Hnum3
    (a0 & b0 & Hcases & Hmap) Hframe.
  pose proof Hinv as [Hf Hsk Hsafe Hed Hj Hc Hd Hw Hfr Hn].
  pose proof (kruskal_inv_length _ _ _ Hinv) as Hlen2.
  pose proof (Hframe _ adj (λ _ _, eq_refl) (λ _ _, eq_refl)) as Hadj32.
  pose proof (Hframe _ id (λ _ _, eq_refl) (λ _ _, eq_refl)) as Hid32.
  set (g4 := alter_edge (set_selected true) h g3).
  set (g5 := alter_edge (set_selected true) h' g4).
  assert (path <$> g5 = path <$> g3) as Hp53.
  { unfold g5, g4. by rewrite !alter_edge_frame. }
  assert (rank <$> g5 = rank <$> g3) as Hr53.
  { unfold g5, g4. by rewrite !alter_edge_frame. }
  destruct h as [u k].
  destruct (Hwf u k e He) as (Ho & Hdl & k' & e' & Hrev' & He' & Hd' & Hw' & Hr' & Hhh').
  assert (h' = (dest e, k')) as -> by congruence. clear Hrev'.
  assert (canonical gi (u, k)) as Hcan.
  { specialize (Hall (u, k)). unfold kruskal_edges in Hall.
    rewrite list_elem_of_filter in Hall. apply Hall. left. }
  assert (u < length gi) as Hu by (by eapply edge_at_lt).
  assert (∀ z r, rootof g2 z r → rootof g5 z (if decide (r = a0) then b0 else r)) as Hmap5.
  { intros z r Hr. apply (rootof_frame g3); [done|]. by apply Hmap. }
  assert (∀ z r, rootof g5 z r →
            ∃ r0, rootof g2 z r0 ∧ r = if decide (r0 = a0) then b0 else r0) as Hback.
  { intros z r Hr. destruct (rootof_lt _ _ _ Hr) as [Hz _].
    assert (z < length g2) as Hz2.
    { rewrite <- Hlen3, <- (fmap_eq_length _ _ _ Hp53). done. }
    destruct (rootof_exists g2 z Hf Hz2) as [r0 Hr0]. exists r0. split; [done|].
    by eapply rootof_det; [exact Hr|apply Hmap5]. }
  assert ((if decide (r1 = a0) then b0 else r1) = b0 ∧
          (if decide (r2 = a0) then b0 else r2) = b0) as [Hm1 Hm2].
  { destruct Hcases as [[-> ->]|[-> ->]]; repeat case_decide; done. }
  rewrite Ho in *.
  (* the two edges selected by this step *)
  destruct (estruct_edge_at gi g2 _ _ (eq_sym (skeleton_estruct _ _ Hsk)) He)
    as (e2 & He2 & Ho2 & Hd2 & Hw2 & Hrv2).
  destruct (Hfr (u, k) e2) as (Hsel2 & h2' & e2' & Hrv2' & He2' & Hsel2'); [left|done|].
  assert (h2' = (dest e, k')) as -> by congruence.
  destruct (estruct_edge_at g2 gi _ _ (skeleton_estruct _ _ Hsk) He2')
    as (e'' & He'' & _ & _ & Hw2' & _).
  assert (e'' = e') as -> by congruence.
  assert (edge_at g3 (u, k) = Some e2) as He3 by (by rewrite (edge_at_adj g3 g2)).
  assert (edge_at g4 (dest e, k') = Some e2') as He4.
  { unfold g4. rewrite edge_at_alter_edge, decide_False by done.
    by rewrite (edge_at_adj g3 g2). }
  split.
  - eapply uf_inv_frame; [symmetry; exact Hp53|symmetry; exact Hr53|done].
  - unfold g5, g4. rewrite !skeleton_select. rewrite <- Hsk. by apply skeleton_adj.
  - apply (safe_step _ _ _ (λ y, bool_decide (find_root g2 y = r1))); simpl; try done.
    + intros [[a b] w] Hab. destruct (Hj a b w Hab) as (r & Ha & Hb).
      unfold crosses. simpl.
      rewrite (find_root_eq _ _ _ Hf Ha), (find_root_eq _ _ _ Hf Hb).
      intros Hx. by apply Hx.
    + apply edge_list_has_edge. exists k, e. done.
    + unfold crosses. simpl.
      rewrite (find_root_eq _ _ _ Hf Hr1), (find_root_eq _ _ _ Hf Hr2).
      rewrite bool_decide_eq_true_2 by done. rewrite bool_decide_eq_false_2 by congruence.
      done.
    + intros [[a b] w] Hab Hcr. unfold crosses in Hcr. simpl in *.
      eapply (kruskal_lightest g2 F (u, k) rest e a b w); try done.
      intros Heq. rewrite Heq in Hcr. done.
  - intros f [Hin|Hin%list_elem_of_singleton]%elem_of_app; [by apply Hed|].
    subst f. apply edge_list_has_edge. exists k, e. done.
  - intros a b w [Hin|Hin%list_elem_of_singleton]%elem_of_app.
    + destruct (Hj a b w Hin) as (r & Ha & Hb).
      exists (if decide (r = a0) then b0 else r). split; by apply Hmap5.
    + injection Hin as -> -> ->. exists b0. split.
      * rewrite <- Hm1. by apply Hmap5.
      * rewrite <- Hm2. by apply Hmap5.
  - intros x r Hr. destruct (Hback x r Hr) as (r0 & Hr0 & ->).
    assert (conn (F ++ [(u, dest e, weight e)]) x r0) as Hx.
    { eapply conn_mono; [|by apply Hc]. intros t ?. apply elem_of_app. by left. }
    case_decide as Ha0; [|done]. subst r0.
    eapply conn_trans; [exact Hx|].
    assert (conn (F ++ [(u, dest e, weight e)]) r1 r2) as H12.
    { eapply conn_trans; [eapply conn_sym, conn_mono; [|by apply (Hc u)]|].
      { intros t ?. apply elem_of_app. by left. }
      eapply conn_trans; [eapply (conn_edge _ u (dest e) (weight e))|].
      { apply elem_of_app. right. by apply list_elem_of_singleton. }
      eapply conn_mono; [|by apply (Hc (dest e))]. intros t ?. apply elem_of_app. by left. }
    destruct Hcases as [[-> ->]|[-> ->]]; [done|by apply conn_sym].
  - intros h0 Hh0 Hnt. destruct (decide (h0 = (u, k))) as [->|Hne0].
    + exists e, b0. split; [done|]. rewrite Ho. split.
      * rewrite <- Hm1. by apply Hmap5.
      * rewrite <- Hm2. by apply Hmap5.
    + destruct (Hd h0 Hh0) as (e0 & r & He0 & Ha & Hb).
      { by intros [?|?]%elem_of_cons. }
      exists e0, (if decide (r = a0) then b0 else r).
      split; [done|]. split; by apply Hmap5.
  - unfold g5. rewrite (selected_weight_select g4 _ e2') by done.
    unfold g4. rewrite (selected_weight_select g3 _ e2) by done.
    rewrite (selected_weight_adj g3 g2) by done. rewrite Hw, total_weight_app. simpl.
    lia.
  - intros h0 e0 Hh0 He0.
    assert (h0 ∈ (u, k) :: rest) as Hh0' by (by right).
    assert (h0 ≠ (u, k)).
    { intros ->. apply NoDup_cons in Hnd as [? _]. done. }
    assert (canonical gi h0) as Hcan0.
    { specialize (Hall h0 Hh0'). unfold kruskal_edges in Hall.
      by apply list_elem_of_filter in Hall as [? _]. }
    assert (h0 ≠ (dest e, k')).
    { intros ->. by eapply (canonical_reverse (u, k) e). }
    unfold g5, g4 in He0. rewrite !edge_at_alter_edge, !decide_False in He0 by done.
    rewrite (edge_at_adj g3 g2) in He0 by done.
    destruct (Hfr h0 e0 Hh0' He0) as (Hs0 & h0' & e0' & Hrv0 & He0' & Hs0').
    split; [done|]. exists h0', e0'. split; [done|].
    destruct (estruct_edge_at g2 gi _ _ (skeleton_estruct _ _ Hsk) He0)
      as (ei0 & Hei0 & _ & _ & _ & Hrvi0).
    assert (h0' ≠ (u, k)).
    { intros ->. eapply (canonical_reverse h0 ei0 (u, k)); [done..|congruence|done]. }
    assert (h0' ≠ (dest e, k')).
    { intros ->. destruct h0 as [u0 k0].
      destruct (Hwf u0 k0 ei0 Hei0) as (_ & _ & k0' & ei0' & Hrva & Hei0' & _ & _ & Hrvb & _).
      assert (ei0' = e') by congruence. subst ei0'. congruence. }
    unfold g5, g4. rewrite !edge_at_alter_edge, !decide_False by done.
    by rewrite (edge_at_adj g3 g2).
  - rewrite (num_roots_frame g5 g3) by done. rewrite length_app. simpl. lia.
Qed.

(** One iteration of [for (auto e : edges)]. *)
Lemma kruskal_step_spec g F h rest :
  kruskal_inv gi g F (h :: rest) →
  NoDup (h :: rest) → (∀ h0, h0 ∈ h :: rest → h0 ∈ kruskal_edges gi) →
  Forall (weight_le gi h) rest →
  ∃ g' F', kruskal_step (S (length gi)) g h = Done g' ∧ kruskal_inv gi g' F' rest.
Proof.
  intros Hinv Hnd Hall Hsorted.
  pose proof (kruskal_inv_length _ _ _ Hinv) as Hlen.
  assert (canonical gi h) as Hcan.
  { specialize (Hall h). unfold kruskal_edges in Hall.
    rewrite list_elem_of_filter in Hall. apply Hall. left. }
  apply canonical_spec in Hcan as (e & He & Hh1 & _).
  destruct h as [u k]. simpl in Hh1.
  destruct (Hwf u k e He) as (Ho & Hdl & k' & e' & Hrev & _).
  assert (u < length gi) as Hu by (by eapply edge_at_lt).
  destruct (estruct_edge_at gi g _ _
              (eq_sym (skeleton_estruct _ _ (ki_skeleton _ _ _ _ Hinv))) He)
    as (e2 & He2 & Ho2 & Hd2 & Hw2 & Hrv2).
  unfold kruskal_step. rewrite He2, Ho2, Hd2, Hrv2, Hrev.
  pose proof (ki_forest _ _ _ _ Hinv) as Hf.
  assert (orig e < length g) as Hog by (rewrite Ho; lia).
  destruct (lookup_lt_is_Some_2 g _ Hog) as [vu Hvu].
  destruct (findSet_spec g (S (length gi)) _ vu Hf Hvu) as (r1 & g1 & Hf1 & Hr1 & Hc1); [lia|].
  rewrite Hf1, bind_Done. cbv beta iota.
  pose proof (kruskal_inv_compressed _ _ _ _ Hinv Hc1) as Hinv1.
  pose proof (ki_forest _ _ _ _ Hinv1) as Hf1'.
  pose proof (kruskal_inv_length _ _ _ Hinv1) as Hlen1.
  assert (dest e < length g1) as Hdg by lia.
  destruct (lookup_lt_is_Some_2 g1 _ Hdg) as [vd Hvd].
  destruct (findSet_spec g1 (S (length gi)) _ vd Hf1' Hvd) as (r2 & g2 & Hf2 & Hr2 & Hc2); [lia|].
  rewrite Hf2, bind_Done. cbv beta iota.
  pose proof (kruskal_inv_compressed _ _ _ _ Hinv1 Hc2) as Hinv2.
  pose proof (ki_forest _ _ _ _ Hinv2) as Hf2'.
  pose proof (kruskal_inv_length _ _ _ Hinv2) as Hlen2.
  assert (rootof g2 (orig e) r1) as Hr1'.
  { apply (rootof_compressed g1 g2); [done..|]. by apply (rootof_compressed g g1). }
  assert (rootof g2 (dest e) r2) as Hr2' by (by apply (rootof_compressed g1 g2)).
  destruct (decide (r1 ≠ r2)) as [Hne|Heq%dec_stable].
  - destruct (linkSets_inv g2 (S (length gi)) (orig e) (dest e) r1 r2 Hf2')
      as (g3 & Hrun & Hf3 & Hlen3 & Hnum3 & Hmap & Hframe); [lia|done..|].
    rewrite Hrun, bind_Done. eexists _, _. split; [done|].
    by eapply (kruskal_inv_union g2 g3 F (u, k) rest e r1 r2).
  - subst r2. exists g2, F. split; [done|].
    by eapply (kruskal_inv_skip g2 F (u, k) rest e r1).
Qed.

Lemma kruskal_loop_spec todo g F :
  kruskal_inv gi g F todo →
  NoDup todo → (∀ h, h ∈ todo → h ∈ kruskal_edges gi) →
  StronglySorted (weight_le gi) todo →
  ∃ g' F', kruskal_loop (S (length gi)) todo g = Done g' ∧ kruskal_inv gi g' F' [].
Proof.
  revert g F. induction todo as [|h rest IH]; intros g F Hinv Hnd Hall Hsorted.
  - exists g, F. done.
  - apply StronglySorted_inv in Hsorted as [Hsorted Hhead].
    destruct (kruskal_step_spec g F h rest Hinv Hnd Hall Hhead) as (g1 & F1 & Hstep & Hinv1).
    cbn [kruskal_loop]. rewrite Hstep, bind_Done.
    apply (IH g1 F1); [done| |intros; apply Hall; by right|done].
    by apply NoDup_cons in Hnd as [_ ?].
Qed.

Lemma filter_none (l : list nat) : filter (λ _ : nat, False) l = [].
Proof. induction l; [done|]. by rewrite filter_cons_False by tauto. Qed.

(** When the loop has run and the graph is connected, the accepted edges
    span the graph. *)
Lemma kruskal_spanning g F :
  kruskal_inv gi g F [] → connected gi → gi ≠ [] →
  spanning_tree (length gi) (edge_list gi) F.
Proof.
  intros Hinv Hconn Hne.
  pose proof (kruskal_inv_length _ _ _ Hinv) as Hlen.
  pose proof (ki_forest _ _ _ _ Hinv) as Hf.
  assert (∀ a b w, (a, b, w) ∈ edge_list gi → find_root g a = find_root g b) as Hedge.
  { intros a b w Hab. destruct (decide (a = b)) as [->|Hab']; [done|].
    destruct (canonical_handle a b w Hab Hab') as (h & e & Hh & He & _ & Hends).
    destruct (ki_done _ _ _ _ Hinv h Hh) as (e1 & r & He1 & Hr1 & Hr2).
    { by intros ?%elem_of_nil. }
    simplify_eq. apply (find_root_eq _ _ _ Hf) in Hr1, Hr2.
    destruct Hends as [[<- <-]|[<- <-]]; congruence. }
  assert (∀ a b, conn (edge_list gi) a b → find_root g a = find_root g b) as Hwalk.
  { induction 1 as [|a y b [w [Hw|Hw]] _ IH]; [done|..].
    - rewrite <- IH. by eapply Hedge.
    - rewrite <- IH. symmetry. by eapply Hedge. }
  assert (0 < length gi) as H0 by (destruct gi; simpl; [done|lia]).
  assert (∀ x, x < length gi → rootof g x (find_root g 0)) as Hall.
  { intros x Hx. rewrite <- (Hwalk x 0) by (by apply Hconn).
    apply find_root_rootof; [done|lia]. }
  assert (num_roots g = 1) as Hone.
  { unfold num_roots.
    rewrite <- (filter_drop_one (is_root g) (λ _, False) _ (find_root g 0)).
    - by rewrite filter_none.
    - apply NoDup_seq.
    - apply elem_of_seq. destruct (rootof_lt _ _ _ (Hall 0 H0)). lia.
    - eapply rootof_is_root. by apply (Hall 0).
    - tauto.
    - intros z Hz. split; [done|]. intros Hroot. apply Hz.
      destruct (rootof_lt _ _ _ (is_root_rootof _ _ Hroot)) as [Hzl _].
      rewrite Hlen in Hzl.
      by eapply rootof_det; [apply is_root_rootof|apply Hall]. }
  split; [apply (ki_edges _ _ _ _ Hinv)|]. split.
  - pose proof (ki_count _ _ _ _ Hinv). lia.
  - intros u v Hu Hv. eapply conn_trans.
    + apply (ki_conn _ _ _ _ Hinv), Hall. done.
    + apply conn_sym, (ki_conn _ _ _ _ Hinv), Hall. done.
Qed.

End KruskalLoop.

Section KruskalPhase.
Context {T : Type} `{EqDecision T}.
Implicit Types (g : Graph T).

(** The union-find phase returns on every graph of [Built], with the
    invariant established for the whole edge list. *)
Lemma kruskal_unionfind_spec g :
  wf g →
  ∃ gu F, kruskal_unionfind g = Done gu ∧
    kruskal_inv (kruskal_deselect (kruskal_init g)) gu F [].
Proof.
  intros Hwf. set (gi := kruskal_deselect (kruskal_init g)).
  assert (wf gi) as Hwfi.
  { eapply wf_estruct; [|exact Hwf]. symmetry. apply kruskal_start_estruct. }
  assert (∀ x, x < length gi → id_of gi x = x) as Hid.
  { intros x Hx. apply kruskal_start_id. unfold gi in Hx.
    by rewrite kruskal_start_length in Hx. }
  destruct (sort_edges_spec gi (kruskal_edges gi)) as [Hperm Hsorted].
  destruct (kruskal_start_forest g) as [Hf Hnum]. fold gi in Hf, Hnum.
  unfold kruskal_unionfind. fold gi.
  replace (S (length g)) with (S (length gi)) by (unfold gi; by rewrite kruskal_start_length).
  apply (kruskal_loop_spec gi Hwfi Hid _ gi []).
  - split; try done.
    + apply safe_nil.
    + by intros f ?%elem_of_nil.
    + by intros a b w ?%elem_of_nil.
    + intros x r Hr. destruct (rootof_lt _ _ _ Hr) as [Hx _].
      assert (rootof gi x x) as Hxx.
      { apply is_root_rootof. unfold is_root, gi. rewrite kruskal_start_lookup.
        unfold gi in Hx. rewrite kruskal_start_length in Hx.
        by destruct (lookup_lt_is_Some_2 g x Hx) as [v ->]. }
      rewrite (rootof_det _ _ _ _ Hr Hxx). apply rtc_refl.
    + intros h Hh Hnt. rewrite Hperm in Hnt. done.
    + unfold gi. by rewrite kruskal_start_weight.
    + intros h e _ He. split; [by eapply kruskal_start_selected|].
      destruct h as [u k].
      destruct (Hwfi u k e He) as (_ & _ & k' & e' & Hr & He' & _).
      exists (dest e, k'), e'. split; [done|]. split; [done|].
      by eapply kruskal_start_selected.
    + rewrite Hnum. simpl. unfold gi. rewrite kruskal_start_length. lia.
  - rewrite Hperm. unfold kruskal_edges. apply NoDup_filter, NoDup_handles.
  - intros h. by rewrite Hperm.
  - done.
Qed.

End KruskalPhase.

(** ** Kruskal: the depth-first reconstruction of the [path] pointers *)

Section Dfs.
Context {T : Type} `{EqDecision T}.
Implicit Types (g : Graph T).

Variable g0 : Graph T.
Variable R : nat → Prop.
Hypothesis Hvalid : ∀ a b w, (a, b, w) ∈ edge_list g0 → b < length g0.
Hypothesis Hclosed : ∀ a b w, (a, b, w) ∈ edge_list g0 → R a → R b.

Lemma num_unvisited_alter g (f : Vertex T → Vertex T) x :
  (∀ v, visited (f v) = visited v) → num_unvisited (alter f x g) = num_unvisited g.
Proof.
  intros Hf. apply num_unvisited_eq.
  rewrite (list_fmap_alter _ _ (λ b, b)) by (by apply Forall_forall).
  by rewrite list_alter_id.
Qed.

Lemma num_unvisited_mark_le g x :
  num_unvisited (alter (set_visited true) x g) ≤ num_unvisited g.
Proof.
  destruct (g !! x) as [v|] eqn:Hv; [destruct (visited v) eqn:Hvis|].
  - rewrite (list_alter_ext _ (λ v, v) g g x); [by rewrite list_alter_id| |done].
    intros u Hu. assert (u = v) as -> by congruence. destruct v; simpl in *. by subst.
  - pose proof (num_unvisited_visit g x v Hv Hvis). lia.
  - rewrite (list_alter_ext _ (λ v, v) g g x); [by rewrite list_alter_id| |done].
    intros u Hu. congruence.
Qed.

(** The [for] loop of [dfsKruskalPath(v)], given that the recursive calls
    behave as specified while fewer than [bound] vertices remain. *)
Lemma dfs_loop_spec (rec : nat → Graph T → outcome (Graph T)) (bound : nat) v es :
  (∀ v' g1, adj <$> g1 = adj <$> g0 → v' < length g0 → R v' →
     num_unvisited (alter (set_visited true) v' g1) < bound →
     dfs_post g0 R v' g1 (rec v' g1)) →
  R v → (∀ e, e ∈ es → (v, dest e, weight e) ∈ edge_list g0) →
  ∀ gc, adj <$> gc = adj <$> g0 → num_unvisited gc ≤ bound →
  ∃ g', dfs_loop rec v es gc = Done g' ∧ adj <$> g' = adj <$> g0 ∧
    num_unvisited g' ≤ num_unvisited gc ∧ ∀ x, ¬ R x → g' !! x = gc !! x.
Proof.
  intros Hrec Hv. induction es as [|e es IH]; intros Hes gc Hadj Hbound.
  - exists gc. done.
  - assert ((v, dest e, weight e) ∈ edge_list g0) as He by (apply Hes; left).
    pose proof (Hvalid _ _ _ He) as Hd. pose proof (Hclosed _ _ _ He Hv) as HRd.
    assert (dest e < length gc) as Hd'.
    { by rewrite (fmap_eq_length _ _ _ Hadj). }
    destruct (lookup_lt_is_Some_2 gc _ Hd') as [d Hdv].
    cbn [dfs_loop]. rewrite Hdv.
    assert (∀ e', e' ∈ es → (v, dest e', weight e') ∈ edge_list g0) as Hes'.
    { intros e' ?. apply Hes. by right. }
    destruct (negb (visited d) && selected e) eqn:Hcond; [|by apply IH].
    apply andb_true_iff in Hcond as [Hvis%negb_true_iff _].
    set (gc' := alter (set_path (Some v)) (dest e) gc).
    assert (adj <$> gc' = adj <$> g0) as Hadj'.
    { rewrite <- Hadj. unfold gc'.
      rewrite (list_fmap_alter _ _ (λ b, b)) by (by apply Forall_forall).
      by rewrite list_alter_id. }
    assert (num_unvisited gc' = num_unvisited gc) as Hnum.
    { by apply num_unvisited_alter. }
    assert (gc' !! dest e = Some (set_path (Some v) d)) as Hdv'.
    { unfold gc'. by rewrite list_lookup_alter_eq, Hdv. }
    pose proof (num_unvisited_visit gc' (dest e) _ Hdv' Hvis) as Hlt.
    destruct (Hrec (dest e) gc' Hadj' Hd HRd) as (g1 & -> & Hadj1 & Hnum1 & Hfr1); [lia|].
    rewrite bind_Done.
    destruct (IH Hes' g1 Hadj1) as (g2 & Hrun & Hadj2 & Hnum2 & Hfr2); [lia|].
    exists g2. split; [done|]. split; [done|]. split; [lia|].
    intros x Hx. rewrite Hfr2, Hfr1 by done. unfold gc'.
    rewrite list_lookup_alter_ne; [done|]. by intros <-.
Qed.

Lemma dfsKruskalPath_spec fuel v g :
  adj <$> g = adj <$> g0 → v < length g0 → R v →
  num_unvisited (alter (set_visited true) v g) ≤ fuel →
  dfs_post g0 R v g (dfsKruskalPath (S fuel) v g).
Proof.
  revert v g. induction fuel as [|fuel IH]; intros v g Hadj Hv HRv Hnum.
  - set (g1 := alter (set_visited true) v g) in *.
    assert (adj <$> g1 = adj <$> g0) as Hadj1.
    { rewrite <- Hadj. unfold g1.
      rewrite (list_fmap_alter _ _ (λ b, b)) by (by apply Forall_forall).
      by rewrite list_alter_id. }
    destruct (dfs_loop_spec (dfsKruskalPath 0) 0 v (from_option adj [] (g1 !! v)))
      with (gc := g1) as (g' & Hrun & Hadj' & Hnum' & Hfr); try done.
    + intros; lia.
    + intros e He. apply elem_of_edge_list.
      destruct (g1 !! v) as [u|] eqn:Hu; [|by apply elem_of_nil in He].
      destruct (fmap_eq_lookup adj g1 g0 v u Hadj1 Hu) as (u0 & Hu0 & Hau).
      exists u0, e. by rewrite Hau.
    + exists g'. split; [done|]. split; [done|]. split; [done|].
      intros x Hx. rewrite Hfr by done. unfold g1.
      rewrite list_lookup_alter_ne; [done|]. by intros ->.
  - set (g1 := alter (set_visited true) v g) in *.
    assert (adj <$> g1 = adj <$> g0) as Hadj1.
    { rewrite <- Hadj. unfold g1.
      rewrite (list_fmap_alter _ _ (λ b, b)) by (by apply Forall_forall).
      by rewrite list_alter_id. }
    destruct (dfs_loop_spec (dfsKruskalPath (S fuel)) (S fuel) v
                (from_option adj [] (g1 !! v)))
      with (gc := g1) as (g' & Hrun & Hadj' & Hnum' & Hfr); try done.
    + intros v' g2 Hadj2 Hv' HRv' Hlt. apply IH; [done..|lia].
    + intros e He. apply elem_of_edge_list.
      destruct (g1 !! v) as [u|] eqn:Hu; [|by apply elem_of_nil in He].
      destruct (fmap_eq_lookup adj g1 g0 v u Hadj1 Hu) as (u0 & Hu0 & Hau).
      exists u0, e. by rewrite Hau.
    + exists g'. split; [done|]. split; [done|]. split; [done|].
      intros x Hx. rewrite Hfr by done. unfold g1.
      rewrite list_lookup_alter_ne; [done|]. by intros ->.
Qed.

End Dfs.

(** ** Kruskal: the complete run *)

Section KruskalResult.
Context {T : Type} `{EqDecision T}.
Implicit Types (g : Graph T).

Lemma wf_edge_list_lt g a b w : wf g → (a, b, w) ∈ edge_list g → b < length g.
Proof.
  intros Hwf (k & e & He & <- & _)%edge_list_has_edge.
  by destruct (Hwf a k e He) as (_ & ? & _).
Qed.

Lemma reach_edge_list g g' x y : edge_list g = edge_list g' → reach g x y → reach g' x y.
Proof. intros Heq. unfold reach. by rewrite Heq. Qed.

(** The tail of [calculateKruskal]: it returns, writes no edge, and leaves
    every vertex that the root does not reach with the [path] it had. *)
Lemma kruskal_paths_spec gu :
  (∀ a b w, (a, b, w) ∈ edge_list gu → b < length gu) → gu ≠ [] →
  ∃ g', kruskal_paths gu = Done g' ∧ adj <$> g' = adj <$> gu ∧
    ∀ x, ¬ reach gu 0 x → g' !! x = set_visited false <$> gu !! x.
Proof.
  intros Hvalid Hne. unfold kruskal_paths.
  assert (0 < length gu) as H0 by (destruct gu; simpl; [done|lia]).
  set (g1 := set_visited false <$> gu).
  assert (adj <$> g1 = adj <$> gu) as Hadj1.
  { unfold g1. rewrite <- list_fmap_compose. by apply list_fmap_ext. }
  destruct (lookup_lt_is_Some_2 g1 0) as [v0 Hv0].
  { unfold g1. by rewrite length_fmap. }
  rewrite Hv0.
  set (g2 := alter (set_path None) 0 g1).
  assert (adj <$> g2 = adj <$> gu) as Hadj2.
  { rewrite <- Hadj1. unfold g2.
    rewrite (list_fmap_alter _ _ (λ b, b)) by (by apply Forall_forall).
    by rewrite list_alter_id. }
  assert (∀ a b w, (a, b, w) ∈ edge_list gu → reach gu 0 a → reach gu 0 b) as Hclosed.
  { intros a b w Hab Ha. eapply rtc_r; [exact Ha|]. by exists w. }
  destruct (dfsKruskalPath_spec gu (reach gu 0) Hvalid Hclosed (length gu) 0 g2)
    as (g' & Hrun & Hadj' & _ & Hfr); try done.
  - etrans; [apply num_unvisited_le|]. rewrite length_alter.
    by rewrite (fmap_eq_length _ _ _ Hadj2).
  - exists g'. split; [done|]. split; [done|]. intros x Hx. rewrite Hfr by done.
    unfold g2. rewrite list_lookup_alter_ne.
    + unfold g1. by rewrite list_lookup_fmap.
    + intros <-. apply Hx, rtc_refl.
Qed.

Lemma kruskal_start_wf g : wf g → wf (kruskal_deselect (kruskal_init g)).
Proof. intros. eapply wf_estruct; [|done]. symmetry. apply kruskal_start_estruct. Qed.

Lemma kruskal_start_edge_list g : edge_list (kruskal_deselect (kruskal_init g)) = edge_list g.
Proof. apply edge_list_estruct, kruskal_start_estruct. Qed.

(** The whole of [calculateKruskal] on a non-empty graph of [Built]. *)
Lemma calculateKruskal_spec g :
  wf g → g ≠ [] →
  ∃ gu F gk, kruskal_unionfind g = Done gu ∧
    kruskal_inv (kruskal_deselect (kruskal_init g)) gu F [] ∧
    calculateKruskal g = Done gk ∧
    length gu = length g ∧ edge_list gu = edge_list g ∧
    adj <$> gk = adj <$> gu ∧
    ∀ x, ¬ reach g 0 x → gk !! x = set_visited false <$> gu !! x.
Proof.
  intros Hwf Hne. destruct (kruskal_unionfind_spec g Hwf) as (gu & F & Hrun & Hinv).
  pose proof (skeleton_estruct _ _ (ki_skeleton _ _ _ _ Hinv)) as Hest.
  assert (length gu = length g) as Hlen.
  { rewrite (fmap_eq_length _ _ _ Hest). apply kruskal_start_length. }
  assert (edge_list gu = edge_list g) as Hel.
  { rewrite (edge_list_estruct _ _ Hest). apply kruskal_start_edge_list. }
  destruct (kruskal_paths_spec gu) as (gk & Hrun' & Hadj & Hfr).
  { intros a b w Hab. rewrite Hlen. rewrite Hel in Hab. by eapply wf_edge_list_lt. }
  { intros ->. by destruct g. }
  exists gu, F, gk. split; [done|]. split; [done|].
  split; [unfold calculateKruskal; by rewrite Hrun, bind_Done|].
  split; [done|]. split; [done|]. split; [done|].
  intros x Hx. apply Hfr. intros Hr. apply Hx. by eapply reach_edge_list.
Qed.

(** On a connected graph the selected edges weigh twice a minimum
    spanning tree. *)
Lemma calculateKruskal_mst g :
  wf g → g ≠ [] → connected g →
  ∃ gk F, calculateKruskal g = Done gk ∧ length gk = length g ∧
    edge_list gk = edge_list g ∧
    selected_weight gk = (2 * total_weight F)%Z ∧
    minimum_spanning_tree (length g) (edge_list g) F.
Proof.
  intros Hwf Hne Hconn.
  destruct (calculateKruskal_spec g Hwf Hne)
    as (gu & F & gk & _ & Hinv & Hrun & Hlen & Hel & Hadj & _).
  exists gk, F. split; [done|].
  split; [by rewrite (fmap_eq_length _ _ _ Hadj)|].
  split; [by rewrite (edge_list_adj gk gu)|].
  split; [rewrite (selected_weight_adj gk gu) by done; apply (ki_weight _ _ _ _ Hinv)|].
  set (gi := kruskal_deselect (kruskal_init g)) in *.
  assert (length gi = length g) as Hleni by apply kruskal_start_length.
  pose proof (kruskal_start_edge_list g) as Heli. fold gi in Heli.
  rewrite <- Hleni, <- Heli.
  apply safe_spanning_minimum; [apply (ki_safe _ _ _ _ Hinv)|].
  apply (kruskal_spanning gi) with (g := gu); [by apply kruskal_start_wf| |done| |].
  - intros x Hx. apply kruskal_start_id. by rewrite <- Hleni.
  - intros u v Hu Hv. rewrite Heli. apply Hconn; by rewrite <- Hleni.
  - intros Heq. rewrite Heq in Hleni. by destruct g.
Qed.

Lemma minimum_spanning_tree_weight n E F F' :
  minimum_spanning_tree n E F → minimum_spanning_tree n E F' →
  total_weight F = total_weight F'.
Proof.
  intros [HF Hmin] [HF' Hmin']. specialize (Hmin F' HF'). specialize (Hmin' F HF). lia.
Qed.

(** C2 (as amended). On a non-empty connected graph built with
    [addBidirectionalEdge] whose edge weights are all below [INF], the
    weights of the edges selected by [calculateKruskal] add up to twice
    the sum of the non-root [dist] left by [calculatePrim]: halved, the
    former equals the latter.  The same holds when [calculatePrim] is run
    on the graph that [calculateKruskal] returned. *)
Theorem kruskal_prim_weight g :
  Built g → g ≠ [] → connected g → light g →
  ∃ gk gp, calculateKruskal g = Done gk ∧ calculatePrim g = Done gp ∧
    selected_weight gk = (2 * dist_sum gp)%Z ∧
    (selected_weight gk / 2)%Z = dist_sum gp ∧
    ∃ gs, calculatePrim gk = Done gs ∧ (selected_weight gs / 2)%Z = dist_sum gs.
Proof.
  intros HB Hne Hconn Hlight. pose proof (Built_wf g HB) as Hwf.
  destruct (calculateKruskal_mst g Hwf Hne Hconn) as (gk & F & Hk & Hlenk & Helk & Hsel & HF).
  destruct (calculatePrim_tree g Hne) as (gp & Hp & _ & _ & _ & Hsum & HP); try done.
  { intros a b w. by apply wf_edge_list_sym. }
  assert (∀ z : Z, (2 * z / 2)%Z = z) as Hhalf.
  { intros z. rewrite Z.mul_comm. by apply Z.div_mul. }
  exists gk, gp. split; [done|]. split; [done|].
  rewrite Hsel, Hsum, (minimum_spanning_tree_weight _ _ _ _ HF HP).
  split; [done|]. split; [apply Hhalf|].
  assert (gk ≠ []) as Hnek by (intros ->; by destruct g).
  destruct (calculatePrim_tree gk Hnek) as (gs & Hs & _ & _ & _ & Hsums & HS).
  { intros a b w. rewrite Helk. by apply wf_edge_list_sym. }
  { intros e. rewrite Helk. apply Hlight. }
  { intros u v. rewrite Hlenk, Helk. apply Hconn. }
  exists gs. split; [done|].
  destruct (calculatePrim_basic gk Hnek) as (gs' & Hs' & Hb).
  assert (gs' = gs) as -> by congruence.
  rewrite (selected_weight_adj gs gk) by apply (prim_reset_adj _ _ (pb_frame _ _ Hb)).
  rewrite Hsel, Hsums. rewrite Hlenk, Helk in HS.
  rewrite (minimum_spanning_tree_weight _ _ _ _ HF HS). apply Hhalf.
Qed.

(** C9. After [calculateKruskal] on a non-empty graph built with
    [addBidirectionalEdge], every vertex outside the connected component of
    the root (position 0) has the [path] it had when the union-find phase
    ended: a pointer to a vertex of its own disjoint set (possibly itself),
    never null. *)
Theorem calculateKruskal_other_components g :
  Built g → g ≠ [] →
  ∃ gu gk, kruskal_unionfind g = Done gu ∧ calculateKruskal g = Done gk ∧
    ∀ x, x < length g → ¬ conn (edge_list g) 0 x →
      ∃ vu vk p r, gu !! x = Some vu ∧ gk !! x = Some vk ∧
        path vk = path vu ∧ path vu = Some p ∧ rootof gu x r ∧ rootof gu p r.
Proof.
  intros HB Hne. pose proof (Built_wf g HB) as Hwf.
  destruct (calculateKruskal_spec g Hwf Hne)
    as (gu & F & gk & Hu & Hinv & Hk & Hlen & _ & _ & Hfr).
  exists gu, gk. split; [done|]. split; [done|]. intros x Hx Hnc.
  rewrite <- Hlen in Hx. destruct (lookup_lt_is_Some_2 gu x Hx) as [vu Hvu].
  pose proof (ki_forest _ _ _ _ Hinv) as Hf.
  destruct (uf_parent gu Hf x vu Hvu) as (p & vp & Hp & Hvp & _).
  destruct (rootof_exists gu x Hf Hx) as [r Hr].
  exists vu, (set_visited false vu), p, r. split; [done|]. split.
  { rewrite Hfr, Hvu; [done|]. intros Hreach. by apply Hnc, reach_conn. }
  split; [done|]. split; [done|]. split; [done|].
  inversion Hr as [? v Hv Hpv|? v p' ? Hv Hpv Hne' Hr']; simplify_eq; done.
Qed.

End KruskalResult.

(** ** Exceptions *)

Section Exceptions.
Context {T : Type} `{EqDecision T}.
Implicit Types (g : Graph T).

Lemma bind_OutOfRange {A B} (m : outcome A) (k : A → outcome B) :
  (m ≫= k) = OutOfRange → m = OutOfRange ∨ ∃ a, m = Done a ∧ k a = OutOfRange.
Proof. destruct m; simpl; eauto; done. Qed.

Lemma findSet_no_throw fuel x g :
  findSet fuel x g ≠ OutOfRange ∧
  ∀ r g', findSet fuel x g = Done (r, g') → length g' = length g.
Proof.
  revert x. induction fuel as [|fuel IH]; intros x; [done|]. cbn [findSet].
  destruct (path <$> g !! x) as [[p|]|]; try done.
  destruct (decide (x ≠ p)); [|split; [done|by intros ?? [= <- <-]]].
  destruct (IH p) as [Hno Hlen]. destruct (findSet fuel p g) as [[r g1]| | |]; try done.
  rewrite bind_Done. split; [done|]. intros r' g' [= <- <-].
  rewrite length_alter. by eapply Hlen.
Qed.

Lemma linkSets_no_throw fuel x y g :
  linkSets fuel x y g ≠ OutOfRange ∧
  ∀ g', linkSets fuel x y g = Done g' → length g' = length g.
Proof.
  unfold linkSets. destruct (findSet_no_throw fuel x g) as [Hno1 Hlen1].
  destruct (findSet fuel x g) as [[i g1]| | |]; try done. rewrite bind_Done.
  destruct (findSet_no_throw fuel y g1) as [Hno2 Hlen2].
  destruct (findSet fuel y g1) as [[j g2]| | |]; try done. rewrite bind_Done.
  specialize (Hlen1 _ _ eq_refl). specialize (Hlen2 _ _ eq_refl).
  destruct (g2 !! i), (g2 !! j); try done.
  repeat case_decide; (split; [done|]); intros g' [= <-]; rewrite ?length_alter; congruence.
Qed.

Lemma kruskal_step_no_throw fuel g h :
  kruskal_step fuel g h ≠ OutOfRange ∧
  ∀ g', kruskal_step fuel g h = Done g' → length g' = length g.
Proof.
  unfold kruskal_step. destruct (edge_at g h) as [e|]; [|done].
  destruct (findSet_no_throw fuel (orig e) g) as [Hno1 Hlen1].
  destruct (findSet fuel (orig e) g) as [[r1 g1]| | |]; try done. rewrite bind_Done.
  destruct (findSet_no_throw fuel (dest e) g1) as [Hno2 Hlen2].
  destruct (findSet fuel (dest e) g1) as [[r2 g2]| | |]; try done. rewrite bind_Done.
  specialize (Hlen1 _ _ eq_refl). specialize (Hlen2 _ _ eq_refl).
  case_decide; [|split; [done|intros g' [= <-]; congruence]].
  destruct (linkSets_no_throw fuel (orig e) (dest e) g2) as [Hno3 Hlen3].
  destruct (linkSets fuel (orig e) (dest e) g2) as [g3| | |]; try done. rewrite bind_Done.
  specialize (Hlen3 _ eq_refl).
  destruct (reverse e); [|done]. split; [done|]. intros g' [= <-].
  unfold alter_edge. rewrite !length_alter. congruence.
Qed.

Lemma kruskal_loop_no_throw fuel hs g :
  kruskal_loop fuel hs g ≠ OutOfRange ∧
  ∀ g', kruskal_loop fuel hs g = Done g' → length g' = length g.
Proof.
  revert g. induction hs as [|h hs IH]; intros g; [split; [done|by intros g' [= <-]]|].
  cbn [kruskal_loop]. destruct (kruskal_step_no_throw fuel g h) as [Hno Hlen].
  destruct (kruskal_step fuel g h) as [g1| | |]; try done. rewrite bind_Done.
  specialize (Hlen _ eq_refl). destruct (IH g1) as [Hno' Hlen'].
  split; [done|]. intros g' Hg'. rewrite (Hlen' g' Hg'). done.
Qed.

Lemma dfs_loop_no_throw (rec : nat → Graph T → outcome (Graph T)) v es g :
  (∀ v' g', rec v' g' ≠ OutOfRange) → dfs_loop rec v es g ≠ OutOfRange.
Proof.
  intros Hrec. revert g. induction es as [|e es IH]; intros g; [done|].
  cbn [dfs_loop]. destruct (g !! dest e); [|done].
  destruct (negb (visited v0) && selected e); [|apply IH].
  specialize (Hrec (dest e) (alter (set_path (Some v)) (dest e) g)).
  destruct (rec _ _); try done. rewrite bind_Done. apply IH.
Qed.

Lemma dfsKruskalPath_no_throw fuel v g : dfsKruskalPath fuel v g ≠ OutOfRange.
Proof.
  revert v g. induction fuel as [|fuel IH]; intros v g; [done|].
  cbn [dfsKruskalPath]. by apply dfs_loop_no_throw.
Qed.

Lemma calculateKruskal_OutOfRange g : calculateKruskal g = OutOfRange ↔ g = [].
Proof.
  split; [|by intros ->].
  unfold calculateKruskal, kruskal_unionfind.
  destruct (kruskal_loop_no_throw (S (length g))
              (sort_edges (kruskal_deselect (kruskal_init g))
                 (kruskal_edges (kruskal_deselect (kruskal_init g))))
              (kruskal_deselect (kruskal_init g))) as [Hno Hlen].
  destruct (kruskal_loop _ _ _) as [gu| | |]; try done. rewrite bind_Done.
  specialize (Hlen _ eq_refl). rewrite kruskal_start_length in Hlen.
  unfold kruskal_paths. destruct gu as [|v gu].
  - intros _. by destruct g.
  - simpl ((_ <$> _) !! 0). cbv beta iota. intros Hthrow.
    by apply dfsKruskalPath_no_throw in Hthrow.
Qed.

Lemma calculatePrim_OutOfRange g : calculatePrim g = OutOfRange ↔ g = [].
Proof.
  split; [|by intros ->]. intros Hthrow. destruct g as [|v g]; [done|].
  destruct (calculatePrim_basic (v :: g)) as (g' & Hrun & _); [done|]. congruence.
Qed.

(** C3 (as amended). The construction operations report failure through
    their return value ([false], or the not-found sentinel of
    [findVertex]); [calculatePrim] and [calculateKruskal] throw
    [std::out_of_range], from [vertexSet.at(0)], exactly when the graph has
    no vertex.  On a non-empty graph [calculatePrim] returns, and so does
    [calculateKruskal] on a non-empty graph built with
    [addBidirectionalEdge]. *)
Theorem graph_exceptions :
  (∀ g x, findVertex g x = None ↔ ∀ v, v ∈ g → info v ≠ x) ∧
  (∀ g x, (addVertex x g).1 = false ↔ findVertex g x ≠ None) ∧
  (∀ g a b w, (addEdge a b w g).1 = false ↔
     findVertex g a = None ∨ findVertex g b = None) ∧
  (∀ g a b w, (addBidirectionalEdge a b w g).1 = false ↔
     findVertex g a = None ∨ findVertex g b = None) ∧
  (∀ g, calculatePrim g = OutOfRange ↔ g = []) ∧
  (∀ g, calculateKruskal g = OutOfRange ↔ g = []) ∧
  (∀ g, g ≠ [] → ∃ g', calculatePrim g = Done g') ∧
  (∀ g, Built g → g ≠ [] → ∃ g', calculateKruskal g = Done g').
Proof.
  split; [apply findVertex_None|]. split.
  { intros g x. unfold addVertex. destruct (findVertex g x); simpl; naive_solver. }
  split.
  { intros g a b w. unfold addEdge.
    destruct (findVertex g a), (findVertex g b); simpl; naive_solver. }
  split.
  { intros g a b w.
    destruct (findVertex g a) as [v1|] eqn:E1; [destruct (findVertex g b) as [v2|] eqn:E2|].
    - rewrite (addBidirectionalEdge_eq g a b w v1 v2 E1 E2). simpl. naive_solver.
    - unfold addBidirectionalEdge. rewrite E1, E2. simpl. naive_solver.
    - unfold addBidirectionalEdge. rewrite E1. simpl. naive_solver. }
  split; [apply calculatePrim_OutOfRange|].
  split; [apply calculateKruskal_OutOfRange|]. split.
  - intros g Hne. destruct (calculatePrim_basic g Hne) as (g' & ? & _). eauto.
  - intros g HB Hne.
    destruct (calculateKruskal_spec g (Built_wf g HB) Hne) as (_ & _ & gk & _ & _ & ? & _).
    eauto.
Qed.

End Exceptions.

(** ** TP4/ex1.cpp: the two factorials agree *)

Lemma wrap_mul_r a b : wrap (a * wrap b) = wrap (a * b).
Proof. unfold wrap. apply Zmult_mod_idemp_r. Qed.

Lemma factorialRecurs_fact n : factorialRecurs n = wrap (Z.of_nat (fact n)).
Proof.
  induction n as [|n IH]; [done|]. cbn [factorialRecurs].
  case_decide as Hn.
  - injection Hn as ->. done.
  - rewrite IH, wrap_mul_r. f_equal. change (fact (S n)) with (S n * fact n). lia.
Qed.

(** C10. For every [n] below the size of the memo array, [factorialDP]
    returns what [factorialRecurs] returns, which is [n!] modulo 2^64: the
    array is zeroed on every call, so the memo lookup never hits. *)
Theorem factorialDP_factorialRecurs n :
  n < DP_SIZE →
  factorialDP n = Done (factorialRecurs n) ∧
  replicate DP_SIZE 0%Z !! n = Some 0%Z ∧
  factorialRecurs n = wrap (Z.of_nat (fact n)).
Proof.
  intros Hn. split; [|split; [by apply lookup_replicate_2|apply factorialRecurs_fact]].
  induction n as [|n IH]; [done|]. cbn [factorialDP factorialRecurs].
  case_decide; [done|].
  rewrite lookup_replicate_2 by done. rewrite decide_False by (by intros []).
  rewrite IH by lia. by rewrite bind_Done.
Qed.

(** ** The example graphs *)

Lemma connected_from_root {T} (g : Graph T) :
  (∀ x, x < length g → conn (edge_list g) 0 x) → connected g.
Proof.
  intros Hroot u v Hu Hv. eapply conn_trans; [apply conn_sym|]; by apply Hroot.
Qed.

Lemma ex_graph_Built : Built ex_graph.
Proof. solve_built. Qed.

Lemma ex_graph_connected : connected ex_graph.
Proof.
  apply connected_from_root. intros x Hx.
  assert (conn (edge_list ex_graph) 0 1) as H1 by (apply (conn_edge _ _ _ 1%Z); solve_mem).
  assert (conn (edge_list ex_graph) 1 2) as H2 by (apply (conn_edge _ _ _ 2%Z); solve_mem).
  assert (conn (edge_list ex_graph) 2 3) as H3 by (apply (conn_edge _ _ _ 3%Z); solve_mem).
  destruct x as [|[|[|[|x]]]]; [apply rtc_refl|done|..].
  - by eapply conn_trans.
  - eapply conn_trans; [|exact H3]. by eapply conn_trans.
  - vm_compute in Hx. lia.
Qed.

Lemma ex_graph_light : light ex_graph.
Proof. solve_light. Qed.

Lemma ex_split_Built : Built ex_split.
Proof. solve_built. Qed.

Lemma ex_heavy_Built : Built ex_heavy.
Proof. solve_built. Qed.

Lemma ex_heavy_connected : connected ex_heavy.
Proof.
  apply connected_from_root. intros x Hx.
  destruct x as [|[|x]]; [apply rtc_refl| |vm_compute in Hx; lia].
  apply (conn_edge _ _ _ INF). solve_mem.
Qed.

Lemma ex_heavy_path_Built : Built ex_heavy_path.
Proof. solve_built. Qed.

Lemma ex_heavy_path_connected : connected ex_heavy_path.
Proof.
  apply connected_from_root. intros x Hx.
  assert (conn (edge_list ex_heavy_path) 0 1) as H1
    by (apply (conn_edge _ _ _ INF); solve_mem).
  assert (conn (edge_list ex_heavy_path) 1 2) as H2
    by (apply (conn_edge _ _ _ 1%Z); solve_mem).
  destruct x as [|[|[|x]]]; [apply rtc_refl|done| |vm_compute in Hx; lia].
  by eapply conn_trans.
Qed.

(** ** Counterexamples to the claims as first stated *)

(** C1 as stated fails on [ex_heavy], a connected graph built with
    [addBidirectionalEdge]: its edge weighs [INF], the test
    [destV->dist > e->weight] never succeeds, and the second vertex is
    left without a parent.  On the graph without vertices the call throws. *)
Lemma calculatePrim_heavy_edge :
  (Built ex_heavy ∧ connected ex_heavy ∧
   ∃ g', calculatePrim ex_heavy = Done g' ∧
     num_parents g' = 0 ∧ length ex_heavy - 1 = 1) ∧
  (Built (@nil (Vertex nat)) ∧ calculatePrim (@nil (Vertex nat)) = OutOfRange).
Proof.
  split; [|split; [apply Built_empty|reflexivity]].
  split; [apply ex_heavy_Built|]. split; [apply ex_heavy_connected|].
  eexists. split; [vm_compute; reflexivity|]. split; reflexivity.
Qed.

(** C2 as stated fails on [ex_heavy_path]: [calculatePrim] reaches neither
    the second nor the third vertex and leaves [INF] in both [dist], while
    [calculateKruskal] selects both edges.  On the graph without vertices
    neither call returns a weight. *)
Lemma kruskal_prim_heavy_path :
  (Built ex_heavy_path ∧ connected ex_heavy_path ∧
   ∃ gk gp, calculateKruskal ex_heavy_path = Done gk ∧
     calculatePrim ex_heavy_path = Done gp ∧
     (selected_weight gk / 2)%Z = (INF + 1)%Z ∧ dist_sum gp = (2 * INF)%Z ∧
     (selected_weight gk / 2)%Z ≠ dist_sum gp) ∧
  (Built (@nil (Vertex nat)) ∧
   calculateKruskal (@nil (Vertex nat)) = OutOfRange ∧
   calculatePrim (@nil (Vertex nat)) = OutOfRange).
Proof.
  split; [|split; [apply Built_empty|split; reflexivity]].
  split; [apply ex_heavy_path_Built|]. split; [apply ex_heavy_path_connected|].
  eexists _, _. split; [vm_compute; reflexivity|]. split; [vm_compute; reflexivity|].
  split; [by vm_compute|]. split; [by vm_compute|]. by vm_compute.
Qed.

(** C3 as stated fails on the graph without vertices: both algorithms
    throw [std::out_of_range]. *)
Lemma empty_graph_throws :
  calculatePrim (@nil (Vertex nat)) = OutOfRange ∧
  calculateKruskal (@nil (Vertex nat)) = OutOfRange.
Proof. split; reflexivity. Qed.

(** ** The theorems at concrete inputs *)

(** Each theorem above that has a hypothesis is applied to one of the
    example graphs (or, for the factorial, to 5), where its hypotheses
    hold by computation. *)

Lemma calculatePrim_mst_witness :
  Built ex_graph ∧ ex_graph ≠ [] ∧ connected ex_graph ∧ light ex_graph ∧
  ∃ g', calculatePrim ex_graph = Done g' ∧ length g' = length ex_graph ∧
    num_parents g' = length ex_graph - 1 ∧
    path <$> g' !! 0 = Some None ∧
    dist_sum g' = total_weight (tree_edges g') ∧
    minimum_spanning_tree (length ex_graph) (edge_list ex_graph) (tree_edges g').
Proof.
  split; [apply ex_graph_Built|]. split; [done|].
  split; [apply ex_graph_connected|]. split; [apply ex_graph_light|].
  apply (calculatePrim_mst ex_graph);
    [apply ex_graph_Built|done|apply ex_graph_connected|apply ex_graph_light].
Defined.

Lemma kruskal_prim_weight_witness :
  Built ex_graph ∧ ex_graph ≠ [] ∧ connected ex_graph ∧ light ex_graph ∧
  ∃ gk gp, calculateKruskal ex_graph = Done gk ∧ calculatePrim ex_graph = Done gp ∧
    selected_weight gk = (2 * dist_sum gp)%Z ∧
    (selected_weight gk / 2)%Z = dist_sum gp ∧
    ∃ gs, calculatePrim gk = Done gs ∧ (selected_weight gs / 2)%Z = dist_sum gs.
Proof.
  split; [apply ex_graph_Built|]. split; [done|].
  split; [apply ex_graph_connected|]. split; [apply ex_graph_light|].
  apply (kruskal_prim_weight ex_graph);
    [apply ex_graph_Built|done|apply ex_graph_connected|apply ex_graph_light].
Defined.

Lemma graph_exceptions_witness :
  calculatePrim (@nil (Vertex nat)) = OutOfRange ∧
  ∃ g', calculateKruskal ex_graph = Done g'.
Proof.
  destruct (@graph_exceptions nat _) as (_ & _ & _ & _ & HP & _ & _ & HK).
  split; [by apply HP|]. apply HK; [apply ex_graph_Built|done].
Defined.

Lemma calculatePrim_unreachable_witness :
  ex_split ≠ [] ∧
  ∃ g', calculatePrim ex_split = Done g' ∧ length g' = length ex_split ∧
    (∀ x v, g' !! x = Some v → ¬ reach ex_split 0 x → dist v = INF ∧ path v = None) ∧
    (∀ x v, g' !! x = Some v → ¬ conn (edge_list ex_split) 0 x →
       dist v = INF ∧ path v = None).
Proof. split; [done|]. apply (calculatePrim_unreachable ex_split). done. Defined.

Lemma calculatePrim_idempotent_witness :
  ex_graph ≠ [] ∧
  ∃ g1, calculatePrim ex_graph = Done g1 ∧ calculatePrim g1 = Done g1.
Proof. split; [done|]. apply (calculatePrim_idempotent ex_graph). done. Defined.

Lemma addBidirectionalEdge_spec_witness :
  (addBidirectionalEdge 1 2 5 ex_sets).1 = true ∧
  ∃ i j k1 k2 e1 e2,
    let g' := (addBidirectionalEdge 1 2 5 ex_sets).2 in
    findVertex g' 1 = Some i ∧ findVertex g' 2 = Some j ∧
    edge_at g' (i, k1) = Some e1 ∧ edge_at g' (j, k2) = Some e2 ∧
    (i, k1) ≠ (j, k2) ∧
    orig e1 = i ∧ dest e1 = j ∧ weight e1 = 5%Z ∧ reverse e1 = Some (j, k2) ∧
    orig e2 = j ∧ dest e2 = i ∧ weight e2 = 5%Z ∧ reverse e2 = Some (i, k1).
Proof.
  split; [reflexivity|].
  apply (proj2 (proj2 (addBidirectionalEdge_spec ex_sets 1 2 5%Z))). reflexivity.
Defined.

Lemma addVertex_spec_witness :
  (addVertex 4 ex_sets).1 = true ∧
  (addVertex 4 ex_sets).2 = ex_sets ++ [newVertex 4] ∧
  info (newVertex 4) = 4 ∧ adj (newVertex 4) = [].
Proof.
  split; [reflexivity|].
  apply (proj1 (proj2 (proj2 (addVertex_spec ex_sets 4)))). reflexivity.
Defined.

Lemma disjoint_sets_count_witness :
  uf_trace ex_sets 1 ex_sets_linked ∧
  length ex_sets_linked = length ex_sets ∧
  num_reps ex_sets_linked + 1 = length ex_sets.
Proof.
  assert (uf_trace ex_sets 1 ex_sets_linked) as Htr.
  { apply (uf_trace_link ex_sets 0 (uf_init ex_sets) 0 1).
    - apply uf_trace_init.
    - vm_compute. lia.
    - vm_compute. lia.
    - by vm_compute.
    - reflexivity. }
  split; [done|].
  destruct (disjoint_sets_count ex_sets 1 ex_sets_linked Htr) as (? & ? & _). done.
Defined.

Lemma calculateKruskal_other_components_witness :
  Built ex_split ∧ ex_split ≠ [] ∧
  ∃ gu gk, kruskal_unionfind ex_split = Done gu ∧ calculateKruskal ex_split = Done gk ∧
    ∀ x, x < length ex_split → ¬ conn (edge_list ex_split) 0 x →
      ∃ vu vk p r, gu !! x = Some vu ∧ gk !! x = Some vk ∧
        path vk = path vu ∧ path vu = Some p ∧ rootof gu x r ∧ rootof gu p r.
Proof.
  split; [apply ex_split_Built|]. split; [done|].
  apply (calculateKruskal_other_components ex_split); [apply ex_split_Built|done].
Defined.

Lemma factorialDP_factorialRecurs_witness :
  5 < DP_SIZE ∧ factorialDP 5 = Done (factorialRecurs 5) ∧
  replicate DP_SIZE 0%Z !! 5 = Some 0%Z ∧
  factorialRecurs 5 = wrap (Z.of_nat (fact 5)).
Proof.
  assert (5 < DP_SIZE) as H by (unfold DP_SIZE; lia).
  split; [exact H|]. apply (factorialDP_factorialRecurs 5 H).
Defined.

(** * Further properties of the code *)

(** ** The construction API *)

Section ConstructionMore.
Context {T : Type} `{EqDecision T}.
Implicit Types g : Graph T.

Lemma findVertex_app_l g g' c i :
  findVertex g c = Some i → findVertex (g ++ g') c = Some i.
Proof.
  intros (v & Hv & Hc & Hmin)%findVertex_Some. apply findVertex_Some.
  exists v. split; [by apply lookup_app_l_Some|]. split; [done|].
  intros j u Hj Hlt. apply (Hmin j u); [|done].
  rewrite lookup_app_l in Hj; [done|]. apply lookup_lt_Some in Hv. lia.
Qed.

Lemma findVertex_info g g' :
  info <$> g = info <$> g' → ∀ c, findVertex g c = findVertex g' c.
Proof.
  intros Heq c.
  assert (∀ i x, (∃ v, g !! i = Some v ∧ info v = x) ↔ (∃ v, g' !! i = Some v ∧ info v = x))
    as Hlk.
  { intros i x.
    pose proof (f_equal (λ l, l !! i) Heq) as Hi. simpl in Hi.
    rewrite !list_lookup_fmap in Hi.
    destruct (g !! i) as [v|], (g' !! i) as [v'|]; simplify_eq/=; naive_solver. }
  destruct (findVertex g c) as [i|] eqn:E.
  - symmetry. apply findVertex_Some in E as (v & Hv & Hc & Hmin).
    apply findVertex_Some.
    destruct (proj1 (Hlk i c)) as (v' & Hv' & Hc'); [eauto|].
    exists v'. split; [done|]. split; [done|].
    intros j u Hj Hlt Hu. destruct (proj2 (Hlk j c)) as (u' & Hu' & Hcu); [eauto|].
    by apply (Hmin j u').
  - symmetry. apply findVertex_None. intros v' Hin Hc.
    apply list_elem_of_lookup in Hin as [i Hi].
    destruct (proj2 (Hlk i c)) as (u & Hu & Hcu); [eauto|].
    apply (proj1 (findVertex_None g c) E u); [|done]. by eapply list_elem_of_lookup_2.
Qed.

(** X1. Insert/lookup round trip of [addVertex]: a content that was absent
    is found afterwards at the old end of the vertex set, every other
    lookup is unchanged, and adding the same content again fails and
    changes nothing. *)
Theorem findVertex_addVertex g c :
  (findVertex g c = None → findVertex (addVertex c g).2 c = Some (length g)) ∧
  (∀ i, findVertex g c = Some i → findVertex (addVertex c g).2 c = Some i) ∧
  (∀ c', c' ≠ c → findVertex (addVertex c g).2 c' = findVertex g c') ∧
  addVertex c (addVertex c g).2 = (false, (addVertex c g).2).
Proof.
  assert (findVertex g c = None → findVertex (g ++ [newVertex c]) c = Some (length g)) as Hnew.
  { intros E. apply findVertex_Some. exists (newVertex c).
    split; [by rewrite lookup_app_r, Nat.sub_diag by lia|]. split; [done|].
    intros j u Hj Hlt. rewrite lookup_app_l in Hj by done.
    apply (proj1 (findVertex_None g c) E). by eapply list_elem_of_lookup_2. }
  unfold addVertex. destruct (findVertex g c) as [i|] eqn:E; simpl.
  - split; [done|]. split; [by intros ? [= <-]|]. split; [done|]. by rewrite E.
  - split; [by intros _; apply Hnew|]. split; [done|]. split.
    + intros c' Hne. destruct (findVertex g c') as [j|] eqn:E'.
      * by apply findVertex_app_l.
      * apply findVertex_None. intros v [Hv|Hv%list_elem_of_singleton]%elem_of_app.
        -- by apply (proj1 (findVertex_None g c') E').
        -- subst v. simpl. congruence.
    + by rewrite Hnew.
Qed.

Lemma info_Vertex_addEdge g s d w :
  info <$> (Vertex_addEdge s d w g).2 = info <$> g.
Proof.
  unfold Vertex_addEdge. simpl.
  rewrite (list_fmap_alter _ _ (λ x, x)) by (by apply Forall_forall).
  apply list_alter_id. done.
Qed.

Lemma info_link_pair g v1 v2 w : info <$> link_pair v1 v2 w g = info <$> g.
Proof.
  unfold link_pair.
  rewrite (list_fmap_alter _ _ (λ x, x)) by (by apply Forall_forall).
  rewrite list_alter_id by done.
  rewrite (list_fmap_alter _ _ (λ x, x)) by (by apply Forall_forall).
  by rewrite list_alter_id.
Qed.

Lemma info_addEdge g a b w : info <$> (addEdge a b w g).2 = info <$> g.
Proof.
  unfold addEdge. destruct (findVertex g a), (findVertex g b); try done.
  apply info_Vertex_addEdge.
Qed.

Lemma info_addBidirectionalEdge g a b w :
  info <$> (addBidirectionalEdge a b w g).2 = info <$> g.
Proof.
  destruct (findVertex g a) as [v1|] eqn:E1; [destruct (findVertex g b) as [v2|] eqn:E2|].
  - rewrite (addBidirectionalEdge_eq g a b w v1 v2 E1 E2). apply info_link_pair.
  - unfold addBidirectionalEdge. by rewrite E1, E2.
  - unfold addBidirectionalEdge. by rewrite E1.
Qed.

Lemma Constructed_info_NoDup g : Constructed g → NoDup (info <$> g).
Proof.
  induction 1 as [|g x _ IH|g a b w _ IH|g a b w _ IH].
  - constructor.
  - unfold addVertex. destruct (findVertex g x) as [i|] eqn:E; [done|]. simpl.
    rewrite fmap_app. apply NoDup_app. split; [done|]. split; [|apply NoDup_singleton].
    intros c Hc Hin%list_elem_of_singleton. simpl in Hin. subst c.
    apply list_elem_of_fmap in Hc as (v & Hv & Hin).
    by apply (proj1 (findVertex_None g x) E v).
  - by rewrite info_addEdge.
  - by rewrite info_addBidirectionalEdge.
Qed.

(** X2. The vertex set never holds two vertices with the same content,
    whatever sequence of [addVertex], [addEdge] and [addBidirectionalEdge]
    built the graph, and [findVertex] on the content of a vertex returns
    that very vertex. *)
Theorem Constructed_findVertex g :
  Constructed g →
  NoDup (info <$> g) ∧
  (∀ i v, g !! i = Some v → findVertex g (info v) = Some i) ∧
  (∀ i j vi vj, g !! i = Some vi → g !! j = Some vj → info vi = info vj → i = j).
Proof.
  intros HC. pose proof (Constructed_info_NoDup g HC) as Hnd.
  assert (∀ i j vi vj, g !! i = Some vi → g !! j = Some vj → info vi = info vj → i = j)
    as Hinj.
  { intros i j vi vj Hi Hj Heq.
    apply (NoDup_lookup (info <$> g) i j (info vi)); [done|..].
    - by rewrite list_lookup_fmap, Hi.
    - by rewrite list_lookup_fmap, Hj, Heq. }
  split; [done|]. split; [|done].
  intros i v Hv. apply findVertex_Some. exists v. split; [done|]. split; [done|].
  intros j u Hu Hlt Heq. assert (j = i) by by eapply Hinj. lia.
Qed.

Lemma edge_list_alter_adj g i vi e :
  g !! i = Some vi →
  ∀ x y z, (x, y, z) ∈ edge_list (alter (λ v, set_adj (adj v ++ [e]) v) i g) ↔
    (x, y, z) ∈ edge_list g ∨ (x, y, z) = (i, dest e, weight e).
Proof.
  intros Hi x y z. rewrite !elem_of_edge_list. split.
  - intros (v & e' & Hv & He' & <- & <-).
    destruct (decide (x = i)) as [->|Hne].
    + rewrite list_lookup_alter_eq, Hi in Hv. simplify_eq/=.
      apply elem_of_app in He' as [He'|He'].
      * left. by exists vi, e'.
      * apply list_elem_of_singleton in He'. subst e'. by right.
    + rewrite list_lookup_alter_ne in Hv by done. left. by exists v, e'.
  - intros [(v & e' & Hv & He' & <- & <-)|[= -> -> ->]].
    + destruct (decide (x = i)) as [->|Hne].
      * simplify_eq. exists (set_adj (adj vi ++ [e]) vi), e'.
        rewrite list_lookup_alter_eq, Hi. simpl. split; [done|].
        split; [|done]. apply elem_of_app. by left.
      * exists v, e'. by rewrite list_lookup_alter_ne.
    + exists (set_adj (adj vi ++ [e]) vi), e.
      rewrite list_lookup_alter_eq, Hi. simpl. split; [done|].
      split; [|done]. apply elem_of_app. right. by apply list_elem_of_singleton.
Qed.

(** X3. [addEdge a b w] fails, leaving the graph as it is, exactly when
    [a] or [b] is not the content of a vertex.  Otherwise it appends one
    edge, without a [reverse] link and not selected, to the adjacency list
    of the vertex holding [a]: the graph gains the directed edge from [a]'s
    vertex to [b]'s vertex with weight [w] and nothing else; the number of
    vertices and their contents are unchanged. *)
Theorem addEdge_spec g a b w :
  ((addEdge a b w g).1 = false ↔
     (∀ v, v ∈ g → info v ≠ a) ∨ (∀ v, v ∈ g → info v ≠ b)) ∧
  ((addEdge a b w g).1 = false → (addEdge a b w g).2 = g) ∧
  ((addEdge a b w g).1 = true →
     ∃ i j vi, findVertex g a = Some i ∧ findVertex g b = Some j ∧
       g !! i = Some vi ∧
       (addEdge a b w g).2 =
         <[i := set_adj (adj vi ++ [mkEdge i j w false None]) vi]> g ∧
       ∀ x y z, (x, y, z) ∈ edge_list (addEdge a b w g).2 ↔
         (x, y, z) ∈ edge_list g ∨ (x, y, z) = (i, j, w)) ∧
  getNumVertex (addEdge a b w g).2 = getNumVertex g ∧
  info <$> (addEdge a b w g).2 = info <$> g.
Proof.
  split; [|split; [|split; [|split]]].
  - unfold addEdge. rewrite <- !findVertex_None.
    destruct (findVertex g a), (findVertex g b); simpl; naive_solver.
  - unfold addEdge. by destruct (findVertex g a), (findVertex g b).
  - unfold addEdge.
    destruct (findVertex g a) as [i|] eqn:E1; [|done].
    destruct (findVertex g b) as [j|] eqn:E2; [|done]. intros _.
    destruct (lookup_lt_is_Some_2 g i (findVertex_lt _ _ _ E1)) as [vi Hi].
    exists i, j, vi. split; [done|]. split; [done|]. split; [done|].
    unfold Vertex_addEdge. cbn [snd]. split.
    + apply list_eq. intros n. destruct (decide (n = i)) as [->|Hne].
      * rewrite list_lookup_alter_eq, list_lookup_insert_eq, Hi; [done|].
        by eapply lookup_lt_Some.
      * by rewrite list_lookup_alter_ne, list_lookup_insert_ne.
    + intros x y z. by rewrite (edge_list_alter_adj g i vi _ Hi).
  - unfold getNumVertex, addEdge, Vertex_addEdge.
    destruct (findVertex g a), (findVertex g b); simpl; by rewrite ?length_alter.
  - apply info_addEdge.
Qed.

(** X4. A successful [addBidirectionalEdge a b w] keeps every vertex and
    every existing edge where it was (handles stay valid), and the graph
    gains exactly the two directed edges between the vertices of [a] and
    [b], both with weight [w]. *)
Theorem addBidirectionalEdge_frame g a b w i j :
  findVertex g a = Some i → findVertex g b = Some j →
  let g' := (addBidirectionalEdge a b w g).2 in
  getNumVertex g' = getNumVertex g ∧
  info <$> g' = info <$> g ∧
  (∀ c, findVertex g' c = findVertex g c) ∧
  (∀ h e, edge_at g h = Some e → edge_at g' h = Some e) ∧
  (∀ x y z, (x, y, z) ∈ edge_list g' ↔
     (x, y, z) ∈ edge_list g ∨ (x, y, z) = (i, j, w) ∨ (x, y, z) = (j, i, w)).
Proof.
  intros E1 E2. rewrite (addBidirectionalEdge_eq g a b w i j E1 E2). cbn [snd].
  pose proof (findVertex_lt _ _ _ E1) as H1. pose proof (findVertex_lt _ _ _ E2) as H2.
  destruct (edge_at_link_pair g i j w H1 H2) as (k1 & k2 & Hne & Hn1 & Hn2 & Hiff).
  split; [apply length_link_pair|]. split; [apply info_link_pair|].
  split; [intros c; apply findVertex_info, info_link_pair|].
  split; [intros h e He; apply Hiff; by left|].
  intros x y z. rewrite !edge_list_has_edge. unfold has_edge. split.
  - intros (k & e & He & <- & <-). apply Hiff in He as [He|[[[= -> ->] ->]|[[= -> ->] ->]]].
    + left. by exists k, e.
    + right. by left.
    + right. by right.
  - intros [(k & e & He & <- & <-)|[[= -> -> ->]|[= -> -> ->]]].
    + exists k, e. split; [|done]. apply Hiff. by left.
    + exists k1, (mkEdge i j w false (Some (j, k2))). split; [|done]. apply Hiff.
      right. by left.
    + exists k2, (mkEdge j i w false (Some (i, k1))). split; [|done]. apply Hiff.
      right. by right.
Qed.

(** X5. In a graph built with [addVertex] and [addBidirectionalEdge] every
    edge is stored in the adjacency list of its origin, ends at a vertex
    of the graph, and has a [reverse]: a different edge, stored at the
    destination, that leads back with the same weight and whose own
    [reverse] is the edge itself.  So [e->reverse->reverse == e] and
    [calculateKruskal] never dereferences a null [reverse]. *)
Theorem Built_reverse_pairs g u k e :
  Built g → edge_at g (u, k) = Some e →
  orig e = u ∧ dest e < length g ∧
  ∃ k' e', reverse e = Some (dest e, k') ∧ (dest e, k') ≠ (u, k) ∧
    edge_at g (dest e, k') = Some e' ∧
    orig e' = dest e ∧ dest e' = u ∧ weight e' = weight e ∧
    reverse e' = Some (u, k).
Proof.
  intros HB He. pose proof (Built_wf g HB) as Hwf.
  destruct (Hwf u k e He) as (Ho & Hd & k' & e' & Hr & He' & Hd' & Hw' & Hr' & Hne).
  split; [done|]. split; [done|]. exists k', e'.
  destruct (Hwf (dest e) k' e' He') as (Ho' & _). done.
Qed.


End ConstructionMore.

(** ** [calculatePrim] on arbitrary graphs *)

Section PrimGeneral.
Context {T : Type} `{EqDecision T}.
Implicit Types (g : Graph T) (q : MutablePriorityQueue).

Lemma prim_gen_weaken g0 (st : Graph T * MutablePriorityQueue) c e es :
  prim_gen g0 st c (e :: es) →
  (∀ vb, st.1 !! dest e = Some vb → visited vb = false → (dist vb ≤ weight e)%Z) →
  prim_gen g0 st c es.
Proof.
  intros [Hroot Hpend Hq Hli Hvi Hpar Horph Hrel] Hdone. split; try done.
  - intros e' He'. apply Hpend. by right.
  - intros a b w va vb Hab Ha Hva Hb Hvb.
    destruct (Hrel a b w va vb Hab Ha Hva Hb Hvb) as [?|(-> & e' & He' & <- & <-)]; [by left|].
    apply elem_of_cons in He' as [->|He'].
    + left. by apply Hdone.
    + right. eauto.
Qed.

Lemma prim_relax_gen g0 c (st : Graph T * MutablePriorityQueue) e es :
  prim_basic g0 st → prim_gen g0 st c (e :: es) →
  prim_gen g0 (prim_relax c st e) c es.
Proof.
  intros Hb Hinv. unfold prim_relax.
  destruct (st.1 !! dest e) as [d|] eqn:Hd.
  2:{ apply (prim_gen_weaken _ _ _ e); [done|]. intros vb. rewrite Hd. by intros [=]. }
  destruct (visited d) eqn:Hvd.
  { apply (prim_gen_weaken _ _ _ e); [done|]. intros vb. rewrite Hd. congruence. }
  destruct (decide (weight e < dist d)%Z) as [Hlt|Hge].
  2:{ apply (prim_gen_weaken _ _ _ e); [done|]. intros vb. rewrite Hd. intros [= <-]. lia. }
  destruct Hinv as [Hroot Hpend Hq Hli Hvi Hpar Horph Hrel].
  destruct Hb as [Hfr Hnd Hbq Hvis Hfar Hbb].
  destruct st as [g q]. simpl in *.
  destruct (Hpend e) as (HeE & vc & Hvc & Hvcv); [by left|].
  pose proof (Hbb _ _ Hd) as Hdd.
  assert (dest e ≠ c) as Hdc by (intros Heq; rewrite Heq in Hd; simplify_eq; congruence).
  assert (dest e ≠ 0) as Hd0.
  { intros Heq. destruct Hroot as (v0 & Hv0 & ? & _). rewrite Heq in Hd. simplify_eq. congruence. }
  set (g' := alter (λ v, set_path (Some c) (set_dist (weight e) v)) (dest e) g).
  assert (∀ q', (dist d = INF → dest e ∈ q') → (∀ x, x ∈ q → x ∈ q') →
            prim_gen g0 (g', q') c es) as Hgen.
  { intros q' Hq1 Hq2. split; simpl; unfold g'.
    - destruct Hroot as (v0 & Hv0 & ? & ?). exists v0.
      by rewrite list_lookup_alter_ne.
    - intros e' He'. split; [apply Hpend; by right|].
      exists vc. by rewrite list_lookup_alter_ne.
    - intros x v. rewrite list_lookup_alter. case_decide as Hx.
      + subst x. rewrite Hd. simpl. intros [= <-] _ _.
        destruct (decide (dist d = INF)) as [?|Hne]; [by apply Hq1|].
        apply Hq2, (Hq _ d); [done..|]. lia.
      + intros Hv ??. apply Hq2. by eapply Hq.
    - intros x v. rewrite list_lookup_alter. case_decide as Hx.
      + subst x. rewrite Hd. simpl. intros [= <-] _.
        eapply rtc_r; [eapply (Hli c vc); [done|by eapply Hvi]|].
        exists (weight e). split; [done|lia].
      + apply Hli.
    - intros x v. rewrite list_lookup_alter. case_decide as Hx.
      + subst x. rewrite Hd. simpl. intros [= <-]. simpl. congruence.
      + apply Hvi.
    - intros x v p. rewrite list_lookup_alter. case_decide as Hx.
      + subst x. rewrite Hd. simpl. intros [= <-]. simpl. intros [= <-].
        split; [lia|]. split; [|done]. exists vc. by rewrite list_lookup_alter_ne.
      + intros Hv Hp. destruct (Hpar x v p Hv Hp) as (? & (vp & Hvp & ?) & ?).
        split; [done|]. split; [|done].
        rewrite list_lookup_alter. case_decide; [|eauto].
        subst p. rewrite Hd in Hvp. simplify_eq. congruence.
    - intros x v. rewrite list_lookup_alter. case_decide as Hx.
      + subst x. rewrite Hd. simpl. by intros [= <-].
      + apply Horph.
    - intros a b w va vb Hab. rewrite !list_lookup_alter.
      destruct (decide (dest e = a)) as [<-|Ha].
      { rewrite Hd. simpl. intros [= <-]. simpl. congruence. }
      intros Hva Hvva. case_decide as Hbe.
      + subst b. rewrite Hd. simpl. intros [= <-] _. simpl.
        destruct (Hrel a (dest e) w va d Hab Hva Hvva Hd Hvd)
          as [?|(-> & e' & He' & Hde' & <-)]; [left; lia|].
        apply elem_of_cons in He' as [->|He']; [left; lia|].
        right. eauto.
      + intros Hvb Hvvb.
        destruct (Hrel a b w va vb Hab Hva Hvva Hvb Hvvb)
          as [?|(-> & e' & He' & <- & <-)]; [by left|].
        apply elem_of_cons in He' as [->|He']; [done|].
        right. eauto. }
  case_decide.
  - apply Hgen; unfold pq_insert; set_solver.
  - apply Hgen; [done|]. unfold pq_decreaseKey. done.
Qed.

Lemma foldl_prim_relax_gen g0 c es (st : Graph T * MutablePriorityQueue) :
  prim_basic g0 st → prim_gen g0 st c es → reach g0 0 c →
  prim_gen g0 (foldl (prim_relax c) st es) c [].
Proof.
  revert st. induction es as [|e es IH]; intros st Hb Hinv Hc; [done|]. simpl.
  apply IH; [|by apply prim_relax_gen|done].
  apply prim_relax_basic; [done..|]. apply Hinv. by left.
Qed.

Lemma prim_visit_gen g0 g q c x q1 :
  prim_basic g0 (g, q) → prim_gen g0 (g, q) c [] →
  pq_extractMin (key g) q = Some (x, q1) →
  ∃ vx, g !! x = Some vx ∧ visited vx = false ∧
    prim_gen g0 (alter (set_visited true) x g, q1) x (adj vx).
Proof.
  intros [Hfr Hnd Hbq Hvis Hfar Hbb] [Hroot Hpend Hq Hli Hvi Hpar Horph Hrel] Hex.
  simpl in *.
  apply pq_extractMin_Some in Hex as (Hin & Hperm & Hmin).
  destruct (Hbq x Hin) as (vx & Hvx & Hvxv & Hdx & Hrx).
  exists vx. split; [done|]. split; [done|].
  pose proof (prim_reset_adj _ _ Hfr) as Hadj.
  destruct Hroot as (v0 & Hv0 & Hv0v & Hv0p & Hv0d).
  assert (x ≠ 0) as Hx0 by (intros ->; simplify_eq; congruence).
  assert (∀ y v, alter (set_visited true) x g !! y = Some v →
            ∃ u, g !! y = Some u ∧ dist v = dist u ∧ path v = path u ∧
                 ((y = x ∧ visited v = true) ∨ (y ≠ x ∧ v = u))) as Hlk.
  { intros y v. rewrite list_lookup_alter. case_decide as Hy.
    - subst y. rewrite Hvx. simpl. intros [= <-]. exists vx. simpl.
      split; [done|]. split; [done|]. split; [done|]. by left.
    - intros Hv. exists v. split; [done|]. split; [done|]. split; [done|]. right.
      split; [congruence|done]. }
  assert (∀ y u, g !! y = Some u → visited u = true →
            ∃ v, alter (set_visited true) x g !! y = Some v ∧ visited v = true) as Hkeep.
  { intros y u Hu Huv. rewrite list_lookup_alter. case_decide as Hy.
    - subst y. rewrite Hvx. simpl. eauto.
    - eauto. }
  split; simpl.
  - exists v0. by rewrite list_lookup_alter_ne.
  - intros e He. split.
    + apply elem_of_edge_list.
      destruct (adj_lookup g g0 x vx Hadj Hvx) as (vx0 & Hvx0 & Hadjx).
      exists vx0, e. by rewrite Hadjx.
    + rewrite list_lookup_alter_eq, Hvx. simpl. eauto.
  - intros y v Hv Hvv Hdv. destruct (Hlk y v Hv) as (u & Hu & Hd & _ & [[_ ?]|[Hne ->]]);
      [congruence|].
    assert (y ∈ q) as Hyq by (by eapply Hq).
    rewrite Hperm in Hyq. by apply elem_of_cons in Hyq as [?|?].
  - intros y v Hv Hdv. destruct (Hlk y v Hv) as (u & Hu & Hd & _ & _).
    rewrite Hd in Hdv. by eapply Hli.
  - intros y v Hv Hvv. destruct (Hlk y v Hv) as (u & Hu & Hd & _ & [[-> _]|[Hne ->]]).
    + simplify_eq. lia.
    + by eapply Hvi.
  - intros y v p' Hv Hp'. destruct (Hlk y v Hv) as (u & Hu & Hd & Hpu & _).
    rewrite Hpu in Hp'. destruct (Hpar y u p' Hu Hp') as (? & (vp' & Hvp' & ?) & ?).
    rewrite Hd. split; [done|]. split; [|done]. by eapply Hkeep.
  - intros y v Hv Hpv. destruct (Hlk y v Hv) as (u & Hu & Hd & Hpu & [[-> _]|[Hne ->]]).
    + rewrite Hvx in Hu. injection Hu as <-. rewrite Hpv in Hpu.
      destruct (Horph x vx Hvx (eq_sym Hpu)) as [?|[_ ?]]; [done|lia].
    + by apply Horph.
  - intros a b w va vb Hab Hva Hvav Hvb Hvbv.
    destruct (Hlk b vb Hvb) as (ub & Hub & Hdb & _ & [[_ ?]|[Hbx ->]]); [congruence|].
    destruct (Hlk a va Hva) as (ua & Hua & _ & _ & [[-> _]|[Hax ->]]).
    + right. split; [done|].
      apply elem_of_edge_list in Hab as (vx0 & e & Hvx0 & He & ? & ?).
      destruct (adj_lookup g g0 x vx Hadj Hvx) as (vx0' & Hvx0' & Hadjx).
      simplify_eq. exists e. by rewrite <- Hadjx.
    + destruct (Hrel a b w ua ub Hab Hua Hvav Hub Hvbv) as [?|(_ & e & He & _)]; [by left|].
      by apply elem_of_nil in He.
Qed.

Lemma prim_basic_visit g0 g q x q1 :
  prim_basic g0 (g, q) → pq_extractMin (key g) q = Some (x, q1) →
  prim_basic g0 (alter (set_visited true) x g, q1) ∧ reach g0 0 x.
Proof.
  intros [Hfr Hnd Hbq Hvis Hfar Hbb] Hex. simpl in *.
  apply pq_extractMin_Some in Hex as (Hin & Hperm & _).
  destruct (Hbq x Hin) as (vx & Hvx & _ & _ & Hrx). split; [|done].
  rewrite Hperm in Hnd. apply NoDup_cons in Hnd as [Hxq1 Hnd1]. split; simpl.
  - by rewrite prim_reset_alter.
  - done.
  - intros y Hy. assert (y ≠ x) by (by intros ->).
    rewrite list_lookup_alter_ne by done. apply Hbq. rewrite Hperm. by right.
  - intros y u. destruct (decide (y = x)) as [->|Hne]; [done|].
    rewrite list_lookup_alter_ne by done. apply Hvis.
  - intros y u. destruct (decide (y = x)) as [->|Hne]; [done|].
    rewrite list_lookup_alter_ne by done. apply Hfar.
  - intros y u. destruct (decide (y = x)) as [->|Hne].
    + rewrite list_lookup_alter_eq, Hvx. intros [= <-]. simpl. by eapply Hbb.
    + rewrite list_lookup_alter_ne by done. apply Hbb.
Qed.

Lemma prim_step_gen g0 (st st' : Graph T * MutablePriorityQueue) :
  prim_basic g0 st ∧ (∃ c, prim_gen g0 st c []) →
  prim_step st = Some st' →
  (prim_basic g0 st' ∧ ∃ c, prim_gen g0 st' c []) ∧
  num_unvisited st'.1 < num_unvisited st.1.
Proof.
  intros [Hb [c Hinv]] Hstep.
  destruct (prim_step_basic g0 st st' Hb Hstep) as [Hb' Hlt].
  split; [split; [done|]|done].
  destruct st as [g q]. unfold prim_step in Hstep. simpl in *.
  destruct (pq_extractMin (key g) q) as [[x q1]|] eqn:Hex; [|done].
  injection Hstep as <-.
  destruct (prim_visit_gen g0 g q c x q1 Hb Hinv Hex) as (vx & Hvx & Hvxv & Hinv').
  destruct (prim_basic_visit g0 g q x q1 Hb Hex) as [Hbv Hrx].
  exists x. rewrite list_lookup_alter_eq, Hvx. simpl.
  by apply foldl_prim_relax_gen.
Qed.

Lemma prim_gen_first g :
  g ≠ [] →
  ∃ st1, prim_step (alter (set_dist 0) 0 (prim_reset g), pq_insert 0 []) = Some st1 ∧
    ∃ c, prim_gen g st1 c [].
Proof.
  intros Hne. pose proof (prim_basic_init g Hne) as Hb.
  assert (∃ v0, g !! 0 = Some v0) as [v0 Hv0] by (destruct g; [done|eauto]).
  set (g1 := alter (set_dist 0) 0 (prim_reset g)) in *.
  assert (∀ x v, alter (set_visited true) 0 g1 !! x = Some v →
            path v = None ∧ (dist v ≤ INF)%Z ∧
            ((x = 0 ∧ visited v = true ∧ dist v = 0%Z) ∨
             (x ≠ 0 ∧ dist v = INF ∧ visited v = false)))
    as Hlk.
  { intros x v. unfold g1. rewrite !list_lookup_alter, !prim_reset_lookup.
    pose proof INF_pos.
    case_decide as Hx; [subst x; rewrite Hv0|]; simpl.
    - intros [= <-]. simpl. split; [done|]. split; [lia|]. by left.
    - destruct (g !! x); simpl; [|done]. intros [= <-]. simpl.
      split; [done|]. split; [lia|]. right. split; [congruence|done]. }
  assert (∃ v0', alter (set_visited true) 0 g1 !! 0 = Some v0' ∧
                 visited v0' = true ∧ adj v0' = adj v0) as (v0' & Hv0' & Hv0'v & Hadj).
  { unfold g1. rewrite !list_lookup_alter_eq, prim_reset_lookup, Hv0. simpl. eauto. }
  exists (foldl (prim_relax 0) (alter (set_visited true) 0 g1, []) (adj v0')). split.
  { unfold prim_step. cbn [fst snd].
    change (pq_extractMin (key g1) (pq_insert 0 [])) with (Some (0, @nil nat)).
    cbv beta iota. by rewrite Hv0'. }
  exists 0.
  apply foldl_prim_relax_gen; [| |apply rtc_refl].
  - apply (prim_basic_visit g g1 (pq_insert 0 []) 0 []); [done|reflexivity].
  - pose proof INF_pos. split; simpl.
    + exists v0'. split; [done|]. split; [done|].
      destruct (Hlk 0 v0' Hv0') as (? & _ & [(_ & _ & ?)|(? & _)]); done.
    + intros e He. split; [|eauto]. apply elem_of_edge_list. exists v0, e.
      by rewrite <- Hadj.
    + intros y u Hu Huv Hud.
      destruct (Hlk y u Hu) as (_ & _ & [(_ & ? & _)|(_ & ? & _)]); [congruence|lia].
    + intros y u Hu Hud.
      destruct (Hlk y u Hu) as (_ & _ & [(-> & _)|(_ & ? & _)]); [apply rtc_refl|lia].
    + intros y u Hu Huv.
      destruct (Hlk y u Hu) as (_ & _ & [(_ & _ & ?)|(_ & _ & ?)]); [lia|congruence].
    + intros y u p Hu Hp. destruct (Hlk y u Hu) as (? & _). congruence.
    + intros y u Hu _. destruct (Hlk y u Hu) as (_ & _ & [(? & _)|(_ & ? & ?)]); auto.
    + intros a b w va vb Hab Hva Hvav Hvb Hvbv. right.
      destruct (Hlk a va Hva) as (_ & _ & [(-> & _)|(_ & _ & ?)]); [|congruence].
      split; [done|]. apply elem_of_edge_list in Hab as (v0'' & e & ? & He & ? & ?).
      simplify_eq. exists e. by rewrite Hadj.
Qed.

Lemma calculatePrim_gen g :
  g ≠ [] →
  ∃ g', calculatePrim g = Done g' ∧ prim_basic g (g', []) ∧ ∃ c, prim_gen g (g', []) c [].
Proof.
  intros Hne. rewrite calculatePrim_unfold by done.
  destruct (prim_gen_first g Hne) as (st1 & Hstep & Hinv1).
  pose proof (prim_basic_init g Hne) as Hb0.
  destruct (prim_step_basic g _ _ Hb0 Hstep) as [Hb1 Hlt].
  cbn [prim_loop]. rewrite Hstep.
  apply (prim_loop_inv (λ st, prim_basic g st ∧ ∃ c, prim_gen g st c [])).
  - intros st st'. by apply prim_step_gen.
  - done.
  - eapply Nat.lt_le_trans; [exact Hlt|].
    etrans; [apply num_unvisited_le|]. cbn [fst].
    rewrite length_alter. unfold prim_reset. by rewrite length_fmap.
Qed.

(** The state in which [calculatePrim] returns: the invariant, with what
    the empty queue adds to it. *)
Lemma calculatePrim_final g :
  g ≠ [] →
  ∃ g' c, calculatePrim g = Done g' ∧ prim_gen g (g', []) c [] ∧
    (∀ x v, g' !! x = Some v → visited v = false → dist v = INF ∧ path v = None) ∧
    (∀ x, lreach g 0 x → ∀ v, g' !! x = Some v → visited v = true).
Proof.
  intros Hne. destruct (calculatePrim_gen g Hne) as (g' & Hrun & Hb & c & Hinv).
  exists g', c. split; [done|]. split; [done|].
  destruct Hb as [Hfr _ _ _ _ Hbb].
  destruct Hinv as [Hroot _ Hq Hli Hvi Hpar Horph Hrel]. simpl in *.
  pose proof (prim_reset_length _ _ Hfr) as Hlen. split.
  - intros x v Hv Hvv.
    assert (dist v = INF) as Hd.
    { destruct (decide (dist v < INF)%Z) as [Hlt|Hge].
      - by apply (Hq x v Hv Hvv), elem_of_nil in Hlt.
      - specialize (Hbb x v Hv). lia. }
    split; [done|]. destruct (path v) as [p|] eqn:Hp; [|done].
    destruct (Hpar x v p Hv Hp) as (? & _). lia.
  - apply (rtc_ind_r (λ x, ∀ v, g' !! x = Some v → visited v = true) 0).
    + intros v Hv. destruct Hroot as (v0 & ? & ? & _). by simplify_eq.
    + intros y z Hy (w & Hyz & Hw) IH vz Hvz. destruct (visited vz) eqn:Hvvz; [done|].
      pose proof Hyz as (vy0 & _ & Hvy0 & _)%elem_of_edge_list.
      destruct (lookup_lt_is_Some_2 g' y) as [vy Hvy].
      { rewrite Hlen. by eapply lookup_lt_Some. }
      specialize (IH vy Hvy).
      destruct (Hrel y z w vy vz Hyz Hvy IH Hvz Hvvz) as [Hle|(_ & e & He & _)].
      * assert (z ∈ @nil nat) as Hin by (eapply Hq; [done..|lia]).
        by apply elem_of_nil in Hin.
      * by apply elem_of_nil in He.
Qed.

(** X7. On every non-empty graph, directed or not and whatever its
    weights, [calculatePrim] returns with the root (position 0) visited,
    at [dist] 0 and without parent; it visits exactly the vertices that
    the root reaches along edges lighter than [INF]; every other visited
    vertex [x] has a visited parent [p] and [dist] the weight (below [INF])
    of an edge from [p] to [x]; every unvisited vertex keeps [dist = INF]
    and a null [path]. *)
Theorem calculatePrim_reached g :
  g ≠ [] →
  ∃ g', calculatePrim g = Done g' ∧
    (∃ v0, g' !! 0 = Some v0 ∧ visited v0 = true ∧ dist v0 = 0%Z ∧ path v0 = None) ∧
    ∀ x v, g' !! x = Some v →
      (visited v = true ↔ lreach g 0 x) ∧
      (visited v = true → x ≠ 0 →
         ∃ p vp, path v = Some p ∧ g' !! p = Some vp ∧ visited vp = true ∧
           (p, x, dist v) ∈ edge_list g ∧ (dist v < INF)%Z) ∧
      (visited v = false → dist v = INF ∧ path v = None).
Proof.
  intros Hne. destruct (calculatePrim_final g Hne) as (g' & c & Hrun & Hinv & Hun & Hcl).
  destruct Hinv as [Hroot _ Hq Hli Hvi Hpar Horph Hrel]. simpl in *.
  exists g'. split; [done|]. split.
  { destruct Hroot as (v0 & ? & ? & ? & ?). by exists v0. }
  intros x v Hv. split; [split|split].
  - intros Hvv. apply (Hli x v Hv). by apply (Hvi x v Hv).
  - intros Hr. by eapply Hcl.
  - intros Hvv Hx. destruct (path v) as [p|] eqn:Hp.
    + destruct (Hpar x v p Hv Hp) as (? & (vp & ? & ?) & ?). by exists p, vp.
    + destruct (Horph x v Hv Hp) as [?|[? _]]; [done|congruence].
  - by apply (Hun x).
Qed.

(** X8. [calculatePrim] writes only the [visited], [dist] and [path]
    fields (and whatever the priority queue keeps in [queueIndex]): the
    vertex set keeps its length and every vertex its content, its
    adjacency list with all the edges, its [id] and its [rank]. *)
Theorem calculatePrim_frame g :
  g ≠ [] →
  ∃ g', calculatePrim g = Done g' ∧ getNumVertex g' = getNumVertex g ∧
    edge_list g' = edge_list g ∧
    (∀ c, findVertex g' c = findVertex g c) ∧
    ∀ x v, g !! x = Some v →
      ∃ v', g' !! x = Some v' ∧ info v' = info v ∧ adj v' = adj v ∧
        id v' = id v ∧ rank v' = rank v.
Proof.
  intros Hne. destruct (calculatePrim_basic g Hne) as (g' & Hrun & [Hfr _ _ _ _ _]).
  simpl in Hfr. exists g'. split; [done|].
  assert (∀ x v, g !! x = Some v →
            ∃ v', g' !! x = Some v' ∧ info v' = info v ∧ adj v' = adj v ∧
              id v' = id v ∧ rank v' = rank v) as Hlk.
  { intros x v Hv. pose proof (f_equal (λ l, l !! x) Hfr) as Hx. simpl in Hx.
    rewrite !prim_reset_lookup, Hv in Hx. destruct (g' !! x) as [v'|]; [|done].
    simpl in Hx. injection Hx as ? ? ? ? ?. by exists v'. }
  split; [unfold getNumVertex; by rewrite (prim_reset_length _ _ Hfr)|].
  split; [apply edge_list_adj; by apply prim_reset_adj|]. split; [|done].
  intros c. apply findVertex_info. apply list_eq. intros x.
  rewrite !list_lookup_fmap. destruct (g !! x) as [v|] eqn:Hv.
  - destruct (Hlk x v Hv) as (v' & -> & Hi & _). simpl. by rewrite Hi.
  - apply lookup_ge_None in Hv. rewrite <- (prim_reset_length _ _ Hfr) in Hv.
    apply lookup_ge_None in Hv. by rewrite Hv.
Qed.

Lemma lreach_conn g : Built g → light g → ∀ x, lreach g 0 x ↔ conn (edge_list g) 0 x.
Proof.
  intros HB Hlight x. pose proof (Built_wf g HB) as Hwf. split.
  - induction 1 as [|a b c (w & Hab & _) _ IH]; [apply rtc_refl|].
    eapply rtc_l; [|exact IH]. exists w. by left.
  - revert x. apply (rtc_ind_r (λ x, lreach g 0 x) 0); [apply rtc_refl|].
    intros a b Ha (w & [Hab|Hab]) IH.
    + eapply rtc_r; [exact IH|]. exists w. split; [done|]. apply (Hlight _ Hab).
    + apply (wf_edge_list_sym g _ _ _ Hwf) in Hab.
      eapply rtc_r; [exact IH|]. exists w. split; [done|]. apply (Hlight _ Hab).
Qed.

(** X9. On a non-empty graph built with [addBidirectionalEdge] whose
    weights are below [INF], connected or not, [calculatePrim] visits
    exactly the connected component of the root: the vertices of the
    component other than the root are those that end with a non-null
    [path], and each of them hangs from a vertex of the component by an
    edge whose weight is its [dist]. *)
Theorem calculatePrim_component g :
  Built g → g ≠ [] → light g →
  ∃ g', calculatePrim g = Done g' ∧
    ∀ x v, g' !! x = Some v →
      (visited v = true ↔ conn (edge_list g) 0 x) ∧
      (is_Some (path v) ↔ x ≠ 0 ∧ conn (edge_list g) 0 x) ∧
      (∀ p, path v = Some p →
         conn (edge_list g) 0 p ∧ (p, x, dist v) ∈ edge_list g).
Proof.
  intros HB Hne Hlight.
  destruct (calculatePrim_final g Hne) as (g' & c & Hrun & Hinv & Hun & Hcl).
  destruct Hinv as [Hroot _ Hq Hli Hvi Hpar Horph Hrel]. simpl in *.
  destruct Hroot as (v0 & Hv0 & Hv0v & Hv0p & _).
  exists g'. split; [done|]. intros x v Hv.
  assert (∀ y u, g' !! y = Some u → visited u = true ↔ conn (edge_list g) 0 y) as Hvis.
  { intros y u Hu. rewrite <- (lreach_conn g HB Hlight y). split.
    - intros Hvu. apply (Hli y u Hu). by apply (Hvi y u Hu).
    - intros Hr. by eapply Hcl. }
  assert (∀ p, path v = Some p → visited v = true ∧ x ≠ 0) as Hp.
  { intros p Hp. destruct (visited v) eqn:Hvv.
    - split; [done|]. intros ->. rewrite Hv0 in Hv. injection Hv as <-. congruence.
    - destruct (Hun x v Hv Hvv) as [_ ?]. congruence. }
  split; [by apply Hvis|]. split; [split|].
  - intros [p Hpp]. destruct (Hp p Hpp) as [Hvv ?]. split; [done|]. by apply (Hvis x v).
  - intros [Hx Hr]. apply (Hvis x v Hv) in Hr.
    destruct (path v) as [p|] eqn:Hpp; [eauto|].
    destruct (Horph x v Hv Hpp) as [?|[? _]]; [done|congruence].
  - intros p Hpp. destruct (Hpar x v p Hv Hpp) as (_ & (vp & Hvp & Hvpv) & HpE).
    split; [|done]. by apply (Hvis p vp Hvp).
Qed.

End PrimGeneral.

(** ** The disjoint sets: what [findSet] and [linkSets] do to the forest *)

Section UnionFindMore.
Context {T : Type} `{EqDecision T}.
Implicit Types g : Graph T.

Lemma uf_trace_inv g0 k g :
  uf_trace g0 k g → length g = length g0 ∧ uf_inv g ∧ num_roots g + k = length g0.
Proof.
  induction 1 as [|k g x r g' _ (Hlen & Hinv & Hnum) Hrun
                  |k g x y g' _ (Hlen & Hinv & Hnum) Hx Hy Hne Hrun].
  - destruct (uf_init_inv g0) as [? ?]. split; [apply length_imap|]. split; [done|lia].
  - apply findSet_Done in Hrun as [_ Hc]; [|done|lia].
    split; [by rewrite (proj1 Hc)|]. split; [by eapply uf_inv_compressed|].
    by rewrite (num_roots_compressed g g').
  - destruct (linkSets_inv g (S (length g)) x y (find_root g x) (find_root g y) Hinv) as
      (g'' & Hrun' & Hinv' & Hlen' & Hnum' & _); [lia|by apply find_root_rootof..|done|].
    rewrite Hrun in Hrun'. simplify_eq. split; [congruence|]. split; [done|lia].
Qed.



Lemma find_root_compressed g g' y :
  uf_inv g → compressed g g' → y < length g → find_root g' y = find_root g y.
Proof.
  intros Hinv Hc Hy. pose proof (uf_inv_compressed g g' Hinv Hc) as Hinv'.
  pose proof (find_root_rootof g y Hinv Hy) as Hr.
  apply (rootof_compressed g g' _ _ Hinv Hc) in Hr.
  assert (y < length g') as Hy' by (by rewrite (proj1 Hc)).
  exact (rootof_det _ _ _ _ (find_root_rootof g' y Hinv' Hy') Hr).
Qed.

Lemma alter_set_path_root g r :
  is_root g r → alter (set_path (Some r)) r g = g.
Proof.
  unfold is_root. intros Hr. apply list_eq. intros n.
  rewrite list_lookup_alter. case_decide as Hn; [|done]. subst n.
  destruct (g !! r) as [v|]; [|done]. simpl in *.
  f_equal. apply set_path_path. congruence.
Qed.


(** X11. Union.  [linkSets(x, y)] on members of two different sets merges
    exactly these two sets: afterwards [x] and [y] have the same
    representative, which is one of their two former representatives;
    the members of the two sets get it, every other vertex keeps its
    representative; only [path] and [rank] fields are written. *)
Theorem linkSets_union g0 k g x y :
  uf_trace g0 k g → x < length g → y < length g →
  find_root g x ≠ find_root g y →
  ∃ g', linkSets (S (length g)) x y g = Done g' ∧ length g' = length g ∧
    find_root g' x = find_root g' y ∧
    (find_root g' x = find_root g x ∨ find_root g' x = find_root g y) ∧
    (∀ z, z < length g →
       find_root g' z =
         if decide (find_root g z = find_root g x ∨ find_root g z = find_root g y)
         then find_root g' x else find_root g z) ∧
    info <$> g' = info <$> g ∧ adj <$> g' = adj <$> g ∧ id <$> g' = id <$> g.
Proof.
  intros Htr Hx Hy Hne. destruct (uf_trace_inv g0 k g Htr) as (_ & Hinv & _).
  destruct (linkSets_inv g (S (length g)) x y (find_root g x) (find_root g y) Hinv)
    as (g' & Hrun & Hinv' & Hlen & _ & (a & b & Hab & Hroots) & Hfr);
    [lia|by apply find_root_rootof..|done|].
  exists g'. split; [done|]. split; [done|].
  assert (∀ z, z < length g →
            find_root g' z = if decide (find_root g z = a) then b else find_root g z) as Hfind.
  { intros z Hz. pose proof (Hroots z _ (find_root_rootof g z Hinv Hz)) as Hr.
    assert (z < length g') as Hz' by (by rewrite Hlen).
    exact (rootof_det _ _ _ _ (find_root_rootof g' z Hinv' Hz') Hr). }
  pose proof (Hfind x Hx) as Hfx. pose proof (Hfind y Hy) as Hfy.
  split; [|split; [|split; [|split; [|split]]]].
  - rewrite Hfx, Hfy. destruct Hab as [[-> ->]|[-> ->]]; repeat case_decide; congruence.
  - rewrite Hfx. destruct Hab as [[-> ->]|[-> ->]]; repeat case_decide; auto.
  - intros z Hz. rewrite (Hfind z Hz), Hfx.
    destruct Hab as [[-> ->]|[-> ->]]; repeat case_decide; naive_solver.
  - by apply Hfr.
  - by apply Hfr.
  - by apply Hfr.
Qed.

(** X12. [linkSets(x, y)] on two members of the same set (a call that
    [calculateKruskal] never makes) merges nothing, every vertex keeps its
    representative, yet the rank of the common representative goes up
    by one. *)
Theorem linkSets_same_set g0 k g x y :
  uf_trace g0 k g → x < length g → y < length g →
  find_root g x = find_root g y →
  ∃ g2 g', compressed g g2 ∧
    g' = alter (λ v, set_rank (S (rank v)) v) (find_root g x) g2 ∧
    linkSets (S (length g)) x y g = Done g' ∧
    (∀ z r, rootof g z r → rootof g' z r) ∧
    rank <$> g' !! find_root g x = S <$> (rank <$> g !! find_root g x).
Proof.
  intros Htr Hx Hy Heq. destruct (uf_trace_inv g0 k g Htr) as (_ & Hinv & _).
  destruct (lookup_lt_is_Some_2 g x Hx) as [vx Hvx].
  destruct (findSet_spec g (S (length g)) x vx Hinv Hvx) as (r1 & g1 & Hrun1 & Hr1 & Hc1); [lia|].
  assert (find_root g x = r1) as Hfx by (unfold find_root; by rewrite Hrun1).
  pose proof (uf_inv_compressed g g1 Hinv Hc1) as Hinv1.
  assert (length g1 = length g) as Hlen1 by apply Hc1.
  destruct (lookup_lt_is_Some_2 g1 y) as [vy Hvy]; [lia|].
  destruct (findSet_spec g1 (S (length g)) y vy Hinv1 Hvy) as (r2 & g2 & Hrun2 & Hr2 & Hc2);
    [lia|].
  assert (r2 = r1) as ->.
  { pose proof (find_root_rootof g y Hinv Hy) as Hry. rewrite <- Heq, Hfx in Hry.
    apply (rootof_compressed g g1 _ _ Hinv Hc1) in Hry.
    exact (rootof_det _ _ _ _ Hr2 Hry). }
  pose proof (compressed_trans g g1 g2 Hinv Hc1 Hc2) as Hc.
  assert (is_root g2 r1) as Hroot.
  { apply (is_root_compressed g g2 r1 Hinv Hc). by eapply rootof_is_root. }
  destruct (rootof_lt _ _ _ Hr1) as [_ Hr1lt].
  destruct (lookup_lt_is_Some_2 g r1 Hr1lt) as [vr Hvr].
  destruct (proj2 Hc r1 vr Hvr) as (p' & Hvr2 & _).
  exists g2, (alter (λ v, set_rank (S (rank v)) v) r1 g2). rewrite Hfx.
  split; [done|]. split; [done|]. split; [|split].
  - unfold linkSets. rewrite Hrun1, bind_Done. cbv beta iota.
    rewrite Hrun2, bind_Done. cbv beta iota. rewrite Hvr2.
    rewrite decide_False by lia. rewrite decide_True by done.
    by rewrite alter_set_path_root.
  - intros z r Hr. apply (rootof_compressed g g2 _ _ Hinv Hc) in Hr.
    eapply rootof_frame; [|exact Hr].
    rewrite (list_fmap_alter _ _ (λ b, b)) by (by apply Forall_forall).
    by rewrite list_alter_id.
  - rewrite list_lookup_alter_eq, Hvr2, Hvr. done.
Qed.

End UnionFindMore.

(** ** Kruskal: which edges end up selected *)

Section KruskalSelected.
Context {T : Type} `{EqDecision T}.
Implicit Types g : Graph T.

Lemma sel_edge_adj g g' a b : adj <$> g = adj <$> g' → sel_edge g a b → sel_edge g' a b.
Proof.
  intros Hadj (k & e & He & ? & ?). exists k, e.
  by rewrite <- (edge_at_adj g g' _ Hadj).
Qed.

Lemma sel_inv_adj g g' F : adj <$> g = adj <$> g' → sel_inv g F → sel_inv g' F.
Proof.
  intros Hadj [H1 H2]. split.
  - intros h e He. apply H1. by rewrite (edge_at_adj g g' _ Hadj).
  - intros a b w Hab. destruct (H2 a b w Hab). split; by eapply sel_edge_adj.
Qed.

Lemma compressed_adj g g' : compressed g g' → adj <$> g = adj <$> g'.
Proof. intros Hc. symmetry. by apply (compressed_frame adj). Qed.

(** Setting [selected] on the edge [h]: what the other handles see. *)
Lemma edge_at_select g h h0 :
  edge_at (alter_edge (set_selected true) h g) h0 =
    (λ e, if decide (h0 = h) then set_selected true e else e) <$> edge_at g h0.
Proof.
  rewrite edge_at_alter_edge. case_decide as Hh.
  - subst h0. by destruct (edge_at g h).
  - by destruct (edge_at g h0).
Qed.

Section Loop.
Variable gi : Graph T.
Hypothesis Hwf : wf gi.
Hypothesis Hid : ∀ x, x < length gi → id_of gi x = x.

Lemma sel_inv_union g2 g3 F u k e k' :
  sel_inv g2 F → adj <$> g3 = adj <$> g2 → estruct g2 = estruct gi →
  edge_at gi (u, k) = Some e → reverse e = Some (dest e, k') →
  sel_inv (alter_edge (set_selected true) (dest e, k')
             (alter_edge (set_selected true) (u, k) g3))
          (F ++ [(orig e, dest e, weight e)]).
Proof.
  intros [H1 H2] Hadj Hest He Hrev.
  destruct (Hwf u k e He) as (Ho & Hdl & k'' & e' & Hrev' & He' & Hd' & Hw' & Hr' & Hne).
  rewrite Hrev in Hrev'. injection Hrev' as <-.
  destruct (estruct_edge_at gi g2 _ _ (eq_sym Hest) He) as (e2 & He2 & Ho2 & Hd2 & Hw2 & _).
  destruct (estruct_edge_at gi g2 _ _ (eq_sym Hest) He') as (e2' & He2' & Ho2' & Hd2' & Hw2' & _).
  rewrite <- (edge_at_adj g3 g2 _ Hadj) in He2.
  rewrite <- (edge_at_adj g3 g2 _ Hadj) in He2'.
  set (g' := alter_edge (set_selected true) (dest e, k')
               (alter_edge (set_selected true) (u, k) g3)).
  assert (∀ h0, edge_at g' h0 =
            (λ e0, if decide (h0 = (dest e, k')) then set_selected true e0
                   else if decide (h0 = (u, k)) then set_selected true e0 else e0)
              <$> edge_at g3 h0) as Hlk.
  { intros h0. unfold g'. rewrite !edge_at_select.
    destruct (edge_at g3 h0) as [e0|]; [|done]. simpl. by repeat case_decide. }
  split.
  - intros h0 e0. rewrite Hlk. destruct (edge_at g3 h0) as [e3|] eqn:He3; [|done].
    simpl. intros [= <-] Hsel. rewrite Ho.
    destruct (decide (h0 = (dest e, k'))) as [->|Hn1].
    { simplify_eq. simpl. right. rewrite Hd2', Hw2', Hd', Hw'.
      apply elem_of_app. right. by apply list_elem_of_singleton. }
    destruct (decide (h0 = (u, k))) as [->|Hn2].
    { simplify_eq. simpl. left. rewrite Hd2, Hw2.
      apply elem_of_app. right. by apply list_elem_of_singleton. }
    rewrite (edge_at_adj g3 g2 _ Hadj) in He3.
    destruct (H1 h0 e3 He3 Hsel); [left|right]; apply elem_of_app; by left.
  - assert (∀ a b, sel_edge g2 a b → sel_edge g' a b) as Hkeep.
    { intros a b (k0 & e0 & He0 & Hd0 & Hs0). exists k0.
      rewrite <- (edge_at_adj g3 g2 _ Hadj) in He0.
      eexists. rewrite Hlk, He0. simpl. split; [done|].
      repeat case_decide; simpl; done. }
    intros a b w [Hab|Hab%list_elem_of_singleton]%elem_of_app.
    + destruct (H2 a b w Hab). split; by apply Hkeep.
    + injection Hab as -> -> ->. rewrite Ho. split.
      * exists k. eexists. rewrite Hlk, He2. simpl. split; [done|].
        repeat case_decide; simpl; done.
      * exists k'. eexists. rewrite Hlk, He2'. simpl. split; [done|].
        rewrite decide_True by done. simpl. split; [congruence|done].
Qed.

(** One iteration of the loop over the sorted edges, with the record of
    the selected edges. *)
Lemma kruskal_step_sel g F h rest :
  kruskal_inv gi g F (h :: rest) → sel_inv g F →
  NoDup (h :: rest) → (∀ h0, h0 ∈ h :: rest → h0 ∈ kruskal_edges gi) →
  Forall (weight_le gi h) rest →
  ∃ g' F', kruskal_step (S (length gi)) g h = Done g' ∧
    kruskal_inv gi g' F' rest ∧ sel_inv g' F' ∧
    (∀ A (f : Vertex T → A),
       (∀ p v, f (set_path p v) = f v) → (∀ r v, f (set_rank r v) = f v) →
       (∀ a v, f (set_adj a v) = f v) → f <$> g' = f <$> g).
Proof.
  intros Hinv Hsel Hnd Hall Hsorted.
  pose proof (kruskal_inv_length _ _ _ _ Hinv) as Hlen.
  assert (canonical gi h) as Hcan.
  { specialize (Hall h). unfold kruskal_edges in Hall.
    rewrite list_elem_of_filter in Hall. apply Hall. left. }
  apply (canonical_spec gi Hwf Hid) in Hcan as (e & He & Hh1 & _).
  destruct h as [u k]. simpl in Hh1.
  destruct (Hwf u k e He) as (Ho & Hdl & k' & e' & Hrev & _).
  assert (u < length gi) as Hu by (by eapply edge_at_lt).
  destruct (estruct_edge_at gi g _ _
              (eq_sym (skeleton_estruct _ _ (ki_skeleton _ _ _ _ Hinv))) He)
    as (e2 & He2 & Ho2 & Hd2 & Hw2 & Hrv2).
  unfold kruskal_step. rewrite He2, Ho2, Hd2, Hrv2, Hrev.
  pose proof (ki_forest _ _ _ _ Hinv) as Hf.
  assert (orig e < length g) as Hog by (rewrite Ho; lia).
  destruct (lookup_lt_is_Some_2 g _ Hog) as [vu Hvu].
  destruct (findSet_spec g (S (length gi)) _ vu Hf Hvu) as (r1 & g1 & Hf1 & Hr1 & Hc1); [lia|].
  rewrite Hf1, bind_Done. cbv beta iota.
  pose proof (kruskal_inv_compressed _ _ _ _ _ Hinv Hc1) as Hinv1.
  pose proof (ki_forest _ _ _ _ Hinv1) as Hf1'.
  pose proof (kruskal_inv_length _ _ _ _ Hinv1) as Hlen1.
  assert (dest e < length g1) as Hdg by lia.
  destruct (lookup_lt_is_Some_2 g1 _ Hdg) as [vd Hvd].
  destruct (findSet_spec g1 (S (length gi)) _ vd Hf1' Hvd) as (r2 & g2 & Hf2 & Hr2 & Hc2); [lia|].
  rewrite Hf2, bind_Done. cbv beta iota.
  pose proof (kruskal_inv_compressed _ _ _ _ _ Hinv1 Hc2) as Hinv2.
  pose proof (ki_forest _ _ _ _ Hinv2) as Hf2'.
  pose proof (kruskal_inv_length _ _ _ _ Hinv2) as Hlen2.
  assert (sel_inv g2 F) as Hsel2.
  { eapply sel_inv_adj; [|exact Hsel].
    rewrite (compressed_adj g g1 Hc1). by apply compressed_adj. }
  assert (∀ A (f : Vertex T → A), (∀ p v, f (set_path p v) = f v) →
            f <$> g2 = f <$> g) as Hfr2.
  { intros A f Hf0. rewrite (compressed_frame f g1 g2 Hf0 Hc2).
    apply (compressed_frame f g g1 Hf0 Hc1). }
  assert (rootof g2 (orig e) r1) as Hr1'.
  { apply (rootof_compressed g1 g2); [done..|]. by apply (rootof_compressed g g1). }
  assert (rootof g2 (dest e) r2) as Hr2' by (by apply (rootof_compressed g1 g2)).
  destruct (decide (r1 ≠ r2)) as [Hne|Heq%dec_stable].
  - destruct (linkSets_inv g2 (S (length gi)) (orig e) (dest e) r1 r2 Hf2')
      as (g3 & Hrun & Hf3 & Hlen3 & Hnum3 & Hmap & Hframe); [lia|done..|].
    rewrite Hrun, bind_Done. eexists _, _. split; [done|]. split; [|split].
    + by eapply (kruskal_inv_union gi Hwf Hid g2 g3 F (u, k) rest e r1 r2).
    + apply (sel_inv_union g2 g3 F u k e k'); try done.
      * by apply Hframe.
      * apply skeleton_estruct, (ki_skeleton _ _ _ _ Hinv2).
    + intros A f Hp Hr Ha. rewrite !alter_edge_frame by done.
      rewrite (Hframe A f Hp Hr). by apply Hfr2.
  - subst r2. exists g2, F. split; [done|]. split; [|split; [done|]].
    + by eapply (kruskal_inv_skip gi g2 F (u, k) rest e r1).
    + intros A f Hp _ _. by apply Hfr2.
Qed.

Lemma kruskal_loop_sel todo g F :
  kruskal_inv gi g F todo → sel_inv g F →
  NoDup todo → (∀ h, h ∈ todo → h ∈ kruskal_edges gi) →
  StronglySorted (weight_le gi) todo →
  ∃ g' F', kruskal_loop (S (length gi)) todo g = Done g' ∧
    kruskal_inv gi g' F' [] ∧ sel_inv g' F' ∧
    (∀ A (f : Vertex T → A),
       (∀ p v, f (set_path p v) = f v) → (∀ r v, f (set_rank r v) = f v) →
       (∀ a v, f (set_adj a v) = f v) → f <$> g' = f <$> g).
Proof.
  revert g F. induction todo as [|h rest IH]; intros g F Hinv Hsel Hnd Hall Hsorted.
  - exists g, F. done.
  - apply StronglySorted_inv in Hsorted as [Hsorted Hhead].
    destruct (kruskal_step_sel g F h rest Hinv Hsel Hnd Hall Hhead)
      as (g1 & F1 & Hstep & Hinv1 & Hsel1 & Hfr1).
    cbn [kruskal_loop]. rewrite Hstep, bind_Done.
    destruct (IH g1 F1) as (g2 & F2 & Hrun & Hinv2 & Hsel2 & Hfr2);
      [done|done| |intros; apply Hall; by right|done|].
    { by apply NoDup_cons in Hnd as [_ ?]. }
    exists g2, F2. split; [done|]. split; [done|]. split; [done|].
    intros A f Hp Hr Ha. rewrite (Hfr2 A f Hp Hr Ha). by apply Hfr1.
Qed.

(** When the loop has run, two vertices have the same representative
    exactly when they are connected in the graph. *)
Lemma kruskal_same_root g F :
  kruskal_inv gi g F [] →
  ∀ x y, x < length gi → y < length gi →
    find_root g x = find_root g y ↔ conn (edge_list gi) x y.
Proof.
  intros Hinv.
  pose proof (kruskal_inv_length _ _ _ _ Hinv) as Hlen.
  pose proof (ki_forest _ _ _ _ Hinv) as Hf.
  assert (∀ a b w, (a, b, w) ∈ edge_list gi → find_root g a = find_root g b) as Hedge.
  { intros a b w Hab. destruct (decide (a = b)) as [->|Hab']; [done|].
    destruct (canonical_handle gi Hwf Hid a b w Hab Hab') as (h & e & Hh & He & _ & Hends).
    destruct (ki_done _ _ _ _ Hinv h Hh) as (e1 & r & He1 & Hr1 & Hr2).
    { by intros ?%elem_of_nil. }
    simplify_eq. apply (find_root_eq _ _ _ Hf) in Hr1, Hr2.
    destruct Hends as [[<- <-]|[<- <-]]; congruence. }
  assert (∀ a b, conn (edge_list gi) a b → find_root g a = find_root g b) as Hwalk.
  { induction 1 as [|a y b [w [Hw|Hw]] _ IH]; [done|..].
    - rewrite <- IH. by eapply Hedge.
    - rewrite <- IH. symmetry. by eapply Hedge. }
  intros x y Hx Hy. split; [|apply Hwalk].
  - intros Heq.
    pose proof (find_root_rootof g x Hf ltac:(lia)) as Hrx.
    pose proof (find_root_rootof g y Hf ltac:(lia)) as Hry.
    rewrite <- Heq in Hry.
    apply (ki_conn _ _ _ _ Hinv) in Hrx, Hry.
    eapply conn_mono; [|eapply conn_trans; [exact Hrx|by apply conn_sym]].
    apply (ki_edges _ _ _ _ Hinv).
Qed.

End Loop.

(** The union-find phase of [calculateKruskal] on a graph of [Built]. *)
Lemma kruskal_unionfind_sel g :
  wf g →
  ∃ gu F, kruskal_unionfind g = Done gu ∧
    kruskal_inv (kruskal_deselect (kruskal_init g)) gu F [] ∧ sel_inv gu F ∧
    (∀ x y, x < length g → y < length g →
       find_root gu x = find_root gu y ↔ conn (edge_list g) x y) ∧
    (∀ A (f : Vertex T → A),
       (∀ p v, f (set_path p v) = f v) → (∀ r v, f (set_rank r v) = f v) →
       (∀ a v, f (set_adj a v) = f v) → (∀ i v, f (set_id i v) = f v) →
       f <$> gu = f <$> g).
Proof.
  intros Hwf. set (gi := kruskal_deselect (kruskal_init g)).
  assert (wf gi) as Hwfi by (by apply kruskal_start_wf).
  assert (length gi = length g) as Hleni by apply kruskal_start_length.
  assert (∀ x, x < length gi → id_of gi x = x) as Hid.
  { intros x Hx. apply kruskal_start_id. by rewrite <- Hleni. }
  destruct (sort_edges_spec gi (kruskal_edges gi)) as [Hperm Hsorted].
  destruct (kruskal_start_forest g) as [Hf Hnum]. fold gi in Hf, Hnum.
  unfold kruskal_unionfind. fold gi. rewrite <- Hleni.
  destruct (kruskal_loop_sel gi Hwfi Hid (sort_edges gi (kruskal_edges gi)) gi [])
    as (gu & F & Hrun & Hinv & Hsel & Hfr).
  - split; try done.
    + apply safe_nil.
    + by intros f ?%elem_of_nil.
    + by intros a b w ?%elem_of_nil.
    + intros x r Hr. destruct (rootof_lt _ _ _ Hr) as [Hx _].
      assert (rootof gi x x) as Hxx.
      { apply is_root_rootof. unfold is_root, gi. rewrite kruskal_start_lookup.
        rewrite Hleni in Hx.
        by destruct (lookup_lt_is_Some_2 g x Hx) as [v ->]. }
      rewrite (rootof_det _ _ _ _ Hr Hxx). apply rtc_refl.
    + intros h Hh Hnt. rewrite Hperm in Hnt. done.
    + unfold gi. by rewrite kruskal_start_weight.
    + intros h e _ He. split; [by eapply kruskal_start_selected|].
      destruct h as [u k].
      destruct (Hwfi u k e He) as (_ & _ & k' & e' & Hr & He' & _).
      exists (dest e, k'), e'. split; [done|]. split; [done|].
      by eapply kruskal_start_selected.
    + rewrite Hnum. simpl. lia.
  - split.
    + intros h e He Hs. apply (kruskal_start_selected g) in He. congruence.
    + by intros a b w ?%elem_of_nil.
  - rewrite Hperm. unfold kruskal_edges. apply NoDup_filter, NoDup_handles.
  - intros h. by rewrite Hperm.
  - done.
  - exists gu, F. split; [done|]. split; [done|]. split; [done|]. split.
    + intros x y Hx Hy. rewrite <- (kruskal_start_edge_list g). fold gi.
      apply (kruskal_same_root gi Hwfi Hid gu F Hinv); lia.
    + intros A f Hp Hr Ha Hi. rewrite (Hfr A f Hp Hr Ha).
      apply list_eq. intros x. rewrite !list_lookup_fmap. unfold gi.
      rewrite kruskal_start_lookup. destruct (g !! x) as [v|]; [|done]. simpl.
      unfold makeSet. by rewrite Ha, Hi, Hr, Hp.
Qed.

End KruskalSelected.

(** ** Kruskal: the tree of [path]s built by [dfsKruskalPath] *)

Section DfsTree.
Context {T : Type} `{EqDecision T}.
Implicit Types g : Graph T.

Lemma alter_adj g (f : Vertex T → Vertex T) x :
  (∀ v, adj (f v) = adj v) → adj <$> alter f x g = adj <$> g.
Proof.
  intros Hf. rewrite (list_fmap_alter _ _ (λ b, b)) by (by apply Forall_forall).
  by rewrite list_alter_id.
Qed.

Lemma sel_edge_elem g a b :
  sel_edge g a b ↔ ∃ u e, g !! a = Some u ∧ e ∈ adj u ∧ dest e = b ∧ selected e = true.
Proof.
  unfold sel_edge, edge_at. simpl. split.
  - intros (k & e & He & ? & ?). destruct (g !! a) as [u|]; simpl in He; [|done].
    exists u, e. split; [done|]. split; [|done]. by eapply list_elem_of_lookup_2.
  - intros (u & e & Hu & [k Hk]%list_elem_of_lookup & ? & ?). exists k, e.
    rewrite Hu. simpl. done.
Qed.

Lemma paths_only_refl g : paths_only g g.
Proof. split; [done|]. intros x u Hu. exists u. split; [done|]. by destruct u. Qed.

Lemma paths_only_trans g1 g2 g3 : paths_only g1 g2 → paths_only g2 g3 → paths_only g1 g3.
Proof.
  intros [L1 H1] [L2 H2]. split; [congruence|]. intros x u Hu.
  destruct (H1 x u Hu) as (u2 & Hu2 & E2). destruct (H2 x u2 Hu2) as (u3 & Hu3 & E3).
  exists u3. split; [done|]. rewrite E3 at 1. by rewrite E2.
Qed.

Lemma paths_only_alter g (f : Vertex T → Vertex T) x :
  (∀ v, f v = set_visited (visited (f v)) (set_path (path (f v)) v)) →
  paths_only g (alter f x g).
Proof.
  intros Hf. split; [apply length_alter|]. intros y u Hu.
  rewrite list_lookup_alter. case_decide as Hy.
  - subst y. rewrite Hu. simpl. eauto.
  - exists u. split; [done|]. by destruct u.
Qed.

Lemma paths_only_frame {A} (f : Vertex T → A) g g' :
  (∀ p v, f (set_path p v) = f v) → (∀ b v, f (set_visited b v) = f v) →
  paths_only g g' → f <$> g' = f <$> g.
Proof.
  intros Hp Hv [Hlen Hc]. apply list_eq. intros x. rewrite !list_lookup_fmap.
  destruct (g !! x) as [u|] eqn:Hu.
  - destruct (Hc x u Hu) as (u' & -> & E). simpl. by rewrite E, Hv, Hp.
  - apply lookup_ge_None in Hu. rewrite <- Hlen in Hu. apply lookup_ge_None in Hu.
    by rewrite Hu.
Qed.

Lemma frozen_refl g : frozen g g.
Proof. by intros x u. Qed.

Lemma frozen_trans g1 g2 g3 : frozen g1 g2 → frozen g2 g3 → frozen g1 g3.
Proof. intros H12 H23 x u Hu Hv. apply H23; [|done]. by apply H12. Qed.

Lemma anc_frozen g g' x : adj <$> g = adj <$> g' → frozen g g' → anc g x → anc g' x.
Proof.
  intros Hadj Hfr. induction 1 as [v Hv Hvis Hp|x v p Hv Hvis Hp Hx Hsel _ IH].
  - eapply anc_root; [by apply Hfr|done..].
  - eapply anc_step; [by apply Hfr|done..|by eapply sel_edge_adj|done].
Qed.

Lemma anc_root_visited g x : anc g x → ∃ v0, g !! 0 = Some v0 ∧ visited v0 = true.
Proof. induction 1; eauto. Qed.

Lemma sel_closed_frozen g g' x :
  adj <$> g = adj <$> g' → frozen g g' → sel_closed g x → sel_closed g' x.
Proof.
  intros Hadj Hfr Hcl y u' Hsel Hu'.
  apply (sel_edge_adj g' g _ _ (eq_sym Hadj)) in Hsel.
  destruct (lookup_lt_is_Some_2 g y) as [u Hu].
  { rewrite (fmap_eq_length _ _ _ Hadj). by eapply lookup_lt_Some. }
  pose proof (Hcl y u Hsel Hu) as Hvis.
  pose proof (Hfr y u Hu Hvis) as Hu2. congruence.
Qed.

Variable g0 : Graph T.
Hypothesis Hvalid : ∀ a b w, (a, b, w) ∈ edge_list g0 → b < length g0.

(** The [for] loop of [dfsKruskalPath(v)], given that the recursive calls
    behave as specified while fewer than [bound] vertices remain. *)
Lemma dfs_tree_loop (rec : nat → Graph T → outcome (Graph T)) (bound : nat) v es :
  (∀ v' g1, adj <$> g1 = adj <$> g0 → v' < length g0 →
     (∀ x u, alter (set_visited true) v' g1 !! x = Some u → visited u = true →
        anc (alter (set_visited true) v' g1) x) →
     num_unvisited (alter (set_visited true) v' g1) < bound →
     dfs_tree_post g0 v' g1 (rec v' g1)) →
  (∀ e, e ∈ es → ∃ u0, g0 !! v = Some u0 ∧ e ∈ adj u0) →
  ∀ gc, adj <$> gc = adj <$> g0 → num_unvisited gc ≤ bound →
    (∃ uv, gc !! v = Some uv ∧ visited uv = true) →
    (∀ x u, gc !! x = Some u → visited u = true → anc gc x) →
  ∃ g', dfs_loop rec v es gc = Done g' ∧ adj <$> g' = adj <$> g0 ∧
    paths_only gc g' ∧
    num_unvisited g' ≤ num_unvisited gc ∧
    frozen gc g' ∧
    (∀ x u, g' !! x = Some u → visited u = true → anc g' x) ∧
    (∀ x u u', g' !! x = Some u' → visited u' = true →
       gc !! x = Some u → visited u = false → sel_closed g' x) ∧
    (∀ e, e ∈ es → selected e = true →
       ∀ u, g' !! dest e = Some u → visited u = true).
Proof.
  intros Hrec. induction es as [|e es IH]; intros Hes gc Hadj Hbound Hv Hanc.
  - exists gc. split; [done|]. split; [done|]. split; [apply paths_only_refl|].
    split; [done|].
    split; [apply frozen_refl|]. split; [done|]. split.
    + intros x u u' Hu' Hvu' Hu Hvu. congruence.
    + by intros e ?%elem_of_nil.
  - destruct (Hes e) as (u0 & Hu0 & Heu0); [by left|].
    assert ((v, dest e, weight e) ∈ edge_list g0) as He.
    { apply elem_of_edge_list. by exists u0, e. }
    pose proof (Hvalid _ _ _ He) as Hd.
    assert (dest e < length gc) as Hd' by (by rewrite (fmap_eq_length _ _ _ Hadj)).
    destruct (lookup_lt_is_Some_2 gc _ Hd') as [d Hdv].
    cbn [dfs_loop]. rewrite Hdv.
    assert (∀ e', e' ∈ es → ∃ u0, g0 !! v = Some u0 ∧ e' ∈ adj u0) as Hes'.
    { intros e' ?. apply Hes. by right. }
    destruct Hv as (uv & Huv & Huvv).
    destruct (negb (visited d) && selected e) eqn:Hcond.
    2:{ destruct (IH Hes' gc Hadj Hbound)
          as (g2 & Hrun & Hadj2 & Hpo2 & Hnum2 & Hfr2 & Hanc2 & Hcl2 & Hed2);
          [eauto|done|].
        exists g2. split; [done|]. split; [done|]. split; [done|]. split; [done|].
        split; [done|].
        split; [done|]. split; [done|].
        intros e' [->|He']%elem_of_cons Hsel u Hu; [|by eapply Hed2].
        rewrite Hsel, andb_true_r in Hcond. apply negb_false_iff in Hcond.
        pose proof (Hfr2 _ _ Hdv Hcond). congruence. }
    apply andb_true_iff in Hcond as [Hvis%negb_true_iff Hsel].
    set (gc' := alter (set_path (Some v)) (dest e) gc).
    set (gm := alter (set_visited true) (dest e) gc').
    assert (adj <$> gc' = adj <$> g0) as Hadj'.
    { rewrite <- Hadj. by apply alter_adj. }
    assert (adj <$> gm = adj <$> g0) as Hadjm.
    { rewrite <- Hadj'. by apply alter_adj. }
    assert (num_unvisited gc' = num_unvisited gc) as Hnum.
    { by apply num_unvisited_alter. }
    assert (gc' !! dest e = Some (set_path (Some v) d)) as Hdv'.
    { unfold gc'. by rewrite list_lookup_alter_eq, Hdv. }
    pose proof (num_unvisited_visit gc' (dest e) _ Hdv' Hvis) as Hlt. fold gm in Hlt.
    assert (∀ x, x ≠ dest e → gm !! x = gc !! x) as Hne.
    { intros x Hx. unfold gm, gc'. by rewrite !list_lookup_alter_ne. }
    assert (gm !! dest e = Some (set_visited true (set_path (Some v) d))) as Hdm.
    { unfold gm. by rewrite list_lookup_alter_eq, Hdv'. }
    assert (frozen gc gm) as Hfrm.
    { intros x u Hu Hvu. rewrite Hne; [done|]. intros ->. congruence. }
    assert (dest e ≠ 0) as Hd0.
    { intros Heq. destruct (anc_root_visited gc v (Hanc v uv Huv Huvv)) as (v0 & Hv0 & Hv0v).
      rewrite Heq in Hdv. congruence. }
    assert (sel_edge gm v (dest e)) as Hse.
    { apply (sel_edge_adj g0 gm); [done|]. apply sel_edge_elem. by exists u0, e. }
    assert (∀ x u, gm !! x = Some u → visited u = true → anc gm x) as Hancm.
    { intros x u Hu Hvu. destruct (decide (x = dest e)) as [->|Hx].
      - rewrite Hdm in Hu. injection Hu as <-.
        eapply anc_step; [exact Hdm|done|done|done|done|].
        eapply anc_frozen; [|exact Hfrm|by eapply Hanc]. by rewrite Hadj, Hadjm.
      - rewrite (Hne x Hx) in Hu.
        eapply anc_frozen; [|exact Hfrm|by eapply Hanc]. by rewrite Hadj, Hadjm. }
    destruct (Hrec (dest e) gc' Hadj' Hd Hancm)
      as (g1 & -> & Hadj1 & Hpo1 & Hnum1 & Hfr1 & Hanc1 & Hcl1 & Hcld); [fold gm; lia|].
    fold gm in Hnum1, Hfr1, Hcl1.
    rewrite bind_Done.
    destruct (IH Hes' g1 Hadj1)
      as (g2 & Hrun & Hadj2 & Hpo2 & Hnum2 & Hfr2 & Hanc2 & Hcl2 & Hed2);
      [lia| |done|].
    { exists uv. split; [|done]. apply Hfr1; [|done]. by apply Hfrm. }
    exists g2. split; [done|]. split; [done|]. split.
    { eapply paths_only_trans; [|exact Hpo2]. eapply paths_only_trans; [|exact Hpo1].
      apply paths_only_alter. intros u. by destruct u. }
    split; [lia|].
    split; [by eapply frozen_trans; [|exact Hfr2]; eapply frozen_trans|].
    split; [done|]. split.
    + intros x u u' Hu' Hvu' Hu Hvu.
      destruct (lookup_lt_is_Some_2 g1 x) as [u1 Hu1].
      { rewrite (fmap_eq_length _ _ _ Hadj1), <- (fmap_eq_length _ _ _ Hadj).
        by eapply lookup_lt_Some. }
      destruct (visited u1) eqn:Hvu1; [|by eapply (Hcl2 x u1 u')].
      eapply sel_closed_frozen; [|exact Hfr2|]; [by rewrite Hadj1, Hadj2|].
      destruct (decide (x = dest e)) as [->|Hx]; [done|].
      eapply (Hcl1 x u u1); [done..| |done]. by rewrite Hne.
    + intros e' [->|He']%elem_of_cons Hsel' u Hu; [|by eapply Hed2].
      pose proof (Hfr1 _ _ Hdm eq_refl) as Hd1.
      pose proof (Hfr2 _ _ Hd1 eq_refl) as Hd2. rewrite Hd2 in Hu. by injection Hu as <-.
Qed.

Lemma dfsKruskalPath_tree fuel v g :
  adj <$> g = adj <$> g0 → v < length g0 →
  (∀ x u, alter (set_visited true) v g !! x = Some u → visited u = true →
     anc (alter (set_visited true) v g) x) →
  num_unvisited (alter (set_visited true) v g) ≤ fuel →
  dfs_tree_post g0 v g (dfsKruskalPath (S fuel) v g).
Proof.
  revert v g. induction fuel as [|fuel IH]; intros v g Hadj Hv Hanc Hnum.
  all: unfold dfs_tree_post; cbn [dfsKruskalPath].
  all: set (g1 := alter (set_visited true) v g) in *.
  all: assert (adj <$> g1 = adj <$> g0) as Hadj1
         by (rewrite <- Hadj; by apply alter_adj).
  all: assert (∃ uv, g1 !! v = Some uv ∧ visited uv = true) as (uv & Huv & Huvv)
         by (unfold g1; rewrite list_lookup_alter_eq;
             destruct (lookup_lt_is_Some_2 g v) as [u ->];
             [by rewrite (fmap_eq_length _ _ _ Hadj)|simpl; eauto]).
  all: rewrite Huv; cbn [from_option].
  all: destruct (fmap_eq_lookup adj g1 g0 v uv Hadj1 Huv) as (u0 & Hu0 & Hau).
  - destruct (dfs_tree_loop (dfsKruskalPath 0) 0 v (adj uv))
      with (gc := g1) as (g' & Hrun & Hadj' & Hpo & Hnum' & Hfr & Hanc' & Hcl & Hed);
      try done.
    + intros; lia.
    + intros e He. exists u0. by rewrite Hau.
    + eauto.
    + exists g'. split; [done|]. split; [done|]. split.
      { eapply paths_only_trans; [|exact Hpo].
        apply paths_only_alter. intros u. by destruct u. }
      split; [done|]. split; [done|].
      split; [done|]. split; [done|].
      intros y u (u' & e & Hu' & He & <- & Hsel)%sel_edge_elem Hu.
      pose proof (Hfr _ _ Huv Huvv) as Huv'. rewrite Huv' in Hu'. injection Hu' as <-.
      by eapply Hed.
  - destruct (dfs_tree_loop (dfsKruskalPath (S fuel)) (S fuel) v (adj uv))
      with (gc := g1) as (g' & Hrun & Hadj' & Hpo & Hnum' & Hfr & Hanc' & Hcl & Hed);
      try done.
    + intros v' g2 Hadj2 Hv' Hanc2 Hlt. apply IH; [done..|lia].
    + intros e He. exists u0. by rewrite Hau.
    + eauto.
    + exists g'. split; [done|]. split; [done|]. split.
      { eapply paths_only_trans; [|exact Hpo].
        apply paths_only_alter. intros u. by destruct u. }
      split; [done|]. split; [done|].
      split; [done|]. split; [done|].
      intros y u (u' & e & Hu' & He & <- & Hsel)%sel_edge_elem Hu.
      pose proof (Hfr _ _ Huv Huvv) as Huv'. rewrite Huv' in Hu'. injection Hu' as <-.
      by eapply Hed.
Qed.

End DfsTree.

(** ** [calculateKruskal]: its whole effect *)

Section KruskalTree.
Context {T : Type} `{EqDecision T}.
Implicit Types g : Graph T.

Lemma paths_only_unvisit g : paths_only g (set_visited false <$> g).
Proof.
  split; [by rewrite length_fmap|]. intros x u Hu.
  rewrite list_lookup_fmap, Hu. simpl. eexists. split; [done|]. by destruct u.
Qed.

(** The tail of [calculateKruskal]: the reset of [visited], the root's
    null [path] and the depth-first traversal. *)
Lemma kruskal_paths_tree (gu : Graph T) :
  (∀ a b w, (a, b, w) ∈ edge_list gu → b < length gu) → gu ≠ [] →
  ∃ gk, kruskal_paths gu = Done gk ∧ adj <$> gk = adj <$> gu ∧ paths_only gu gk ∧
    (∃ v0, gk !! 0 = Some v0 ∧ visited v0 = true ∧ path v0 = None) ∧
    (∀ x u, gk !! x = Some u → visited u = true → anc gk x ∧ sel_closed gk x).
Proof.
  intros Hvalid Hne. unfold kruskal_paths.
  assert (0 < length gu) as H0 by (destruct gu; simpl; [done|lia]).
  set (g1 := set_visited false <$> gu).
  assert (adj <$> g1 = adj <$> gu) as Hadj1.
  { unfold g1. rewrite <- list_fmap_compose. by apply list_fmap_ext. }
  destruct (lookup_lt_is_Some_2 gu 0 H0) as [w0 Hw0].
  assert (g1 !! 0 = Some (set_visited false w0)) as Hv0.
  { unfold g1. by rewrite list_lookup_fmap, Hw0. }
  rewrite Hv0.
  set (g2 := alter (set_path None) 0 g1).
  assert (adj <$> g2 = adj <$> gu) as Hadj2.
  { rewrite <- Hadj1. by apply alter_adj. }
  set (g3 := alter (set_visited true) 0 g2).
  assert (g3 !! 0 = Some (set_visited true (set_path None (set_visited false w0)))) as H30.
  { unfold g3, g2. by rewrite !list_lookup_alter_eq, Hv0. }
  assert (∀ x, x ≠ 0 → g3 !! x = set_visited false <$> gu !! x) as H3x.
  { intros x Hx. unfold g3, g2, g1. by rewrite !list_lookup_alter_ne, list_lookup_fmap. }
  destruct (dfsKruskalPath_tree gu Hvalid (length gu) 0 g2)
    as (gk & Hrun & Hadj & Hpo & Hnum & Hfr & Hanc & Hcl & Hcl0); [done|done| | |].
  { fold g3. intros x u Hu Hvu. destruct (decide (x = 0)) as [->|Hx].
    - eapply anc_root; [exact H30|done..].
    - rewrite (H3x x Hx) in Hu. destruct (gu !! x); simplify_eq/=. }
  { fold g3. etrans; [apply num_unvisited_le|]. unfold g3, g2, g1.
    by rewrite !length_alter, length_fmap. }
  fold g3 in Hnum, Hfr, Hcl.
  exists gk. split; [done|]. split; [done|]. split.
  { eapply paths_only_trans; [apply paths_only_unvisit|]. fold g1.
    eapply paths_only_trans; [|exact Hpo].
    apply paths_only_alter. intros u. by destruct u. }
  split.
  { eexists. split; [by apply (Hfr 0 _ H30)|]. done. }
  intros x u Hu Hvu. split; [by eapply Hanc|].
  destruct (decide (x = 0)) as [->|Hx]; [done|].
  destruct (lookup_lt_is_Some_2 gu x) as [ux Hux].
  { rewrite <- (fmap_eq_length _ _ _ Hadj). by eapply lookup_lt_Some. }
  eapply (Hcl x (set_visited false ux) u); [done..| |done].
  by rewrite (H3x x Hx), Hux.
Qed.

Lemma anc_conn g x : anc g x → conn (edge_list g) 0 x.
Proof.
  induction 1 as [|x v p Hv Hvis Hp Hx (k & e & He & Hd & _) _ IH]; [apply rtc_refl|].
  eapply conn_trans; [exact IH|]. apply (conn_edge _ _ _ (weight e)).
  apply edge_list_has_edge. by exists k, e.
Qed.

(** Everything the two phases of [calculateKruskal] establish on a
    non-empty graph of [Built]. *)
Lemma calculateKruskal_full g :
  wf g → g ≠ [] →
  ∃ gu F gk, kruskal_unionfind g = Done gu ∧ calculateKruskal g = Done gk ∧
    kruskal_inv (kruskal_deselect (kruskal_init g)) gu F [] ∧
    length gu = length g ∧ edge_list gu = edge_list g ∧ estruct gu = estruct g ∧
    (∀ x y, x < length g → y < length g →
       find_root gu x = find_root gu y ↔ conn (edge_list g) x y) ∧
    (∀ A (f : Vertex T → A),
       (∀ p v, f (set_path p v) = f v) → (∀ r v, f (set_rank r v) = f v) →
       (∀ a v, f (set_adj a v) = f v) → (∀ i v, f (set_id i v) = f v) →
       f <$> gu = f <$> g) ∧
    adj <$> gk = adj <$> gu ∧ paths_only gu gk ∧ sel_inv gk F ∧
    (∃ v0, gk !! 0 = Some v0 ∧ visited v0 = true ∧ path v0 = None) ∧
    (∀ x u, gk !! x = Some u →
       (visited u = true ↔ conn (edge_list g) 0 x) ∧
       (visited u = true → anc gk x)).
Proof.
  intros Hwf Hne.
  destruct (kruskal_unionfind_sel g Hwf) as (gu & F & Hrun & Hinv & Hsel & Hsame & Hfr).
  pose proof (skeleton_estruct _ _ (ki_skeleton _ _ _ _ Hinv)) as Hest.
  rewrite kruskal_start_estruct in Hest.
  assert (length gu = length g) as Hlen by (by rewrite (fmap_eq_length _ _ _ Hest)).
  assert (edge_list gu = edge_list g) as Hel by (by apply edge_list_estruct).
  destruct (kruskal_paths_tree gu) as (gk & Hrun' & Hadj & Hpo & Hroot & Hvis).
  { intros a b w Hab. rewrite Hlen. rewrite Hel in Hab. by eapply wf_edge_list_lt. }
  { intros ->. by destruct g. }
  assert (sel_inv gk F) as Hselk by (eapply sel_inv_adj; [symmetry; exact Hadj|done]).
  assert (edge_list gk = edge_list g) as Helk by (by rewrite (edge_list_adj gk gu)).
  assert (length gk = length g) as Hlenk by (by rewrite (fmap_eq_length _ _ _ Hadj)).
  exists gu, F, gk. split; [done|].
  split; [unfold calculateKruskal; by rewrite Hrun, bind_Done|].
  do 7 (split; [done|]). split; [done|]. split; [done|]. split; [done|].
  pose proof (ki_forest _ _ _ _ Hinv) as Hf.
  assert (0 < length g) as H0 by (destruct g; simpl; [done|lia]).
  assert (∀ x, conn F 0 x → x < length g →
            ∀ u, gk !! x = Some u → visited u = true) as Hreach.
  { apply (rtc_ind_r (λ x, x < length g → ∀ u, gk !! x = Some u → visited u = true) 0).
    - intros _ u Hu. destruct Hroot as (v0 & ? & ? & _). by simplify_eq.
    - intros y z Hy [w Hyz] IH Hz u Hu.
      assert (sel_edge gk y z ∧ sel_edge gk z y) as [Hs1 Hs2].
      { destruct Hyz as [Hyz|Hyz]; destruct (proj2 Hselk _ _ _ Hyz); done. }
      destruct Hs1 as (k & e & He & ? & ?).
      assert (y < length gk) as Hyl by (by eapply edge_at_lt).
      destruct (lookup_lt_is_Some_2 gk y Hyl) as [uy Huy].
      assert (visited uy = true) as Hvy by (apply (IH ltac:(lia) uy Huy)).
      destruct (Hvis y uy Huy Hvy) as [_ Hcl].
      apply (Hcl z u); [|done]. by exists k, e. }
  intros x u Hu. split; [split|].
  - intros Hvu. destruct (Hvis x u Hu Hvu) as [Ha _].
    rewrite <- Helk. by apply anc_conn.
  - intros Hc.
    assert (x < length g) as Hx by (rewrite <- Hlenk; by eapply lookup_lt_Some).
    apply (Hreach x); [|done..].
    apply (Hsame 0 x H0 Hx) in Hc.
    pose proof (find_root_rootof gu 0 Hf ltac:(lia)) as Hr0.
    pose proof (find_root_rootof gu x Hf ltac:(lia)) as Hrx.
    rewrite <- Hc in Hrx.
    apply (ki_conn _ _ _ _ Hinv) in Hr0, Hrx.
    eapply conn_trans; [exact Hr0|by apply conn_sym].
  - intros Hvu. by destruct (Hvis x u Hu Hvu).
Qed.

(** X13. [calculateKruskal] writes only [path], [rank], [id], [visited]
    and the [selected] flags: the vertex set keeps its length, every
    vertex its content and its [dist], every edge its origin, destination,
    weight and [reverse]; and every vertex ends with [id] equal to its
    position in the vertex set. *)
Theorem calculateKruskal_frame g :
  Built g → g ≠ [] →
  ∃ gk, calculateKruskal g = Done gk ∧ getNumVertex gk = getNumVertex g ∧
    info <$> gk = info <$> g ∧ dist <$> gk = dist <$> g ∧
    estruct gk = estruct g ∧ edge_list gk = edge_list g ∧
    (∀ c, findVertex gk c = findVertex g c) ∧
    (∀ x v, gk !! x = Some v → id v = x).
Proof.
  intros HB Hne. pose proof (Built_wf g HB) as Hwf.
  destruct (calculateKruskal_full g Hwf Hne)
    as (gu & F & gk & _ & Hrun & Hinv & Hlen & Hel & Hest & _ & Hfr & Hadj & Hpo & _).
  exists gk. split; [done|].
  assert (info <$> gk = info <$> g) as Hinfo.
  { rewrite (paths_only_frame info gu gk) by done. by apply Hfr. }
  split; [unfold getNumVertex; by rewrite (fmap_eq_length _ _ _ Hadj)|].
  split; [done|]. split.
  { rewrite (paths_only_frame dist gu gk) by done. by apply Hfr. }
  split.
  { rewrite <- Hest. apply skeleton_estruct, skeleton_adj; [done|].
    by apply paths_only_frame. }
  split; [by rewrite (edge_list_adj gk gu)|].
  split; [intros c; by apply findVertex_info|].
  intros x v Hv.
  assert (id <$> gk = id <$> gu) as Hid by (by apply paths_only_frame).
  destruct (fmap_eq_lookup id gk gu x v Hid Hv) as (vu & Hvu & <-).
  pose proof (skeleton_id gu _ x (ki_skeleton _ _ _ _ Hinv)) as Hsk.
  unfold id_of at 1 in Hsk. rewrite Hvu in Hsk. simpl in Hsk. rewrite Hsk.
  apply kruskal_start_id. rewrite <- Hlen. by eapply lookup_lt_Some.
Qed.

(** X14. After the loop over the sorted edges, on any graph built with
    [addBidirectionalEdge], connected or not, the disjoint sets are the
    connected components: [findSet] returns the same representative for
    two vertices exactly when a chain of edges joins them. *)
Theorem kruskal_unionfind_components g :
  Built g →
  ∃ gu, kruskal_unionfind g = Done gu ∧ length gu = length g ∧
    ∀ x y, x < length g → y < length g →
      find_root gu x = find_root gu y ↔ conn (edge_list g) x y.
Proof.
  intros HB. pose proof (Built_wf g HB) as Hwf.
  destruct (kruskal_unionfind_sel g Hwf) as (gu & F & Hrun & Hinv & _ & Hsame & _).
  exists gu. split; [done|]. split; [|done].
  rewrite (kruskal_inv_length _ _ _ _ Hinv). apply kruskal_start_length.
Qed.

(** X15. On a non-empty connected graph built with
    [addBidirectionalEdge], whatever the weights ([INF] included),
    [calculateKruskal] selects a minimum spanning tree: there is a minimum
    spanning tree [F] of the graph such that every edge of [F] is selected
    in both directions, every selected edge is an edge of [F] in one of
    its directions, and the weights of the selected edges add up to twice
    the weight of [F]. *)
Theorem calculateKruskal_selected g :
  Built g → g ≠ [] → connected g →
  ∃ gk F, calculateKruskal g = Done gk ∧
    minimum_spanning_tree (length g) (edge_list g) F ∧
    (∀ a b w, (a, b, w) ∈ F → sel_edge gk a b ∧ sel_edge gk b a) ∧
    (∀ a k e, edge_at gk (a, k) = Some e → selected e = true →
       (a, dest e, weight e) ∈ F ∨ (dest e, a, weight e) ∈ F) ∧
    selected_weight gk = (2 * total_weight F)%Z.
Proof.
  intros HB Hne Hconn. pose proof (Built_wf g HB) as Hwf.
  destruct (calculateKruskal_full g Hwf Hne)
    as (gu & F & gk & _ & Hrun & Hinv & Hlen & Hel & _ & _ & _ & Hadj & _ & Hsel & _).
  exists gk, F. split; [done|]. split; [|split; [|split]].
  - set (gi := kruskal_deselect (kruskal_init g)) in *.
    assert (length gi = length g) as Hleni by apply kruskal_start_length.
    pose proof (kruskal_start_edge_list g) as Heli. fold gi in Heli.
    rewrite <- Hleni, <- Heli.
    apply safe_spanning_minimum; [apply (ki_safe _ _ _ _ Hinv)|].
    apply (kruskal_spanning gi) with (g := gu); [by apply kruskal_start_wf| |done| |].
    + intros x Hx. apply kruskal_start_id. by rewrite <- Hleni.
    + intros u v Hu Hv. rewrite Heli. apply Hconn; by rewrite <- Hleni.
    + intros Heq. rewrite Heq in Hleni. by destruct g.
  - apply Hsel.
  - intros a k e He Hs. apply (proj1 Hsel (a, k) e He Hs).
  - rewrite (selected_weight_adj gk gu) by done. apply (ki_weight _ _ _ _ Hinv).
Qed.

(** X16. The [path] pointers left by [calculateKruskal] on a non-empty
    graph built with [addBidirectionalEdge]: the vertex at position 0 has
    none; the traversal visits exactly the connected component of that
    vertex; every other vertex [x] of the component points at a vertex [p]
    of the component from which a selected edge leads to [x], and
    following the pointers from [x] ends at the vertex 0. *)
Theorem calculateKruskal_tree g :
  Built g → g ≠ [] →
  ∃ gk, calculateKruskal g = Done gk ∧
    (∃ v0, gk !! 0 = Some v0 ∧ path v0 = None) ∧
    ∀ x v, gk !! x = Some v →
      (visited v = true ↔ conn (edge_list g) 0 x) ∧
      (conn (edge_list g) 0 x → anc gk x) ∧
      (conn (edge_list g) 0 x → x ≠ 0 →
         ∃ p, path v = Some p ∧ sel_edge gk p x ∧ conn (edge_list g) 0 p).
Proof.
  intros HB Hne. pose proof (Built_wf g HB) as Hwf.
  destruct (calculateKruskal_full g Hwf Hne)
    as (gu & F & gk & _ & Hrun & Hinv & Hlen & Hel & _ & _ & _ & Hadj & _ & Hsel & Hroot & Hvis).
  exists gk. split; [done|]. split.
  { destruct Hroot as (v0 & ? & _ & ?). eauto. }
  assert (edge_list gk = edge_list g) as Helk by (by rewrite (edge_list_adj gk gu)).
  intros x v Hv. destruct (Hvis x v Hv) as [Hiff Hanc].
  split; [done|]. split; [intros Hc; by apply Hanc, Hiff|].
  intros Hc Hx. apply Hiff in Hc. specialize (Hanc Hc).
  inversion Hanc as [|x' v' p Hv' _ Hp _ Hse Hap]; [done|]. subst x'.
  rewrite Hv in Hv'. injection Hv' as <-.
  exists p. split; [done|]. split; [done|]. rewrite <- Helk. by apply anc_conn.
Qed.

(** X17. On a non-empty connected graph built with
    [addBidirectionalEdge], whatever the weights, [calculateKruskal]
    leaves a spanning tree in the [path] pointers: every vertex is
    visited, the vertex 0 has no parent, each of the other [V - 1]
    vertices has one, joined to it by a selected edge. *)
Theorem calculateKruskal_spanning_paths g :
  Built g → g ≠ [] → connected g →
  ∃ gk, calculateKruskal g = Done gk ∧ length gk = length g ∧
    num_parents gk = length g - 1 ∧
    ∀ x v, gk !! x = Some v →
      visited v = true ∧ anc gk x ∧
      (x = 0 → path v = None) ∧
      (x ≠ 0 → ∃ p, path v = Some p ∧ sel_edge gk p x).
Proof.
  intros HB Hne Hconn. pose proof (Built_wf g HB) as Hwf.
  destruct (calculateKruskal_full g Hwf Hne)
    as (gu & F & gk & _ & Hrun & Hinv & Hlen & Hel & _ & _ & _ & Hadj & _ & Hsel & Hroot & Hvis).
  assert (length gk = length g) as Hlenk by (by rewrite (fmap_eq_length _ _ _ Hadj)).
  assert (0 < length g) as H0 by (destruct g; simpl; [done|lia]).
  assert (∀ x v, gk !! x = Some v →
            visited v = true ∧ anc gk x ∧
            (x = 0 → path v = None) ∧
            (x ≠ 0 → ∃ p, path v = Some p ∧ sel_edge gk p x)) as Hall.
  { intros x v Hv. destruct (Hvis x v Hv) as [Hiff Hanc].
    assert (visited v = true) as Hvv.
    { apply Hiff, Hconn; [done|]. rewrite <- Hlenk. by eapply lookup_lt_Some. }
    split; [done|]. split; [by apply Hanc|]. split.
    - intros ->. destruct Hroot as (v0 & ? & _ & ?). by simplify_eq.
    - intros Hx. specialize (Hanc Hvv).
      inversion Hanc as [|x' v' p Hv' _ Hp _ Hse Hap]; [done|]. subst x'.
      rewrite Hv in Hv'. injection Hv' as <-. eauto. }
  exists gk. split; [done|]. split; [done|]. split; [|done].
  rewrite <- Hlenk. apply tree_measures.
  - intros ->. simpl in Hlenk. lia.
  - intros i v Hv. destruct (Hall i v Hv) as (_ & _ & Hr & Hp).
    destruct (decide (i = 0)) as [->|Hi]; [left; auto|right].
    split; [done|]. destruct (Hp Hi) as (p & -> & _). eauto.
Qed.

End KruskalTree.

(** ** The factorials: where the arithmetic wraps, and the bounds of the
    memo array *)

Lemma zfact_fact n : Z.of_nat (fact n) = zfact n.
Proof.
  induction n as [|n IH]; [done|].
  change (fact (S n)) with (S n * fact n). cbn [zfact]. rewrite <- IH. lia.
Qed.

Lemma zfact_pos n : (0 < zfact n)%Z.
Proof. induction n as [|n IH]; [done|]. cbn [zfact]. lia. Qed.

Lemma zfact_mono n m : n ≤ m → (zfact n ≤ zfact m)%Z.
Proof.
  induction 1 as [|m _ IH]; [done|]. cbn [zfact].
  pose proof (zfact_pos m). nia.
Qed.

Lemma wrap_id z : wrap z = z ↔ (0 ≤ z < 2 ^ ULONG_BITS)%Z.
Proof.
  unfold wrap. split.
  - intros <-. apply Z.mod_pos_bound. by vm_compute.
  - intros. by apply Z.mod_small.
Qed.

(** X18. [factorialRecurs(n)] is the true factorial exactly for [n <= 20];
    from 21 on the product has wrapped around 2^64. *)
Theorem factorialRecurs_exact n :
  factorialRecurs n = Z.of_nat (fact n) ↔ n ≤ 20.
Proof.
  rewrite factorialRecurs_fact, wrap_id, zfact_fact. split.
  - intros [_ Hlt]. destruct (decide (n ≤ 20)) as [|Hn]; [done|].
    pose proof (zfact_mono 21 n ltac:(lia)) as Hle.
    assert (2 ^ ULONG_BITS < zfact 21)%Z by (by vm_compute). lia.
  - intros Hn. pose proof (zfact_pos n). pose proof (zfact_mono n 20 Hn) as Hle.
    assert (zfact 20 < 2 ^ ULONG_BITS)%Z by (by vm_compute). lia.
Qed.

Lemma factorialRecurs_zero_step n :
  factorialRecurs n = 0%Z → factorialRecurs (S n) = 0%Z.
Proof.
  intros Hz. cbn [factorialRecurs]. case_decide as Hn.
  - injection Hn as ->. done.
  - by rewrite Hz, Z.mul_0_r.
Qed.

Lemma factorialRecurs_zero_from n m :
  n ≤ m → factorialRecurs n = 0%Z → factorialRecurs m = 0%Z.
Proof. induction 1; [done|]. intros. by apply factorialRecurs_zero_step; auto. Qed.

Lemma factorialDP_eq n : n < DP_SIZE → factorialDP n = Done (factorialRecurs n).
Proof.
  intros Hn. induction n as [|n IH]; [done|]. cbn [factorialDP factorialRecurs].
  case_decide; [done|].
  rewrite lookup_replicate_2 by done. rewrite decide_False by (by intros []).
  rewrite IH by lia. by rewrite bind_Done.
Qed.

(** X19. From 66 on, and only from there, both factorials return 0: the
    product has become a multiple of 2^64. *)
Theorem factorial_vanishes n :
  (factorialRecurs n = 0%Z ↔ 66 ≤ n) ∧
  (n < DP_SIZE → (factorialDP n = Done 0%Z ↔ 66 ≤ n)).
Proof.
  assert (factorialRecurs n = 0%Z ↔ 66 ≤ n) as Hiff.
  { split.
    - intros Hz. destruct (decide (66 ≤ n)) as [|Hn]; [done|].
      assert (factorialRecurs 65 = 0%Z) as H65.
      { apply (factorialRecurs_zero_from n); [lia|done]. }
      by vm_compute in H65.
    - intros Hn. apply (factorialRecurs_zero_from 66); [done|]. by vm_compute. }
  split; [done|]. intros Hn. rewrite factorialDP_eq by done.
  rewrite <- Hiff. split; [by intros [= ->]|by intros ->].
Qed.

(** X20. [factorialDP(n)] reads [dp[n]] outside the array, which is
    undefined behaviour, exactly when [n >= 100000]; below that bound it
    returns. *)
Theorem factorialDP_bounds n :
  (factorialDP n = Undefined ↔ DP_SIZE ≤ n) ∧
  ((∃ z, factorialDP n = Done z) ↔ n < DP_SIZE).
Proof.
  assert (DP_SIZE ≤ n → factorialDP n = Undefined) as Hout.
  { intros Hn. assert (2 ≤ DP_SIZE) by (unfold DP_SIZE; lia).
    destruct n as [|n]; [lia|]. cbn [factorialDP].
    rewrite decide_False by lia.
    assert (replicate DP_SIZE 0%Z !! S n = None) as ->; [|done].
    apply lookup_replicate_None. lia. }
  split; split.
  - intros Hu. destruct (decide (DP_SIZE ≤ n)) as [|Hn]; [done|].
    rewrite factorialDP_eq in Hu by lia. done.
  - done.
  - intros [z Hz]. destruct (decide (n < DP_SIZE)) as [|Hn]; [done|].
    rewrite Hout in Hz by lia. done.
  - intros Hn. eexists. by apply factorialDP_eq.
Qed.

(** ** [sum3] *)

Lemma uwrap_small z : (0 ≤ z < 2 ^ UINT_BITS)%Z → uwrap z = z.
Proof. intros. by apply Z.mod_small. Qed.

(** X21. For every 32-bit [T] and every array of at least three cells,
    [sum3] runs into no overflow and returns [true] exactly when
    [T >= 3]; it then stops in its very first iteration with
    [nums = {1, 1, T - 2}], three positive numbers that add up to [T].
    For [T < 3] it returns [false] and leaves [nums] untouched. *)
Theorem sum3_spec fuel T nums :
  (0 ≤ T < 2 ^ UINT_BITS)%Z → 3 ≤ length nums → 2 ≤ fuel →
  sum3 fuel T nums =
    Done (if decide (3 ≤ T)%Z
          then (true, <[2 := (T - 2)%Z]> (<[1 := 1%Z]> (<[0 := 1%Z]> nums)))
          else (false, nums)) ∧
  ((3 ≤ T)%Z →
     ∃ a b c, sum3 fuel T nums = Done (true, a :: b :: c :: drop 3 nums) ∧
       (0 < a)%Z ∧ (0 < b)%Z ∧ (0 < c)%Z ∧ (a + b + c = T)%Z).
Proof.
  intros HT Hlen Hfuel.
  assert (2 ^ UINT_BITS = 4294967296)%Z as Hpow by (by vm_compute).
  assert (sum3 fuel T nums =
    Done (if decide (3 ≤ T)%Z
          then (true, <[2 := (T - 2)%Z]> (<[1 := 1%Z]> (<[0 := 1%Z]> nums)))
          else (false, nums))) as Hrun.
  { destruct fuel as [|[|fuel]]; [lia..|].
    unfold sum3. cbn [sum3_outer].
    assert (uwrap 1 = 1%Z) as H1 by (by vm_compute).
    assert (uwrap 2 = 2%Z) as H2 by (by vm_compute).
    assert (int_add 1 1 = Done 2%Z) as Hadd by (by vm_compute).
    destruct (decide (3 ≤ T)%Z) as [H3|H3].
    - rewrite H1. rewrite decide_True by lia. cbn [sum3_inner]. cbv zeta.
      rewrite !H1. rewrite (decide_True (P := (1 < T)%Z)) by lia.
      rewrite (uwrap_small (T - 1)) by lia. rewrite (uwrap_small (T - 1 - 1)) by lia.
      rewrite (decide_True (P := (T - 1 - 1 ≠ 0)%Z)) by lia.
      rewrite Hadd. cbn [mbind outcome_bind]. rewrite H2.
      replace (2 + (T - 1 - 1))%Z with T by lia. rewrite (uwrap_small T) by lia.
      rewrite bool_decide_eq_true_2 by done. cbn [mbind outcome_bind].
      replace (T - 1 - 1)%Z with (T - 2)%Z by lia.
      destruct nums as [|x0 [|x1 [|x2 nums]]]; simpl in Hlen; try lia.
      reflexivity.
    - assert (T = 0 ∨ T = 1 ∨ T = 2)%Z as [-> | [-> | ->]] by lia.
      + by vm_compute.
      + by vm_compute.
      + by vm_compute. }
  split; [done|]. intros H3. rewrite Hrun, decide_True by done.
  destruct nums as [|x0 [|x1 [|x2 nums]]]; simpl in Hlen; try lia.
  exists 1%Z, 1%Z, (T - 2)%Z. simpl. rewrite drop_0.
  split; [done|]. lia.
Qed.

(** X22. When the caller's array has fewer than three cells and [T >= 3],
    [sum3] writes outside it. *)
Theorem sum3_short_array fuel T nums :
  (3 ≤ T < 2 ^ UINT_BITS)%Z → length nums < 3 → 1 ≤ fuel →
  sum3 fuel T nums = Undefined.
Proof.
  intros HT Hlen Hfuel.
  assert (2 ^ UINT_BITS = 4294967296)%Z as Hpow by (by vm_compute).
  destruct fuel as [|fuel]; [lia|].
  unfold sum3. cbn [sum3_outer sum3_inner]. cbv zeta.
  assert (uwrap 1 = 1%Z) as H1 by (by vm_compute).
  assert (uwrap 2 = 2%Z) as H2 by (by vm_compute).
  assert (int_add 1 1 = Done 2%Z) as Hadd by (by vm_compute).
  rewrite !H1. rewrite !(decide_True (P := (1 < T)%Z)) by lia.
  rewrite (uwrap_small (T - 1)) by lia. rewrite (uwrap_small (T - 1 - 1)) by lia.
  rewrite (decide_True (P := (T - 1 - 1 ≠ 0)%Z)) by lia.
  rewrite Hadd. cbn [mbind outcome_bind]. rewrite H2.
  replace (2 + (T - 1 - 1))%Z with T by lia. rewrite (uwrap_small T) by lia.
  rewrite bool_decide_eq_true_2 by done. cbn [mbind outcome_bind].
  unfold store.
  destruct nums as [|x0 [|x1 [|x2 nums]]]; simpl in Hlen; try lia; try done.
Qed.

(** ** [calculateKruskal] run twice *)

(** The merge sort depends on the order only through its decisions. *)
Section SortExt.
Context {A : Type} (R R' : relation A).
Context `{∀ x y, Decision (R x y)} `{∀ x y, Decision (R' x y)}.
Hypothesis HR : ∀ x y, R x y ↔ R' x y.

Lemma list_merge_ext l1 l2 : list_merge R l1 l2 = list_merge R' l1 l2.
Proof.
  revert l2. induction l1 as [|x1 l1 IH1]; intros l2; [by destruct l2|].
  induction l2 as [|x2 l2 IH2]; [done|]. simpl.
  destruct (decide (R x1 x2)) as [Hr|Hr], (decide (R' x1 x2)) as [Hr'|Hr'].
  - by rewrite IH1.
  - by apply HR in Hr.
  - by apply HR in Hr'.
  - f_equal. exact IH2.
Qed.

Lemma merge_list_to_stack_ext st l :
  merge_list_to_stack R st l = merge_list_to_stack R' st l.
Proof.
  revert l. induction st as [|[l'|] st IH]; intros l; simpl; [done| |done].
  by rewrite IH, list_merge_ext.
Qed.

Lemma merge_stack_ext st : merge_stack R st = merge_stack R' st.
Proof.
  induction st as [|[l|] st IH]; simpl; [done| |done].
  by rewrite IH, list_merge_ext.
Qed.

Lemma merge_sort_ext l : merge_sort R l = merge_sort R' l.
Proof.
  unfold merge_sort. generalize (@nil (option (list A))).
  induction l as [|x l IH]; intros st; simpl; [apply merge_stack_ext|].
  by rewrite merge_list_to_stack_ext, IH.
Qed.

End SortExt.

Section KruskalAgain.
Context {T : Type} `{EqDecision T}.
Implicit Types g : Graph T.

Local Abbreviation V := (@set_visited T false).
Local Abbreviation erase := (fmap (M:=list) (@set_visited T false)).

Lemma alter_V (f : Vertex T → Vertex T) x g :
  (∀ v, V (f v) = f (V v)) → erase (alter f x g) = alter f x (erase g).
Proof. intros Hf. apply list_fmap_alter. by apply Forall_forall. Qed.

Lemma path_V g x : path <$> erase g !! x = path <$> g !! x.
Proof. rewrite list_lookup_fmap. by destruct (g !! x). Qed.

Lemma findSet_V fuel x g :
  findSet fuel x (erase g) =
    findSet fuel x g ≫= λ rg : nat * Graph T, Done (rg.1, erase rg.2).
Proof.
  revert x. induction fuel as [|fuel IH]; intros x; [done|].
  cbn [findSet]. rewrite path_V.
  destruct (path <$> g !! x) as [[p|]|]; try done.
  case_decide; [|done]. rewrite IH.
  destruct (findSet fuel p g) as [[r g1]| | |]; try done.
  cbn [mbind outcome_bind fst snd]. by rewrite alter_V.
Qed.

Lemma linkSets_V fuel x y g :
  linkSets fuel x y (erase g) = linkSets fuel x y g ≫= λ g' : Graph T, Done (erase g').
Proof.
  unfold linkSets. rewrite findSet_V.
  destruct (findSet fuel x g) as [[i g1]| | |]; try done. cbn [mbind outcome_bind fst snd].
  rewrite findSet_V.
  destruct (findSet fuel y g1) as [[j g2]| | |]; try done. cbn [mbind outcome_bind fst snd].
  rewrite !list_lookup_fmap.
  destruct (g2 !! i) as [vi|]; [|done]. destruct (g2 !! j) as [vj|]; [|done].
  cbn [fmap option_fmap option_map]. change (rank (V vi)) with (rank vi).
  change (rank (V vj)) with (rank vj).
  repeat case_decide; cbn [mbind outcome_bind fst snd]; by rewrite ?alter_V.
Qed.

Lemma edge_at_V g h : edge_at (erase g) h = edge_at g h.
Proof. unfold edge_at. rewrite list_lookup_fmap. by destruct (g !! h.1). Qed.

Lemma alter_edge_V f h g : erase (alter_edge f h g) = alter_edge f h (erase g).
Proof. unfold alter_edge. by apply alter_V. Qed.

Lemma kruskal_step_V fuel g h :
  kruskal_step fuel (erase g) h = kruskal_step fuel g h ≫= λ g' : Graph T, Done (erase g').
Proof.
  unfold kruskal_step. rewrite edge_at_V. destruct (edge_at g h) as [e|]; [|done].
  rewrite findSet_V.
  destruct (findSet fuel (orig e) g) as [[r1 g1]| | |]; try done. cbn [mbind outcome_bind fst snd].
  rewrite findSet_V.
  destruct (findSet fuel (dest e) g1) as [[r2 g2]| | |]; try done. cbn [mbind outcome_bind fst snd].
  case_decide; [|done]. rewrite linkSets_V.
  destruct (linkSets fuel (orig e) (dest e) g2) as [g3| | |]; try done.
  cbn [mbind outcome_bind fst snd]. cbv zeta. destruct (reverse e); [|done].
  cbn [mbind outcome_bind fst snd]. by rewrite !alter_edge_V.
Qed.

Lemma kruskal_loop_V fuel hs g :
  kruskal_loop fuel hs (erase g) = kruskal_loop fuel hs g ≫= λ g' : Graph T, Done (erase g').
Proof.
  revert g. induction hs as [|h hs IH]; intros g; [done|].
  cbn [kruskal_loop]. rewrite kruskal_step_V.
  destruct (kruskal_step fuel g h) as [g1| | |]; try done. cbn [mbind outcome_bind fst snd].
  apply IH.
Qed.

Lemma handles_V g : handles (erase g) = handles g.
Proof.
  unfold handles. apply indexed_bind_ext; [by rewrite length_fmap|].
  intros i v. rewrite list_lookup_fmap. destruct (g !! i) as [u|]; [|done].
  simpl. intros [= <-]. eauto.
Qed.

Lemma id_of_V g x : id_of (erase g) x = id_of g x.
Proof. unfold id_of. rewrite list_lookup_fmap. by destruct (g !! x). Qed.

Lemma kruskal_edges_V g : kruskal_edges (erase g) = kruskal_edges g.
Proof.
  unfold kruskal_edges. rewrite handles_V. apply list_filter_iff.
  intros h. unfold canonical. rewrite edge_at_V.
  destruct (edge_at g h); [|done]. by rewrite !id_of_V.
Qed.

Lemma sort_edges_V g hs : sort_edges (erase g) hs = sort_edges g hs.
Proof.
  unfold sort_edges. apply merge_sort_ext. intros h1 h2.
  unfold weight_le, weight_at. by rewrite !edge_at_V.
Qed.

(** The union-find phase neither reads nor writes [visited]. *)
Lemma kruskal_loop_erased fuel g1 g2 (gu1 : Graph T) :
  erase g1 = erase g2 →
  kruskal_loop fuel (sort_edges g1 (kruskal_edges g1)) g1 = Done gu1 →
  ∃ gu2, kruskal_loop fuel (sort_edges g2 (kruskal_edges g2)) g2 = Done gu2 ∧
    erase gu2 = erase gu1.
Proof.
  intros Heq Hrun.
  assert (sort_edges g2 (kruskal_edges g2) = sort_edges g1 (kruskal_edges g1)) as ->.
  { rewrite <- (sort_edges_V g2), <- (kruskal_edges_V g2), <- Heq.
    by rewrite sort_edges_V, kruskal_edges_V. }
  pose proof (kruskal_loop_V fuel (sort_edges g1 (kruskal_edges g1)) g1) as H1.
  pose proof (kruskal_loop_V fuel (sort_edges g1 (kruskal_edges g1)) g2) as H2.
  rewrite Hrun in H1. cbn [mbind outcome_bind fst snd] in H1. rewrite Heq, H2 in H1.
  destruct (kruskal_loop fuel _ g2) as [gu2| | |]; try done.
  cbn [mbind outcome_bind fst snd] in H1. injection H1 as H1. eauto.
Qed.

Lemma kruskal_paths_erased g1 g2 : erase g1 = erase g2 → kruskal_paths g1 = kruskal_paths g2.
Proof.
  intros Heq. unfold kruskal_paths. rewrite Heq.
  assert (length g1 = length g2) as ->; [|done].
  apply (f_equal length) in Heq. by rewrite !length_fmap in Heq.
Qed.

Lemma kruskal_start_erased g gk :
  length gk = length g → info <$> gk = info <$> g → dist <$> gk = dist <$> g →
  queueIndex <$> gk = queueIndex <$> g → estruct gk = estruct g →
  erase (kruskal_deselect (kruskal_init gk)) = erase (kruskal_deselect (kruskal_init g)).
Proof.
  intros Hlen Hinfo Hdist Hq Hest. apply list_eq. intros x.
  rewrite !list_lookup_fmap, !kruskal_start_lookup.
  destruct (g !! x) as [v|] eqn:Hv.
  2:{ apply lookup_ge_None in Hv. rewrite <- Hlen in Hv. apply lookup_ge_None in Hv.
      by rewrite Hv. }
  destruct (lookup_lt_is_Some_2 gk x) as [vk Hvk].
  { rewrite Hlen. by eapply lookup_lt_Some. }
  rewrite Hvk. simpl. f_equal.
  destruct (fmap_eq_lookup info gk g x vk Hinfo Hvk) as (v1 & Hv1 & Hi).
  destruct (fmap_eq_lookup dist gk g x vk Hdist Hvk) as (v2 & Hv2 & Hd).
  destruct (fmap_eq_lookup queueIndex gk g x vk Hq Hvk) as (v3 & Hv3 & Hqi).
  destruct (fmap_eq_lookup (λ v, edge_shape <$> adj v) gk g x vk Hest Hvk) as (v4 & Hv4 & He).
  simplify_eq. unfold set_adj, set_id, makeSet, set_rank, set_path, set_visited. simpl.
  rewrite Hi, Hd, Hqi. f_equal.
  apply list_eq. intros k.
  pose proof (f_equal (λ l, l !! k) He) as Hk. cbv beta in Hk.
  rewrite !list_lookup_fmap in Hk. rewrite !list_lookup_fmap.
  destruct (adj v !! k) as [e|], (adj vk !! k) as [ek|]; simpl in *; try done.
  injection Hk as Hk. f_equal. destruct e, ek. unfold edge_shape in Hk. simpl in *.
  by simplify_eq.
Qed.

(** X23. Running [calculateKruskal] again on the graph it returned gives
    that same graph: every [path], [rank], [id], [visited] and [selected]
    is set afresh, from the edges alone. *)
Theorem calculateKruskal_idempotent g :
  Built g → g ≠ [] →
  ∃ gk, calculateKruskal g = Done gk ∧ calculateKruskal gk = Done gk.
Proof.
  intros HB Hne. pose proof (Built_wf g HB) as Hwf.
  destruct (calculateKruskal_full g Hwf Hne)
    as (gu & F & gk & Hrunu & Hrun & Hinv & Hlen & Hel & Hest & _ & Hfr & Hadj & Hpo & _).
  exists gk. split; [done|].
  assert (∀ A (f : Vertex T → A),
            (∀ p v, f (set_path p v) = f v) → (∀ r v, f (set_rank r v) = f v) →
            (∀ a v, f (set_adj a v) = f v) → (∀ i v, f (set_id i v) = f v) →
            (∀ b v, f (set_visited b v) = f v) → f <$> gk = f <$> g) as Hall.
  { intros A f Hp Hr Ha Hi Hv. rewrite (paths_only_frame f gu gk) by done. by apply Hfr. }
  assert (length gk = length g) as Hlenk by (by rewrite (fmap_eq_length _ _ _ Hadj)).
  assert (estruct gk = estruct g) as Hestk.
  { rewrite <- Hest. apply skeleton_estruct, skeleton_adj; [done|].
    by apply paths_only_frame. }
  pose proof (kruskal_start_erased g gk Hlenk (Hall _ info ltac:(done) ltac:(done)
    ltac:(done) ltac:(done) ltac:(done)) (Hall _ dist ltac:(done) ltac:(done)
    ltac:(done) ltac:(done) ltac:(done)) (Hall _ queueIndex ltac:(done) ltac:(done)
    ltac:(done) ltac:(done) ltac:(done)) Hestk) as Hstart.
  unfold kruskal_unionfind in Hrunu.
  destruct (kruskal_loop_erased (S (length g)) _ _ gu (eq_sym Hstart) Hrunu)
    as (gu2 & Hrun2 & Heq2).
  unfold calculateKruskal, kruskal_unionfind. rewrite Hlenk, Hrun2.
  cbn [mbind outcome_bind fst snd]. rewrite (kruskal_paths_erased gu2 gu Heq2).
  unfold calculateKruskal in Hrun. unfold kruskal_unionfind in Hrun.
  rewrite Hrunu in Hrun. by cbn [mbind outcome_bind fst snd] in Hrun.
Qed.

End KruskalAgain.

(** ** The body of the loop over the sorted edges *)

Section KruskalBody.
Context {T : Type} `{EqDecision T}.
Implicit Types g : Graph T.

(** X24. One iteration of [for (auto e : edges)] on a forest of disjoint
    sets.  When the two ends of [e] are in the same set the edge is
    skipped: nothing but path compression happens.  When they are in
    different sets and [e] has no [reverse] (an edge added with [addEdge]),
    the iteration dereferences the null [e->reverse]. *)
Theorem kruskal_step_reverse g h e :
  uf_inv g → edge_at g h = Some e → orig e < length g → dest e < length g →
  (find_root g (orig e) = find_root g (dest e) →
     ∃ g2, kruskal_step (S (length g)) g h = Done g2 ∧ compressed g g2 ∧
       edge_at g2 h = Some e) ∧
  (find_root g (orig e) ≠ find_root g (dest e) → reverse e = None →
     kruskal_step (S (length g)) g h = Undefined).
Proof.
  intros Hinv He Ho Hd.
  destruct (lookup_lt_is_Some_2 g _ Ho) as [vo Hvo].
  destruct (findSet_spec g (S (length g)) _ vo Hinv Hvo) as (r1 & g1 & Hf1 & Hr1 & Hc1); [lia|].
  pose proof (uf_inv_compressed g g1 Hinv Hc1) as Hinv1.
  assert (length g1 = length g) as Hlen1 by apply Hc1.
  destruct (lookup_lt_is_Some_2 g1 (dest e)) as [vd Hvd]; [lia|].
  destruct (findSet_spec g1 (S (length g)) _ vd Hinv1 Hvd) as (r2 & g2 & Hf2 & Hr2 & Hc2);
    [lia|].
  pose proof (uf_inv_compressed g1 g2 Hinv1 Hc2) as Hinv2.
  assert (length g2 = length g) as Hlen2 by (rewrite <- Hlen1; apply Hc2).
  assert (find_root g (orig e) = r1) as Hfo by (by apply find_root_eq).
  assert (find_root g (dest e) = r2) as Hfd.
  { rewrite <- (find_root_compressed g g1 (dest e) Hinv Hc1 Hd). by apply find_root_eq. }
  unfold kruskal_step. rewrite He, Hf1, bind_Done. cbv beta iota.
  rewrite Hf2, bind_Done. cbv beta iota. rewrite Hfo, Hfd. split.
  - intros ->. rewrite decide_False by (by intros ?).
    exists g2. split; [done|]. split; [by eapply compressed_trans|].
    rewrite <- He. symmetry. apply edge_at_adj.
    rewrite (compressed_adj g g1 Hc1). by apply compressed_adj.
  - intros Hne Hrev. rewrite decide_True by done.
    destruct (linkSets_inv g2 (S (length g)) (orig e) (dest e) r1 r2 Hinv2)
      as (g3 & Hrun & _); [lia| | |done|].
    { apply (rootof_compressed g1 g2); [done..|]. by apply (rootof_compressed g g1). }
    { by apply (rootof_compressed g1 g2). }
    rewrite Hrun, bind_Done. by rewrite Hrev.
Qed.

End KruskalBody.

(** ** The further properties at concrete inputs *)

Lemma ex_directed_Constructed : Constructed ex_directed.
Proof. solve_constructed. Qed.

Lemma ex_split_light : light ex_split.
Proof. solve_light. Qed.

Lemma ex_sets_trace0 : uf_trace ex_sets 0 (uf_init ex_sets).
Proof. apply uf_trace_init. Qed.

Lemma ex_sets_trace1 : uf_trace ex_sets 1 ex_sets_linked.
Proof.
  apply (uf_trace_link ex_sets 0 (uf_init ex_sets) 0 1).
  - apply uf_trace_init.
  - vm_compute. lia.
  - vm_compute. lia.
  - by vm_compute.
  - reflexivity.
Qed.

Lemma Constructed_findVertex_witness :
  Constructed ex_directed ∧ NoDup (info <$> ex_directed).
Proof.
  split; [apply ex_directed_Constructed|].
  apply (proj1 (Constructed_findVertex ex_directed ex_directed_Constructed)).
Defined.

Lemma addBidirectionalEdge_frame_witness :
  findVertex ex_sets 1 = Some 0 ∧ findVertex ex_sets 2 = Some 1 ∧
  getNumVertex (addBidirectionalEdge 1 2 5 ex_sets).2 = getNumVertex ex_sets.
Proof.
  assert (findVertex ex_sets 1 = Some 0) as H1 by reflexivity.
  assert (findVertex ex_sets 2 = Some 1) as H2 by reflexivity.
  split; [exact H1|]. split; [exact H2|].
  apply (proj1 (addBidirectionalEdge_frame ex_sets 1 2 5%Z 0 1 H1 H2)).
Defined.

Lemma Built_reverse_pairs_witness :
  Built ex_graph ∧
  edge_at ex_graph (0, 0) = Some (mkEdge 0 1 1 false (Some (1, 0))) ∧
  orig (mkEdge 0 1 1 false (Some (1, 0))) = 0.
Proof.
  assert (edge_at ex_graph (0, 0) = Some (mkEdge 0 1 1 false (Some (1, 0)))) as He
    by reflexivity.
  split; [apply ex_graph_Built|]. split; [exact He|].
  apply (proj1 (Built_reverse_pairs ex_graph 0 0 _ ex_graph_Built He)).
Defined.

Lemma calculatePrim_reached_witness :
  ex_directed ≠ [] ∧
  ∃ g', calculatePrim ex_directed = Done g' ∧
    ∃ v0, g' !! 0 = Some v0 ∧ visited v0 = true ∧ dist v0 = 0%Z ∧ path v0 = None.
Proof.
  assert (ex_directed ≠ []) as Hne by (intros [=]).
  split; [exact Hne|].
  destruct (calculatePrim_reached ex_directed Hne) as (g' & Hrun & Hroot & _).
  exists g'. split; [exact Hrun|exact Hroot].
Defined.

Lemma calculatePrim_frame_witness :
  ex_directed ≠ [] ∧
  ∃ g', calculatePrim ex_directed = Done g' ∧ getNumVertex g' = getNumVertex ex_directed.
Proof.
  assert (ex_directed ≠ []) as Hne by (intros [=]).
  split; [exact Hne|].
  destruct (calculatePrim_frame ex_directed Hne) as (g' & Hrun & Hn & _).
  exists g'. split; [exact Hrun|exact Hn].
Defined.

Lemma calculatePrim_component_witness :
  Built ex_split ∧ ex_split ≠ [] ∧ light ex_split ∧
  ∃ g', calculatePrim ex_split = Done g' ∧
    ∀ x v, g' !! x = Some v → (visited v = true ↔ conn (edge_list ex_split) 0 x).
Proof.
  assert (ex_split ≠ []) as Hne by (intros [=]).
  split; [apply ex_split_Built|]. split; [exact Hne|]. split; [apply ex_split_light|].
  destruct (calculatePrim_component ex_split ex_split_Built Hne ex_split_light)
    as (g' & Hrun & Hall).
  exists g'. split; [exact Hrun|]. intros x v Hv. apply (proj1 (Hall x v Hv)).
Defined.


Lemma linkSets_union_witness :
  uf_trace ex_sets 0 (uf_init ex_sets) ∧
  0 < length (uf_init ex_sets) ∧ 1 < length (uf_init ex_sets) ∧
  find_root (uf_init ex_sets) 0 ≠ find_root (uf_init ex_sets) 1 ∧
  ∃ g', linkSets (S (length (uf_init ex_sets))) 0 1 (uf_init ex_sets) = Done g' ∧
    find_root g' 0 = find_root g' 1.
Proof.
  assert (0 < length (uf_init ex_sets)) as H0 by (vm_compute; lia).
  assert (1 < length (uf_init ex_sets)) as H1 by (vm_compute; lia).
  assert (find_root (uf_init ex_sets) 0 ≠ find_root (uf_init ex_sets) 1) as Hne
    by (vm_compute; intros [=]).
  split; [apply ex_sets_trace0|]. split; [exact H0|]. split; [exact H1|].
  split; [exact Hne|].
  destruct (linkSets_union ex_sets 0 (uf_init ex_sets) 0 1 ex_sets_trace0 H0 H1 Hne)
    as (g' & Hrun & _ & Heq & _).
  exists g'. split; [exact Hrun|exact Heq].
Defined.

Lemma linkSets_same_set_witness :
  uf_trace ex_sets 1 ex_sets_linked ∧
  0 < length ex_sets_linked ∧ 1 < length ex_sets_linked ∧
  find_root ex_sets_linked 0 = find_root ex_sets_linked 1 ∧
  ∃ g', linkSets (S (length ex_sets_linked)) 0 1 ex_sets_linked = Done g' ∧
    rank <$> g' !! find_root ex_sets_linked 0 =
      S <$> (rank <$> ex_sets_linked !! find_root ex_sets_linked 0).
Proof.
  assert (0 < length ex_sets_linked) as H0 by (vm_compute; lia).
  assert (1 < length ex_sets_linked) as H1 by (vm_compute; lia).
  assert (find_root ex_sets_linked 0 = find_root ex_sets_linked 1) as Heq by reflexivity.
  split; [apply ex_sets_trace1|]. split; [exact H0|]. split; [exact H1|].
  split; [exact Heq|].
  destruct (linkSets_same_set ex_sets 1 ex_sets_linked 0 1 ex_sets_trace1 H0 H1 Heq)
    as (g2 & g' & _ & _ & Hrun & _ & Hrank).
  exists g'. split; [exact Hrun|exact Hrank].
Defined.

Lemma calculateKruskal_frame_witness :
  Built ex_graph ∧ ex_graph ≠ [] ∧
  ∃ gk, calculateKruskal ex_graph = Done gk ∧ estruct gk = estruct ex_graph.
Proof.
  assert (ex_graph ≠ []) as Hne by (intros [=]).
  split; [apply ex_graph_Built|]. split; [exact Hne|].
  destruct (calculateKruskal_frame ex_graph ex_graph_Built Hne)
    as (gk & Hrun & _ & _ & _ & Hest & _).
  exists gk. split; [exact Hrun|exact Hest].
Defined.

Lemma kruskal_unionfind_components_witness :
  Built ex_split ∧
  ∃ gu, kruskal_unionfind ex_split = Done gu ∧ length gu = length ex_split.
Proof.
  split; [apply ex_split_Built|].
  destruct (kruskal_unionfind_components ex_split ex_split_Built) as (gu & Hrun & Hlen & _).
  exists gu. split; [exact Hrun|exact Hlen].
Defined.

Lemma calculateKruskal_selected_witness :
  Built ex_heavy_path ∧ ex_heavy_path ≠ [] ∧ connected ex_heavy_path ∧
  ∃ gk F, calculateKruskal ex_heavy_path = Done gk ∧
    minimum_spanning_tree (length ex_heavy_path) (edge_list ex_heavy_path) F ∧
    selected_weight gk = (2 * total_weight F)%Z.
Proof.
  assert (ex_heavy_path ≠ []) as Hne by (intros [=]).
  split; [apply ex_heavy_path_Built|]. split; [exact Hne|].
  split; [apply ex_heavy_path_connected|].
  destruct (calculateKruskal_selected ex_heavy_path ex_heavy_path_Built Hne
              ex_heavy_path_connected) as (gk & F & Hrun & HF & _ & _ & Hw).
  exists gk, F. split; [exact Hrun|]. split; [exact HF|exact Hw].
Defined.

Lemma calculateKruskal_tree_witness :
  Built ex_split ∧ ex_split ≠ [] ∧
  ∃ gk, calculateKruskal ex_split = Done gk ∧ ∃ v0, gk !! 0 = Some v0 ∧ path v0 = None.
Proof.
  assert (ex_split ≠ []) as Hne by (intros [=]).
  split; [apply ex_split_Built|]. split; [exact Hne|].
  destruct (calculateKruskal_tree ex_split ex_split_Built Hne) as (gk & Hrun & Hroot & _).
  exists gk. split; [exact Hrun|exact Hroot].
Defined.

Lemma calculateKruskal_spanning_paths_witness :
  Built ex_graph ∧ ex_graph ≠ [] ∧ connected ex_graph ∧
  ∃ gk, calculateKruskal ex_graph = Done gk ∧ num_parents gk = length ex_graph - 1.
Proof.
  assert (ex_graph ≠ []) as Hne by (intros [=]).
  split; [apply ex_graph_Built|]. split; [exact Hne|]. split; [apply ex_graph_connected|].
  destruct (calculateKruskal_spanning_paths ex_graph ex_graph_Built Hne ex_graph_connected)
    as (gk & Hrun & _ & Hnum & _).
  exists gk. split; [exact Hrun|exact Hnum].
Defined.

Lemma sum3_spec_witness :
  (0 ≤ 10 < 2 ^ UINT_BITS)%Z ∧ 3 ≤ length [0; 0; 0]%Z ∧ 2 ≤ 2 ∧
  sum3 2 10 [0; 0; 0]%Z = Done (true, [1; 1; 8]%Z).
Proof.
  assert (0 ≤ 10 < 2 ^ UINT_BITS)%Z as HT by (split; by vm_compute).
  assert (3 ≤ length [0; 0; 0]%Z) as Hl by (simpl; lia).
  split; [exact HT|]. split; [exact Hl|]. split; [lia|].
  apply (proj1 (sum3_spec 2 10 [0; 0; 0]%Z HT Hl (le_n 2))).
Defined.

Lemma sum3_short_array_witness :
  (3 ≤ 10 < 2 ^ UINT_BITS)%Z ∧ length (@nil Z) < 3 ∧ 1 ≤ 1 ∧
  sum3 1 10 [] = Undefined.
Proof.
  assert (3 ≤ 10 < 2 ^ UINT_BITS)%Z as HT by (split; by vm_compute).
  assert (length (@nil Z) < 3) as Hl by (simpl; lia).
  split; [exact HT|]. split; [exact Hl|]. split; [lia|].
  apply (sum3_short_array 1 10 [] HT Hl (le_n 1)).
Defined.

Lemma calculateKruskal_idempotent_witness :
  Built ex_graph ∧ ex_graph ≠ [] ∧
  ∃ gk, calculateKruskal ex_graph = Done gk ∧ calculateKruskal gk = Done gk.
Proof.
  assert (ex_graph ≠ []) as Hne by (intros [=]).
  split; [apply ex_graph_Built|]. split; [exact Hne|].
  apply (calculateKruskal_idempotent ex_graph ex_graph_Built Hne).
Defined.

Lemma kruskal_step_reverse_witness :
  let g := kruskal_deselect (kruskal_init ex_directed) in
  let e := mkEdge 0 1 5 false None in
  uf_inv g ∧ edge_at g (0, 0) = Some e ∧ orig e < length g ∧ dest e < length g ∧
  find_root g (orig e) ≠ find_root g (dest e) ∧ reverse e = None ∧
  kruskal_step (S (length g)) g (0, 0) = Undefined ∧
  calculateKruskal ex_directed = Undefined.
Proof.
  intros g e.
  assert (uf_inv g) as Hinv by apply (proj1 (kruskal_start_forest ex_directed)).
  assert (edge_at g (0, 0) = Some e) as He by reflexivity.
  assert (orig e < length g) as Ho by (vm_compute; lia).
  assert (dest e < length g) as Hd by (vm_compute; lia).
  assert (find_root g (orig e) ≠ find_root g (dest e)) as Hne by (vm_compute; intros [=]).
  split; [exact Hinv|]. split; [exact He|]. split; [exact Ho|]. split; [exact Hd|].
  split; [exact Hne|]. split; [reflexivity|].
  split; [|reflexivity].
  apply (proj2 (kruskal_step_reverse g (0, 0) e Hinv He Ho Hd) Hne eq_refl).
Defined.
